(** * pdf2md: resume extractor, template filler and OCR history store

    A shallow embedding of
    - [src/app/action/dataExtractor.ts]  (extractResumeData),
    - [src/app/action/excelGenerator.ts] (generateResumeExcel),
    - [src/app/utils/storageUtils.ts]    (saveOCRResult and friends),
    together with the properties of these functions stated by the
    specification.

    JavaScript strings are sequences of UTF-16 code units and the regular
    expressions of the extractor carry no [u] flag, so they work on code
    units: a text is a [list N] of code units.  Every character the
    source mentions lies in the Basic Multilingual Plane and is one unit. *)

From Stdlib Require Import NArith ZArith Ascii String.
From stdpp Require Import base option list gmap.

Open Scope N_scope.

(** ** Texts *)

Module Text.

Abbreviation text := (list N).

(** [utf16 s] decodes the UTF-8 bytes of a string literal of this file into
    UTF-16 code units, so that the literals of the TypeScript source can be
    written down as they are. *)
Definition cont_bits (a : ascii) : N := N.land (N_of_ascii a) 0x3F.

Definition surrogates (cp : N) : text :=
  if cp <? 0x10000 then [cp]
  else let v := cp - 0x10000 in
       [0xD800 + N.shiftr v 10; 0xDC00 + N.land v 0x3FF].

Fixpoint utf16 (s : string) : text :=
  match s with
  | EmptyString => []
  | String a s1 =>
      let b := N_of_ascii a in
      if b <? 0x80 then b :: utf16 s1
      else if b <? 0xE0 then
        match s1 with
        | String a1 s2 =>
            (N.shiftl (N.land b 0x1F) 6 + cont_bits a1) :: utf16 s2
        | _ => []
        end
      else if b <? 0xF0 then
        match s1 with
        | String a1 (String a2 s3) =>
            (N.shiftl (N.land b 0x0F) 12 + N.shiftl (cont_bits a1) 6
             + cont_bits a2) :: utf16 s3
        | _ => []
        end
      else
        match s1 with
        | String a1 (String a2 (String a3 s4)) =>
            surrogates (N.shiftl (N.land b 0x07) 18
                        + N.shiftl (cont_bits a1) 12
                        + N.shiftl (cont_bits a2) 6 + cont_bits a3)
            ++ utf16 s4
        | _ => []
        end
  end.

Notation "'u8' s" := (utf16 s%string) (at level 1, s at level 0, only parsing).
Arguments utf16 : simpl never.

(** Code units with a role of their own in the source. *)
Definition LF : N := 0x0A.
Definition CR : N := 0x0D.
Definition LS : N := 0x2028.   (* LINE SEPARATOR *)
Definition PS : N := 0x2029.   (* PARAGRAPH SEPARATOR *)

(** [\d] *)
Definition is_digit (c : N) : bool := (0x30 <=? c) && (c <=? 0x39).

(** [\s], which is also the set String.prototype.trim strips:
    WhiteSpace and LineTerminator of ECMAScript. *)
Definition is_space (c : N) : bool :=
  (c =? 0x09) || (c =? 0x0A) || (c =? 0x0B) || (c =? 0x0C) || (c =? 0x0D)
  || (c =? 0x20) || (c =? 0xA0) || (c =? 0x1680)
  || ((0x2000 <=? c) && (c <=? 0x200A))
  || (c =? 0x2028) || (c =? 0x2029) || (c =? 0x202F) || (c =? 0x205F)
  || (c =? 0x3000) || (c =? 0xFEFF).

(** LineTerminator: the code units [.] does not match. *)
Definition is_line_terminator (c : N) : bool :=
  (c =? LF) || (c =? CR) || (c =? LS) || (c =? PS).

Fixpoint drop_while (p : N → bool) (s : text) : text :=
  match s with
  | x :: s' => if p x then drop_while p s' else s
  | [] => []
  end.

Definition trimStart (s : text) : text := drop_while is_space s.
Definition trimEnd (s : text) : text := reverse (drop_while is_space (reverse s)).
(** String.prototype.trim *)
Definition trim (s : text) : text := trimEnd (trimStart s).

(** [strip_prefix p s] is [Some r] when [s = p ++ r]. *)
Fixpoint strip_prefix (p s : text) : option text :=
  match p, s with
  | [], _ => Some s
  | a :: p', b :: s' => if a =? b then strip_prefix p' s' else None
  | _ :: _, [] => None
  end.

Definition starts_with (p s : text) : bool :=
  match strip_prefix p s with Some _ => true | None => false end.

(** String.prototype.includes *)
Fixpoint includes (s p : text) : bool :=
  starts_with p s || match s with [] => false | _ :: s' => includes s' p end.

(** String.prototype.join over an array of strings *)
Fixpoint join (sep : text) (l : list text) : text :=
  match l with
  | [] => []
  | [x] => x
  | x :: l' => x ++ sep ++ join sep l'
  end.

End Text.
Export Text.

(** ** Regular expressions of the extractor

    The fragment of ECMAScript regular expressions the source uses:
    literals, character classes, quantified character classes (greedy or
    lazy), capture groups, alternation and the end anchor.  Every
    quantifier of the source applies to a single character class.  The
    matcher is the backtracking matcher of the ECMAScript specification,
    written with continuations: alternatives are tried left to right, a
    greedy quantifier tries the longest repetition first and a lazy one
    the shortest. *)

Module Regex.

Inductive citem :=
| Ch (c : N)              (* one code unit *)
| Range (lo hi : N)       (* lo-hi *)
| Space                   (* \s *)
| NotSpace                (* \S *)
| Digit.                  (* \d *)

Inductive cclass :=
| OneOf (items : list citem)      (* [...]  *)
| NoneOf (items : list citem)     (* [^...] *)
| Dot.                            (* . without the s flag *)

Definition chars (s : text) : list citem := Ch <$> s.

Definition in_item (x : N) (i : citem) : bool :=
  match i with
  | Ch c => x =? c
  | Range lo hi => (lo <=? x) && (x <=? hi)
  | Space => is_space x
  | NotSpace => negb (is_space x)
  | Digit => is_digit x
  end.

Definition in_class (cl : cclass) (x : N) : bool :=
  match cl with
  | OneOf items => existsb (in_item x) items
  | NoneOf items => negb (existsb (in_item x) items)
  | Dot => negb (is_line_terminator x)
  end.

Inductive regex :=
| REps
| RChars (l : text)                       (* a literal *)
| RSet (cl : cclass)                      (* one unit of a class *)
| RSeq (r1 r2 : regex)
| RAlt (r1 r2 : regex)                    (* r1|r2 *)
| RRep (greedy : bool) (min : nat) (max : option nat) (cl : cclass)
| RGroup (i : nat) (r : regex)            (* the i-th capture group *)
| REnd.                                   (* $ without the m flag *)

Notation "r1 ∙ r2" := (RSeq r1 r2) (at level 60, right associativity).

(** Quantifiers as the source writes them. *)
Definition star (cl : cclass) : regex := RRep true 0 None cl.          (* x*  *)
Definition plus (cl : cclass) : regex := RRep true 1 None cl.          (* x+  *)
Definition opt (cl : cclass) : regex := RRep true 0 (Some 1%nat) cl.   (* x?  *)
Definition times (n : nat) (cl : cclass) : regex := RRep true n (Some n) cl. (* x{n} *)
Definition lazy_star (cl : cclass) : regex := RRep false 0 None cl.    (* x*? *)

Abbreviation captures := (gmap nat text).

Section Matcher.
Context {A : Type}.

(** The part of [s] consumed when [s'] is what remains of it. *)
Definition consumed (s s' : text) : text := take (length s - length s') s.

Definition may_repeat (budget : option nat) : bool :=
  match budget with Some O => false | _ => true end.
Definition spend (budget : option nat) : option nat := Nat.pred <$> budget.

(** Exactly [n] units of the class, the mandatory part of a quantifier. *)
Fixpoint rep_exact (p : N → bool) (n : nat) (s : text) : option text :=
  match n with
  | O => Some s
  | S n' => match s with
            | x :: s' => if p x then rep_exact p n' s' else None
            | [] => None
            end
  end.

Fixpoint rep_greedy (p : N → bool) (budget : option nat) (s : text)
    (k : text → option A) : option A :=
  match s with
  | x :: s' =>
      if p x && may_repeat budget then
        match rep_greedy p (spend budget) s' k with
        | Some a => Some a
        | None => k s
        end
      else k s
  | [] => k []
  end.

Fixpoint rep_lazy (p : N → bool) (budget : option nat) (s : text)
    (k : text → option A) : option A :=
  match k s with
  | Some a => Some a
  | None =>
      match s with
      | x :: s' =>
          if p x && may_repeat budget then rep_lazy p (spend budget) s' k
          else None
      | [] => None
      end
  end.

Definition rep (greedy : bool) (min : nat) (max : option nat)
    (p : N → bool) (s : text) (k : text → option A) : option A :=
  match rep_exact p min s with
  | Some s1 =>
      let budget := (λ m, (m - min)%nat) <$> max in
      if greedy then rep_greedy p budget s1 k else rep_lazy p budget s1 k
  | None => None
  end.

Fixpoint run (r : regex) (s : text) (c : captures)
    (k : text → captures → option A) : option A :=
  match r with
  | REps => k s c
  | RChars l =>
      match strip_prefix l s with
      | Some s' => k s' c
      | None => None
      end
  | RSet cl =>
      match s with
      | x :: s' => if in_class cl x then k s' c else None
      | [] => None
      end
  | RSeq r1 r2 => run r1 s c (λ s1 c1, run r2 s1 c1 k)
  | RAlt r1 r2 =>
      match run r1 s c k with
      | Some a => Some a
      | None => run r2 s c k
      end
  | RRep greedy min max cl =>
      rep greedy min max (in_class cl) s (λ s', k s' c)
  | RGroup i r => run r s c (λ s' c', k s' (<[i := consumed s s']> c'))
  | REnd => match s with [] => k [] c | _ :: _ => None end
  end.
End Matcher.

(** The result of a successful match: the array RegExp.prototype.exec
    returns ([whole] at index 0, the groups after it), its [index]
    property, and what follows the match in the input. *)
Record MatchResult := {
  m_index : nat;
  m_whole : text;
  m_groups : captures;
  m_rest : text
}.

(** [m[i]], [undefined] being [None] *)
Definition group (m : MatchResult) (i : nat) : option text :=
  match i with O => Some (m_whole m) | _ => m_groups m !! i end.

(** A match anchored at the start of [s]. *)
Definition match_here (r : regex) (s : text) : option (text * captures) :=
  run r s ∅ (λ s' c, Some (s', c)).

(** The search of String.prototype.match for a regular expression without
    the g flag: the leftmost start index at which the expression matches. *)
Fixpoint search_from (r : regex) (i : nat) (s : text) : option MatchResult :=
  match match_here r s with
  | Some (s', c) =>
      Some {| m_index := i; m_whole := consumed s s'; m_groups := c; m_rest := s' |}
  | None =>
      match s with
      | [] => None
      | _ :: t => search_from r (S i) t
      end
  end.

Definition js_match (s : text) (r : regex) : option MatchResult :=
  search_from r 0 s.

(** String.prototype.match with the g flag: the successive matches, each
    search starting where the previous match ended (one unit further after
    an empty match); [null], here [None], when there is none.  [skip]
    counts the units of the last match still to be stepped over. *)
Fixpoint scan_all (r : regex) (skip : nat) (s : text) : list text :=
  match skip with
  | S n => match s with
           | [] => []
           | _ :: t => scan_all r n t
           end
  | O =>
      match match_here r s with
      | Some (s', _) =>
          let w := consumed s s' in
          w :: match s with
               | [] => []
               | _ :: t => scan_all r (Nat.pred (length w)) t
               end
      | None =>
          match s with
          | [] => []
          | _ :: t => scan_all r 0 t
          end
      end
  end.

Definition js_match_all (s : text) (r : regex) : option (list text) :=
  match scan_all r 0 s with
  | [] => None
  | l => Some l
  end.

(** String.prototype.replace with a regular expression without the g flag
    and a constant replacement. *)
Definition js_replace (s : text) (r : regex) (by_ : text) : text :=
  match js_match s r with
  | Some m => take (m_index m) s ++ by_ ++ m_rest m
  | None => s
  end.

(** The value of [m && m[i]] used as a condition: the group when the match
    succeeded and the group is a non-empty string. *)
Definition truthy_group (m : option MatchResult) (i : nat) : option text :=
  match m with
  | Some res =>
      match group res i with
      | Some (x :: g) => Some (x :: g)
      | _ => None
      end
  | None => None
  end.

(** What a match is, independently of the order in which the matcher
    tries things: [Matches r w rest c c'] says that [r] matches the text
    [w] when [rest] follows it in the input, taking the captures from [c]
    to [c']. *)
Inductive Matches : regex → text → text → captures → captures → Prop :=
| M_eps rest c : Matches REps [] rest c c
| M_chars l rest c : Matches (RChars l) l rest c c
| M_set cl x rest c :
    in_class cl x = true → Matches (RSet cl) [x] rest c c
| M_seq r1 r2 w1 w2 rest c c1 c2 :
    Matches r1 w1 (w2 ++ rest) c c1 → Matches r2 w2 rest c1 c2 →
    Matches (RSeq r1 r2) (w1 ++ w2) rest c c2
| M_alt_l r1 r2 w rest c c' :
    Matches r1 w rest c c' → Matches (RAlt r1 r2) w rest c c'
| M_alt_r r1 r2 w rest c c' :
    Matches r2 w rest c c' → Matches (RAlt r1 r2) w rest c c'
| M_rep greedy min max cl w rest c :
    Forall (λ x, in_class cl x = true) w →
    (min ≤ length w)%nat →
    (∀ m, max = Some m → (length w ≤ Nat.max min m)%nat) →
    Matches (RRep greedy min max cl) w rest c c
| M_group i r w rest c c' :
    Matches r w rest c c' → Matches (RGroup i r) w rest c (<[i := w]> c')
| M_end c : Matches REnd [] [] c c.

(** [occurs_at p s j]: the text [p] occurs in [s] at offset [j]. *)
Definition occurs_at (p s : text) (j : nat) : Prop :=
  ∃ post, drop j s = p ++ post.

End Regex.
Export Regex.

(** ** Data model *)

(** A JavaScript number, an IEEE 754 double: NaN, an infinity, -0, or a
    finite number other than -0.  [Num z] is the double whose value is
    the integer [z], which exists when [z] or [-z] is in the range of
    [round53]; a finite number that is no integer is given by the text
    that [String] prints for it, which tells one double from another.
    [parseInt] returns no such number, and the code does nothing with a
    number but test it and print it. *)
Inductive number :=
| NaN
| Num (z : Z)
| NegZero
| Infinity (negative : bool)
| Fraction (printed : text).

(** The double nearest to a non-negative integer [z] (round to nearest,
    ties to even): [z] itself when it has at most 53 bits, otherwise
    [z] cut to its 53 leading bits [q], rounded up when the [e] bits cut
    off are more than half a unit of [q], or are half a unit and [q] is
    odd. *)
Definition round53 (z : Z) : Z :=
  let e := (Z.log2 z - 52)%Z in
  if (e <=? 0)%Z then z
  else
    let q := (z / 2 ^ e)%Z in
    let r := (z mod 2 ^ e)%Z in
    let half := (2 ^ (e - 1))%Z in
    let q' := if (half <? r)%Z || ((r =? half)%Z && Z.odd q) then (q + 1)%Z else q in
    (q' * 2 ^ e)%Z.

(** The Number value for an integer given by its sign and its magnitude
    [z] (ECMA-262, 6.1.6.1): the double nearest to it, and an infinity
    when that is 2^1024, beyond the largest double (2^53 - 1) * 2^971. *)
Definition signed_value (negative : bool) (z : Z) : number :=
  let v := round53 z in
  if (2 ^ 1024 <=? v)%Z then Infinity negative
  else if negative then (if (v =? 0)%Z then NegZero else Num (- v))
  else Num v.

Definition number_value (z : Z) : number := signed_value false z.

(** What a function returns: a value, or the message of the [Error] it
    throws (for an async function: the promise is fulfilled or rejected). *)
Inductive outcome (A : Type) :=
| Ok (a : A)
| Throw (message : text).
Arguments Ok {A} a.
Arguments Throw {A} message.

#[export] Instance outcome_ret : MRet outcome := λ A a, Ok a.
#[export] Instance outcome_bind : MBind outcome := λ A B f m,
  match m with
  | Ok a => f a
  | Throw e => Throw e
  end.

(** The pages of an OCR response (the fields of the vendor's type the
    program reads). *)
Record OCRPage := {
  index : N;
  markdown : option text
}.

Record OCRResponse := {
  pages : option (list OCRPage)
}.

Record Entry := {
  year : text;
  month : text;
  description : text
}.

(** [interface ExtractedResumeData]: every field is optional. *)
Record ExtractedResumeData := {
  name : option text;   (* 基本情報 *)
  nameKana : option text;
  birthDate : option text;
  gender : option text;
  age : option number;
  address : option text;   (* 連絡先情報 *)
  addressKana : option text;
  postalCode : option text;
  phoneNumber : option text;
  email : option text;
  alternativeAddress : option text;   (* 連絡先（現住所と異なる場合） *)
  alternativeAddressKana : option text;
  alternativePhoneNumber : option text;
  educationHistory : option (list Entry);   (* 学歴・職歴 *)
  workHistory : option (list Entry);
  licenses : option (list Entry);   (* その他情報 *)
  healthCondition : option text;
  hobbies : option text;
  nearestStation : option text;
  dependents : option number;
  hasSpouse : option bool;
  supportingSpouse : option bool
}.

(** The object literal [{}]. *)
Definition empty_data : ExtractedResumeData :=
  {| name := None; nameKana := None; birthDate := None; gender := None;
     age := None; address := None; addressKana := None; postalCode := None;
     phoneNumber := None; email := None; alternativeAddress := None;
     alternativeAddressKana := None; alternativePhoneNumber := None;
     educationHistory := None; workHistory := None; licenses := None;
     healthCondition := None; hobbies := None; nearestStation := None;
     dependents := None; hasSpouse := None; supportingSpouse := None |}.

(** Assignments [extractedData.f = v]. *)
Definition set_name (v : text) (d : ExtractedResumeData) : ExtractedResumeData :=
  {| name := Some v; nameKana := nameKana d; birthDate := birthDate d;
     gender := gender d; age := age d; address := address d;
     addressKana := addressKana d; postalCode := postalCode d;
     phoneNumber := phoneNumber d; email := email d;
     alternativeAddress := alternativeAddress d;
     alternativeAddressKana := alternativeAddressKana d;
     alternativePhoneNumber := alternativePhoneNumber d;
     educationHistory := educationHistory d; workHistory := workHistory d;
     licenses := licenses d; healthCondition := healthCondition d;
     hobbies := hobbies d; nearestStation := nearestStation d;
     dependents := dependents d; hasSpouse := hasSpouse d;
     supportingSpouse := supportingSpouse d |}.

Definition set_nameKana (v : text) (d : ExtractedResumeData) : ExtractedResumeData :=
  {| name := name d; nameKana := Some v; birthDate := birthDate d;
     gender := gender d; age := age d; address := address d;
     addressKana := addressKana d; postalCode := postalCode d;
     phoneNumber := phoneNumber d; email := email d;
     alternativeAddress := alternativeAddress d;
     alternativeAddressKana := alternativeAddressKana d;
     alternativePhoneNumber := alternativePhoneNumber d;
     educationHistory := educationHistory d; workHistory := workHistory d;
     licenses := licenses d; healthCondition := healthCondition d;
     hobbies := hobbies d; nearestStation := nearestStation d;
     dependents := dependents d; hasSpouse := hasSpouse d;
     supportingSpouse := supportingSpouse d |}.

Definition set_birthDate (v : text) (d : ExtractedResumeData) : ExtractedResumeData :=
  {| name := name d; nameKana := nameKana d; birthDate := Some v;
     gender := gender d; age := age d; address := address d;
     addressKana := addressKana d; postalCode := postalCode d;
     phoneNumber := phoneNumber d; email := email d;
     alternativeAddress := alternativeAddress d;
     alternativeAddressKana := alternativeAddressKana d;
     alternativePhoneNumber := alternativePhoneNumber d;
     educationHistory := educationHistory d; workHistory := workHistory d;
     licenses := licenses d; healthCondition := healthCondition d;
     hobbies := hobbies d; nearestStation := nearestStation d;
     dependents := dependents d; hasSpouse := hasSpouse d;
     supportingSpouse := supportingSpouse d |}.

Definition set_age (v : number) (d : ExtractedResumeData) : ExtractedResumeData :=
  {| name := name d; nameKana := nameKana d; birthDate := birthDate d;
     gender := gender d; age := Some v; address := address d;
     addressKana := addressKana d; postalCode := postalCode d;
     phoneNumber := phoneNumber d; email := email d;
     alternativeAddress := alternativeAddress d;
     alternativeAddressKana := alternativeAddressKana d;
     alternativePhoneNumber := alternativePhoneNumber d;
     educationHistory := educationHistory d; workHistory := workHistory d;
     licenses := licenses d; healthCondition := healthCondition d;
     hobbies := hobbies d; nearestStation := nearestStation d;
     dependents := dependents d; hasSpouse := hasSpouse d;
     supportingSpouse := supportingSpouse d |}.

Definition set_gender (v : text) (d : ExtractedResumeData) : ExtractedResumeData :=
  {| name := name d; nameKana := nameKana d; birthDate := birthDate d;
     gender := Some v; age := age d; address := address d;
     addressKana := addressKana d; postalCode := postalCode d;
     phoneNumber := phoneNumber d; email := email d;
     alternativeAddress := alternativeAddress d;
     alternativeAddressKana := alternativeAddressKana d;
     alternativePhoneNumber := alternativePhoneNumber d;
     educationHistory := educationHistory d; workHistory := workHistory d;
     licenses := licenses d; healthCondition := healthCondition d;
     hobbies := hobbies d; nearestStation := nearestStation d;
     dependents := dependents d; hasSpouse := hasSpouse d;
     supportingSpouse := supportingSpouse d |}.

Definition set_address (v : text) (d : ExtractedResumeData) : ExtractedResumeData :=
  {| name := name d; nameKana := nameKana d; birthDate := birthDate d;
     gender := gender d; age := age d; address := Some v;
     addressKana := addressKana d; postalCode := postalCode d;
     phoneNumber := phoneNumber d; email := email d;
     alternativeAddress := alternativeAddress d;
     alternativeAddressKana := alternativeAddressKana d;
     alternativePhoneNumber := alternativePhoneNumber d;
     educationHistory := educationHistory d; workHistory := workHistory d;
     licenses := licenses d; healthCondition := healthCondition d;
     hobbies := hobbies d; nearestStation := nearestStation d;
     dependents := dependents d; hasSpouse := hasSpouse d;
     supportingSpouse := supportingSpouse d |}.

Definition set_postalCode (v : text) (d : ExtractedResumeData) : ExtractedResumeData :=
  {| name := name d; nameKana := nameKana d; birthDate := birthDate d;
     gender := gender d; age := age d; address := address d;
     addressKana := addressKana d; postalCode := Some v;
     phoneNumber := phoneNumber d; email := email d;
     alternativeAddress := alternativeAddress d;
     alternativeAddressKana := alternativeAddressKana d;
     alternativePhoneNumber := alternativePhoneNumber d;
     educationHistory := educationHistory d; workHistory := workHistory d;
     licenses := licenses d; healthCondition := healthCondition d;
     hobbies := hobbies d; nearestStation := nearestStation d;
     dependents := dependents d; hasSpouse := hasSpouse d;
     supportingSpouse := supportingSpouse d |}.

Definition set_phoneNumber (v : text) (d : ExtractedResumeData) : ExtractedResumeData :=
  {| name := name d; nameKana := nameKana d; birthDate := birthDate d;
     gender := gender d; age := age d; address := address d;
     addressKana := addressKana d; postalCode := postalCode d;
     phoneNumber := Some v; email := email d;
     alternativeAddress := alternativeAddress d;
     alternativeAddressKana := alternativeAddressKana d;
     alternativePhoneNumber := alternativePhoneNumber d;
     educationHistory := educationHistory d; workHistory := workHistory d;
     licenses := licenses d; healthCondition := healthCondition d;
     hobbies := hobbies d; nearestStation := nearestStation d;
     dependents := dependents d; hasSpouse := hasSpouse d;
     supportingSpouse := supportingSpouse d |}.

Definition set_email (v : text) (d : ExtractedResumeData) : ExtractedResumeData :=
  {| name := name d; nameKana := nameKana d; birthDate := birthDate d;
     gender := gender d; age := age d; address := address d;
     addressKana := addressKana d; postalCode := postalCode d;
     phoneNumber := phoneNumber d; email := Some v;
     alternativeAddress := alternativeAddress d;
     alternativeAddressKana := alternativeAddressKana d;
     alternativePhoneNumber := alternativePhoneNumber d;
     educationHistory := educationHistory d; workHistory := workHistory d;
     licenses := licenses d; healthCondition := healthCondition d;
     hobbies := hobbies d; nearestStation := nearestStation d;
     dependents := dependents d; hasSpouse := hasSpouse d;
     supportingSpouse := supportingSpouse d |}.

Definition set_educationHistory (v : list Entry) (d : ExtractedResumeData) : ExtractedResumeData :=
  {| name := name d; nameKana := nameKana d; birthDate := birthDate d;
     gender := gender d; age := age d; address := address d;
     addressKana := addressKana d; postalCode := postalCode d;
     phoneNumber := phoneNumber d; email := email d;
     alternativeAddress := alternativeAddress d;
     alternativeAddressKana := alternativeAddressKana d;
     alternativePhoneNumber := alternativePhoneNumber d;
     educationHistory := Some v; workHistory := workHistory d;
     licenses := licenses d; healthCondition := healthCondition d;
     hobbies := hobbies d; nearestStation := nearestStation d;
     dependents := dependents d; hasSpouse := hasSpouse d;
     supportingSpouse := supportingSpouse d |}.

Definition set_workHistory (v : list Entry) (d : ExtractedResumeData) : ExtractedResumeData :=
  {| name := name d; nameKana := nameKana d; birthDate := birthDate d;
     gender := gender d; age := age d; address := address d;
     addressKana := addressKana d; postalCode := postalCode d;
     phoneNumber := phoneNumber d; email := email d;
     alternativeAddress := alternativeAddress d;
     alternativeAddressKana := alternativeAddressKana d;
     alternativePhoneNumber := alternativePhoneNumber d;
     educationHistory := educationHistory d; workHistory := Some v;
     licenses := licenses d; healthCondition := healthCondition d;
     hobbies := hobbies d; nearestStation := nearestStation d;
     dependents := dependents d; hasSpouse := hasSpouse d;
     supportingSpouse := supportingSpouse d |}.

Definition set_licenses (v : list Entry) (d : ExtractedResumeData) : ExtractedResumeData :=
  {| name := name d; nameKana := nameKana d; birthDate := birthDate d;
     gender := gender d; age := age d; address := address d;
     addressKana := addressKana d; postalCode := postalCode d;
     phoneNumber := phoneNumber d; email := email d;
     alternativeAddress := alternativeAddress d;
     alternativeAddressKana := alternativeAddressKana d;
     alternativePhoneNumber := alternativePhoneNumber d;
     educationHistory := educationHistory d; workHistory := workHistory d;
     licenses := Some v; healthCondition := healthCondition d;
     hobbies := hobbies d; nearestStation := nearestStation d;
     dependents := dependents d; hasSpouse := hasSpouse d;
     supportingSpouse := supportingSpouse d |}.

Definition set_healthCondition (v : text) (d : ExtractedResumeData) : ExtractedResumeData :=
  {| name := name d; nameKana := nameKana d; birthDate := birthDate d;
     gender := gender d; age := age d; address := address d;
     addressKana := addressKana d; postalCode := postalCode d;
     phoneNumber := phoneNumber d; email := email d;
     alternativeAddress := alternativeAddress d;
     alternativeAddressKana := alternativeAddressKana d;
     alternativePhoneNumber := alternativePhoneNumber d;
     educationHistory := educationHistory d; workHistory := workHistory d;
     licenses := licenses d; healthCondition := Some v; hobbies := hobbies d;
     nearestStation := nearestStation d; dependents := dependents d;
     hasSpouse := hasSpouse d; supportingSpouse := supportingSpouse d |}.

Definition set_hobbies (v : text) (d : ExtractedResumeData) : ExtractedResumeData :=
  {| name := name d; nameKana := nameKana d; birthDate := birthDate d;
     gender := gender d; age := age d; address := address d;
     addressKana := addressKana d; postalCode := postalCode d;
     phoneNumber := phoneNumber d; email := email d;
     alternativeAddress := alternativeAddress d;
     alternativeAddressKana := alternativeAddressKana d;
     alternativePhoneNumber := alternativePhoneNumber d;
     educationHistory := educationHistory d; workHistory := workHistory d;
     licenses := licenses d; healthCondition := healthCondition d;
     hobbies := Some v; nearestStation := nearestStation d;
     dependents := dependents d; hasSpouse := hasSpouse d;
     supportingSpouse := supportingSpouse d |}.

Definition set_nearestStation (v : text) (d : ExtractedResumeData) : ExtractedResumeData :=
  {| name := name d; nameKana := nameKana d; birthDate := birthDate d;
     gender := gender d; age := age d; address := address d;
     addressKana := addressKana d; postalCode := postalCode d;
     phoneNumber := phoneNumber d; email := email d;
     alternativeAddress := alternativeAddress d;
     alternativeAddressKana := alternativeAddressKana d;
     alternativePhoneNumber := alternativePhoneNumber d;
     educationHistory := educationHistory d; workHistory := workHistory d;
     licenses := licenses d; healthCondition := healthCondition d;
     hobbies := hobbies d; nearestStation := Some v;
     dependents := dependents d; hasSpouse := hasSpouse d;
     supportingSpouse := supportingSpouse d |}.

Definition set_dependents (v : number) (d : ExtractedResumeData) : ExtractedResumeData :=
  {| name := name d; nameKana := nameKana d; birthDate := birthDate d;
     gender := gender d; age := age d; address := address d;
     addressKana := addressKana d; postalCode := postalCode d;
     phoneNumber := phoneNumber d; email := email d;
     alternativeAddress := alternativeAddress d;
     alternativeAddressKana := alternativeAddressKana d;
     alternativePhoneNumber := alternativePhoneNumber d;
     educationHistory := educationHistory d; workHistory := workHistory d;
     licenses := licenses d; healthCondition := healthCondition d;
     hobbies := hobbies d; nearestStation := nearestStation d;
     dependents := Some v; hasSpouse := hasSpouse d;
     supportingSpouse := supportingSpouse d |}.

Definition set_hasSpouse (v : bool) (d : ExtractedResumeData) : ExtractedResumeData :=
  {| name := name d; nameKana := nameKana d; birthDate := birthDate d;
     gender := gender d; age := age d; address := address d;
     addressKana := addressKana d; postalCode := postalCode d;
     phoneNumber := phoneNumber d; email := email d;
     alternativeAddress := alternativeAddress d;
     alternativeAddressKana := alternativeAddressKana d;
     alternativePhoneNumber := alternativePhoneNumber d;
     educationHistory := educationHistory d; workHistory := workHistory d;
     licenses := licenses d; healthCondition := healthCondition d;
     hobbies := hobbies d; nearestStation := nearestStation d;
     dependents := dependents d; hasSpouse := Some v;
     supportingSpouse := supportingSpouse d |}.

Definition set_supportingSpouse (v : bool) (d : ExtractedResumeData) : ExtractedResumeData :=
  {| name := name d; nameKana := nameKana d; birthDate := birthDate d;
     gender := gender d; age := age d; address := address d;
     addressKana := addressKana d; postalCode := postalCode d;
     phoneNumber := phoneNumber d; email := email d;
     alternativeAddress := alternativeAddress d;
     alternativeAddressKana := alternativeAddressKana d;
     alternativePhoneNumber := alternativePhoneNumber d;
     educationHistory := educationHistory d; workHistory := workHistory d;
     licenses := licenses d; healthCondition := healthCondition d;
     hobbies := hobbies d; nearestStation := nearestStation d;
     dependents := dependents d; hasSpouse := hasSpouse d;
     supportingSpouse := Some v |}.

(** ** The text extractor ([src/app/action/dataExtractor.ts]) *)

Module DataExtractor.

(** [parseInt(s, 10)]: leading white space, an optional sign, then the
    longest run of decimal digits; NaN when there is no digit, otherwise
    the Number value for the integer the digits denote.  (ECMA-262 lets
    an implementation replace the digits after the 20th by zeros; the
    engines that run this program do not, and for integers below 2^53,
    which have at most 16 digits, the result is the same.) *)
Fixpoint digits_prefix (s : text) : text :=
  match s with
  | x :: s' => if is_digit x then x :: digits_prefix s' else []
  | [] => []
  end.

Definition digits_value (ds : text) : Z :=
  foldl (λ acc x, 10 * acc + Z.of_N (x - 0x30))%Z 0%Z ds.

Definition parseInt10 (s : text) : number :=
  let s := trimStart s in
  let '(neg, s) :=
    match s with
    | x :: s' => if x =? 0x2D then (true, s')
                 else if x =? 0x2B then (false, s') else (false, s)
    | [] => (false, s)
    end in
  match digits_prefix s with
  | [] => NaN
  | ds => signed_value neg (digits_value ds)
  end.

(** Character classes of the source. *)
Definition colons : cclass := OneOf (chars u8"：:").             (* [：:] *)
Definition spaces : cclass := OneOf [Space].                     (* \s *)
Definition digits : cclass := OneOf [Digit].                     (* \d *)
Definition not_eol : cclass := NoneOf [Ch LF; Ch CR].            (* [^\n\r] *)
Definition not_eol_paren : cclass :=
  NoneOf (Ch LF :: Ch CR :: chars u8"（(").                       (* [^\n\r（(] *)
Definition open_paren : cclass := OneOf (chars u8"（(").          (* [（(] *)
Definition close_paren : cclass := OneOf (chars u8"）)").         (* [）)] *)
Definition anything : cclass := OneOf [Space; NotSpace].         (* [\s\S] *)
Definition not_space : cclass := NoneOf [Space].                 (* [^\s] *)
Definition any_char : cclass := Dot.                             (* . *)

(** The regular expressions, in the order of the source. *)
(* /氏名[：:]*\s*([^\n\r]+)/ *)
Definition re_name : regex :=
  RChars u8"氏名" ∙ star colons ∙ star spaces ∙ RGroup 1 (plus not_eol).
(* /ふりがな[：:]*\s*([^\n\r]+)/ *)
Definition re_nameKana : regex :=
  RChars u8"ふりがな" ∙ star colons ∙ star spaces ∙ RGroup 1 (plus not_eol).
(* /生年月日[：:]*\s*([^\n\r（(]+)/ *)
Definition re_birthDate : regex :=
  RChars u8"生年月日" ∙ star colons ∙ star spaces ∙ RGroup 1 (plus not_eol_paren).
(* /生年月日[：:]*\s*[^\n\r（(]+[（(]\s*満\s*(\d+)\s*歳/ *)
Definition re_age : regex :=
  RChars u8"生年月日" ∙ star colons ∙ star spaces ∙ plus not_eol_paren
  ∙ RSet open_paren ∙ star spaces ∙ RChars u8"満" ∙ star spaces
  ∙ RGroup 1 (plus digits) ∙ star spaces ∙ RChars u8"歳".
(* /性別[：:]*\s*([男女])/ *)
Definition re_gender : regex :=
  RChars u8"性別" ∙ star colons ∙ star spaces
  ∙ RGroup 1 (RSet (OneOf (chars u8"男女"))).
(* /現住所[：:]*\s*([^\n\r]+)(?:\n|\r|$)/ *)
Definition re_address : regex :=
  RChars u8"現住所" ∙ star colons ∙ star spaces ∙ RGroup 1 (plus not_eol)
  ∙ RAlt (RChars [LF]) (RAlt (RChars [CR]) REnd).
(* /〒\s*(\d{3}-\d{4})/ *)
Definition re_postalCode : regex :=
  RChars u8"〒" ∙ star spaces
  ∙ RGroup 1 (times 3 digits ∙ RChars u8"-" ∙ times 4 digits).
(* /電話番号[：:]*\s*([0-9\-]+)/ *)
Definition re_phone : regex :=
  RChars u8"電話番号" ∙ star colons ∙ star spaces
  ∙ RGroup 1 (plus (OneOf [Range 0x30 0x39; Ch 0x2D])).
(* /E[-\s]?mail[：:]*\s*([^\s]+@[^\s]+)/ *)
Definition re_email : regex :=
  RChars u8"E" ∙ opt (OneOf [Ch 0x2D; Space]) ∙ RChars u8"mail"
  ∙ star colons ∙ star spaces
  ∙ RGroup 1 (plus not_space ∙ RChars u8"@" ∙ plus not_space).
(* /学歴\s*\n([\s\S]*?)(?:職歴|$)/ *)
Definition re_educationSection : regex :=
  RChars u8"学歴" ∙ star spaces ∙ RChars [LF] ∙ RGroup 1 (lazy_star anything)
  ∙ RAlt (RChars u8"職歴") REnd.
(* /(\d+)\s*年\s*(\d+)\s*月\s*([^\n\r]+)/g *)
Definition re_entries : regex :=
  RGroup 1 (plus digits) ∙ star spaces ∙ RChars u8"年" ∙ star spaces
  ∙ RGroup 2 (plus digits) ∙ star spaces ∙ RChars u8"月" ∙ star spaces
  ∙ RGroup 3 (plus not_eol).
(* /(\d+)\s*年\s*(\d+)\s*月\s*(.+)/ *)
Definition re_entryParts : regex :=
  RGroup 1 (plus digits) ∙ star spaces ∙ RChars u8"年" ∙ star spaces
  ∙ RGroup 2 (plus digits) ∙ star spaces ∙ RChars u8"月" ∙ star spaces
  ∙ RGroup 3 (plus any_char).
(* /職歴\s*\n([\s\S]*?)(?:免許・資格|健康状態|趣味|$)/ *)
Definition re_workSection : regex :=
  RChars u8"職歴" ∙ star spaces ∙ RChars [LF] ∙ RGroup 1 (lazy_star anything)
  ∙ RAlt (RChars u8"免許・資格")
      (RAlt (RChars u8"健康状態") (RAlt (RChars u8"趣味") REnd)).
(* /免許・資格\s*\n([\s\S]*?)(?:健康状態|趣味|$)/ *)
Definition re_licenseSection : regex :=
  RChars u8"免許・資格" ∙ star spaces ∙ RChars [LF]
  ∙ RGroup 1 (lazy_star anything)
  ∙ RAlt (RChars u8"健康状態") (RAlt (RChars u8"趣味") REnd).
(* /健康状態[：:]*\s*([^\n\r]+)/ *)
Definition re_health : regex :=
  RChars u8"健康状態" ∙ star colons ∙ star spaces ∙ RGroup 1 (plus not_eol).
(* /趣味・特技[：:]*\s*([^\n\r]+)/ *)
Definition re_hobbies : regex :=
  RChars u8"趣味・特技" ∙ star colons ∙ star spaces ∙ RGroup 1 (plus not_eol).
(* /最寄り駅[：:]*\s*([^\n\r]+)/ *)
Definition re_station : regex :=
  RChars u8"最寄り駅" ∙ star colons ∙ star spaces ∙ RGroup 1 (plus not_eol).
(* /扶養家族数[（(]配偶者を除く[）)][：:]*\s*(\d+)/ *)
Definition re_dependents : regex :=
  RChars u8"扶養家族数" ∙ RSet open_paren ∙ RChars u8"配偶者を除く"
  ∙ RSet close_paren ∙ star colons ∙ star spaces ∙ RGroup 1 (plus digits).
(* /配偶者の有無[：:]*\s*([あり|なし]+)/ *)
Definition re_spouse : regex :=
  RChars u8"配偶者の有無" ∙ star colons ∙ star spaces
  ∙ RGroup 1 (plus (OneOf (chars u8"あり|なし"))).
(* /配偶者の扶養義務[：:]*\s*([あり|なし]+)/ *)
Definition re_supportingSpouse : regex :=
  RChars u8"配偶者の扶養義務" ∙ star colons ∙ star spaces
  ∙ RGroup 1 (plus (OneOf (chars u8"あり|なし"))).

(** The body of [if (m && m[1]) { ... }]. *)
Definition when_group {D : Type} (m : option MatchResult) (i : nat)
    (body : text → D → D) (d : D) : D :=
  match truthy_group m i with
  | Some g => body g d
  | None => d
  end.

Section Steps.
Variable allText : text.

(* 名前の抽出 *)
Definition step_name : ExtractedResumeData → ExtractedResumeData :=
  when_group (js_match allText re_name) 1 (λ g, set_name (trim g)).

(* フリガナの抽出 *)
Definition step_nameKana : ExtractedResumeData → ExtractedResumeData :=
  when_group (js_match allText re_nameKana) 1 (λ g, set_nameKana (trim g)).

(* 生年月日の抽出, 年齢の抽出 *)
Definition step_birthDate : ExtractedResumeData → ExtractedResumeData :=
  when_group (js_match allText re_birthDate) 1 (λ g d,
    let d := set_birthDate (trim g) d in
    when_group (js_match allText re_age) 1 (λ a, set_age (parseInt10 a)) d).

(* 性別の抽出 *)
Definition step_gender : ExtractedResumeData → ExtractedResumeData :=
  when_group (js_match allText re_gender) 1 (λ g, set_gender (trim g)).

(* 住所の抽出, 郵便番号の抽出 *)
Definition step_address : ExtractedResumeData → ExtractedResumeData :=
  when_group (js_match allText re_address) 1 (λ g d,
    let d := set_address (trim g) d in
    when_group (js_match g re_postalCode) 1 (λ p, set_postalCode p) d).

(* 電話番号の抽出 *)
Definition step_phoneNumber : ExtractedResumeData → ExtractedResumeData :=
  when_group (js_match allText re_phone) 1 (λ g, set_phoneNumber (trim g)).

(* メールアドレスの抽出 *)
Definition step_email : ExtractedResumeData → ExtractedResumeData :=
  when_group (js_match allText re_email) 1 (λ g, set_email (trim g)).

(** The callback of [entries.map]: [parts[3].trim()] is a TypeError when
    the third group is undefined. *)
Definition parse_entry (entry : text) : outcome Entry :=
  match js_match entry re_entryParts with
  | Some parts =>
      match group parts 3 with
      | Some g3 =>
          Ok {| year := default [] (group parts 1);
                month := default [] (group parts 2);
                description := trim g3 |}
      | None => Throw u8"TypeError: Cannot read properties of undefined"
      end
  | None => Ok {| year := []; month := []; description := trim entry |}
  end.

(** The three sections share their shape: the section text is the first
    group of the section expression, its entries are all matches of
    [re_entries], and the field is assigned only when there is one. *)
Definition step_section (re_section : regex)
    (assign : list Entry → ExtractedResumeData → ExtractedResumeData)
    (d : ExtractedResumeData) : outcome ExtractedResumeData :=
  match truthy_group (js_match allText re_section) 1 with
  | Some sectionText =>
      match js_match_all sectionText re_entries with
      | Some entries =>
          l ← mapM parse_entry entries; Ok (assign l d)
      | None => Ok d
      end
  | None => Ok d
  end.

(* 学歴の抽出 *)
Definition step_educationHistory := step_section re_educationSection set_educationHistory.
(* 職歴の抽出 *)
Definition step_workHistory := step_section re_workSection set_workHistory.
(* 免許・資格の抽出 *)
Definition step_licenses := step_section re_licenseSection set_licenses.

(* 健康状態の抽出 *)
Definition step_healthCondition : ExtractedResumeData → ExtractedResumeData :=
  when_group (js_match allText re_health) 1 (λ g, set_healthCondition (trim g)).

(* 趣味・特技の抽出 *)
Definition step_hobbies : ExtractedResumeData → ExtractedResumeData :=
  when_group (js_match allText re_hobbies) 1 (λ g, set_hobbies (trim g)).

(* 最寄り駅の抽出 *)
Definition step_nearestStation : ExtractedResumeData → ExtractedResumeData :=
  when_group (js_match allText re_station) 1 (λ g, set_nearestStation (trim g)).

(* 扶養家族数の抽出 *)
Definition step_dependents : ExtractedResumeData → ExtractedResumeData :=
  when_group (js_match allText re_dependents) 1 (λ g, set_dependents (parseInt10 g)).

(* 配偶者の有無 *)
Definition step_hasSpouse : ExtractedResumeData → ExtractedResumeData :=
  when_group (js_match allText re_spouse) 1
    (λ g, set_hasSpouse (includes g u8"あり")).

(* 配偶者の扶養義務 *)
Definition step_supportingSpouse : ExtractedResumeData → ExtractedResumeData :=
  when_group (js_match allText re_supportingSpouse) 1
    (λ g, set_supportingSpouse (includes g u8"あり")).

(** The steps before and after the three sections. *)
Definition contact_steps (d : ExtractedResumeData) : ExtractedResumeData :=
  step_email (step_phoneNumber (step_address (step_gender
    (step_birthDate (step_nameKana (step_name d)))))).

Definition other_steps (d : ExtractedResumeData) : ExtractedResumeData :=
  step_supportingSpouse (step_hasSpouse (step_dependents
    (step_nearestStation (step_hobbies (step_healthCondition d))))).

Definition extractFields : outcome ExtractedResumeData :=
  d ← step_educationHistory (contact_steps empty_data);
  d ← step_workHistory d;
  d ← step_licenses d;
  Ok (other_steps d).

End Steps.

(** すべてのページのマークダウンを結合 *)
Definition allText_of (ps : list OCRPage) : text :=
  join [LF; LF] ((λ page, default [] (markdown page)) <$> ps).

Definition extractResumeData (ocrResult : option OCRResponse)
    : outcome ExtractedResumeData :=
  match ocrResult with
  | None => Throw u8"有効なOCR結果がありません"
  | Some r =>
      match pages r with
      | None | Some [] => Throw u8"有効なOCR結果がありません"
      | Some ps => extractFields (allText_of ps)
      end
  end.

End DataExtractor.

(** ** The template filler ([src/app/action/excelGenerator.ts])

    The worksheet is the map from cell addresses ("B3") to cell values;
    [worksheet.getCell(a).value = v] is the insertion of [v] at [a].  The
    template file, the temporary file and the blob upload belong to the
    environment: the template's Sheet1 is an argument, the filled sheet is
    the result.  Cells are independent of each other (the model has no
    merged cells). *)

Module ExcelGenerator.
Import DataExtractor.

Inductive CellValue :=
| VString (s : text)
| VNumber (n : number).

Abbreviation worksheet := (gmap text CellValue).

(** The decimal digits of a non-negative integer, as template literals
    print a row index. *)
Fixpoint uint_text (d : Decimal.uint) : text :=
  match d with
  | Decimal.Nil => []
  | Decimal.D0 d => 0x30 :: uint_text d
  | Decimal.D1 d => 0x31 :: uint_text d
  | Decimal.D2 d => 0x32 :: uint_text d
  | Decimal.D3 d => 0x33 :: uint_text d
  | Decimal.D4 d => 0x34 :: uint_text d
  | Decimal.D5 d => 0x35 :: uint_text d
  | Decimal.D6 d => 0x36 :: uint_text d
  | Decimal.D7 d => 0x37 :: uint_text d
  | Decimal.D8 d => 0x38 :: uint_text d
  | Decimal.D9 d => 0x39 :: uint_text d
  end.

Definition N_text (n : N) : text := uint_text (N.to_uint n).

(** Number::toString (ECMA-262, 6.1.6.1.20) in radix 10, for a double
    [x] >= 0 with an integer value.  The digits printed are those of the
    integers s * 10^(n-k) with the fewest significant digits k whose
    Number value is [x]; of these the one nearest to [x], and the one
    with an even s when two are equally near.

    [rounds_to x c]: the Number value for [c] is [x]. *)
Definition rounds_to (x c : Z) : bool :=
  match number_value c with
  | Num v => (v =? x)%Z
  | _ => false
  end.

(** The candidates with k significant digits are the multiples of
    [p] = 10^(d-k) next to [x], where d is the number of digits of [x];
    k goes up from 1 until one of them rounds to [x], as [x] itself does
    for k = d. *)
Fixpoint shortest_from (x p : Z) (fuel : nat) : Z :=
  match fuel with
  | O => x
  | S fuel' =>
      let lo := (x / p * p)%Z in
      let hi := (lo + p)%Z in
      match rounds_to x lo, rounds_to x hi with
      | true, true =>
          if (x - lo <? hi - x)%Z then lo
          else if (hi - x <? x - lo)%Z then hi
          else if Z.even (lo / p) then lo else hi
      | true, false => lo
      | false, true => hi
      | false, false => shortest_from x (p / 10) fuel'
      end
  end.

Definition shortest (x : Z) : Z :=
  let d := length (N_text (Z.to_N x)) in
  shortest_from x (10 ^ Z.of_nat (d - 1)) d.

Fixpoint strip_zeros (fuel : nat) (c : Z) : Z :=
  match fuel with
  | O => c
  | S fuel' =>
      if (0 <? c)%Z && (c mod 10 =? 0)%Z then strip_zeros fuel' (c / 10) else c
  end.

(** An integer of n > 21 digits is printed with an exponent: the first
    significant digit, a point and the other significant digits if there
    are any, then e+ and n - 1. *)
Definition exponent_text (c : Z) : text :=
  let n := length (N_text (Z.to_N c)) in
  match N_text (Z.to_N (strip_zeros n c)) with
  | [] => []
  | [d1] => d1 :: u8"e+" ++ N_text (N.of_nat (n - 1))
  | d1 :: ds => d1 :: u8"." ++ ds ++ u8"e+" ++ N_text (N.of_nat (n - 1))
  end.

Definition magnitude_text (x : Z) : text :=
  let c := shortest x in
  if (c <? 10 ^ 21)%Z then N_text (Z.to_N c) else exponent_text c.

(** [String(n)], as a template literal prints a number. *)
Definition number_text (n : number) : text :=
  match n with
  | NaN => u8"NaN"
  | NegZero => u8"0"
  | Infinity false => u8"Infinity"
  | Infinity true => u8"-Infinity"
  | Num z => if (z <? 0)%Z then u8"-" ++ magnitude_text (- z) else magnitude_text z
  | Fraction printed => printed
  end.

(** Truthiness of an optional string: present and not empty. *)
Definition truthy_text (o : option text) : option text :=
  match o with
  | Some (x :: s) => Some (x :: s)
  | _ => None
  end.

(** [resumeData.age || ''] inside a template literal. *)
Definition age_or_empty (o : option number) : text :=
  match o with
  | Some (Num z) => if (z =? 0)%Z then [] else number_text (Num z)
  | Some (Infinity b) => number_text (Infinity b)
  | Some (Fraction printed) => number_text (Fraction printed)
  | Some NaN | Some NegZero | None => []
  end.

(* /(\d+)\s*年\s*(\d+)\s*月\s*(\d+)\s*日/ *)
Definition re_birthDateParts : regex :=
  RGroup 1 (plus digits) ∙ star spaces ∙ RChars u8"年" ∙ star spaces
  ∙ RGroup 2 (plus digits) ∙ star spaces ∙ RChars u8"月" ∙ star spaces
  ∙ RGroup 3 (plus digits) ∙ star spaces ∙ RChars u8"日".
(* /〒\s*\d{3}-\d{4}\s*/ *)
Definition re_postalPrefix : regex :=
  RChars u8"〒" ∙ star spaces ∙ times 3 digits ∙ RChars u8"-"
  ∙ times 4 digits ∙ star spaces.

(** A group inside a template literal: [undefined] prints as such. *)
Definition group_text (m : MatchResult) (i : nat) : text :=
  default u8"undefined" (group m i).

(** [`${col}${rowIndex}`] *)
Definition cell (col : text) (rowIndex : N) : text := col ++ N_text rowIndex.

(** The body of the three [forEach] loops: one row per entry, the row
    index incremented after each. *)
Definition write_entry (c1 c2 c3 : text) (st : N * worksheet) (entry : Entry)
    : N * worksheet :=
  let '(rowIndex, ws) := st in
  let ws := <[cell c1 rowIndex := VString (year entry)]> ws in
  let ws := <[cell c2 rowIndex := VString (month entry)]> ws in
  let ws := <[cell c3 rowIndex := VString (description entry)]> ws in
  (rowIndex + 1, ws).

Definition write_rows (c1 c2 c3 : text) (start : N) (o : option (list Entry))
    (ws : worksheet) : worksheet :=
  match o with
  | Some (e :: l) => (foldl (write_entry c1 c2 c3) (start, ws) (e :: l)).2
  | _ => ws
  end.

Definition when_text (o : option text) (body : text → worksheet → worksheet)
    (ws : worksheet) : worksheet :=
  match truthy_text o with
  | Some v => body v ws
  | None => ws
  end.

Definition when_defined {V} (o : option V) (body : V → worksheet → worksheet)
    (ws : worksheet) : worksheet :=
  match o with
  | Some v => body v ws
  | None => ws
  end.

Definition yes_no (b : bool) : CellValue :=
  VString (if b then u8"あり" else u8"なし").

Section Fill.
Variable resumeData : ExtractedResumeData.

(* 基本情報の転記 *)
Definition fill_name := when_text (name resumeData) (λ v, <[u8"B3" := VString v]>).
Definition fill_nameKana := when_text (nameKana resumeData) (λ v, <[u8"B2" := VString v]>).
(* 生年月日の転記 *)
Definition fill_birthDate := when_text (birthDate resumeData) (λ v,
  match js_match v re_birthDateParts with
  | Some m =>
      <[u8"A5" := VString (group_text m 1 ++ u8"年 " ++ group_text m 2 ++ u8"月 "
                           ++ group_text m 3 ++ u8"日生 （ 満 "
                           ++ age_or_empty (age resumeData) ++ u8"歳 ）")]>
  | None => <[u8"A5" := VString v]>
  end).
(* 性別の転記 *)
Definition fill_gender := when_text (gender resumeData) (λ v, <[u8"D2" := VString v]>).
(* 住所情報の転記 *)
Definition fill_addressKana := when_text (addressKana resumeData) (λ v, <[u8"B6" := VString v]>).
Definition fill_postalCode := when_text (postalCode resumeData)
  (λ v, <[u8"B7" := VString (u8"〒 " ++ v)]>).
Definition fill_address := when_text (address resumeData)
  (λ v, <[u8"A7" := VString (js_replace v re_postalPrefix [])]>).
(* 連絡先情報の転記 *)
Definition fill_phoneNumber := when_text (phoneNumber resumeData) (λ v, <[u8"F6" := VString v]>).
Definition fill_email := when_text (email resumeData) (λ v, <[u8"F7" := VString v]>).
(* 学歴の転記 *)
Definition fill_educationHistory :=
  write_rows u8"A" u8"B" u8"C" 14 (educationHistory resumeData).
(* 職歴の転記 *)
Definition fill_workHistory :=
  write_rows u8"A" u8"B" u8"C" 20 (workHistory resumeData).
(* 免許・資格の転記 *)
Definition fill_licenses :=
  write_rows u8"I" u8"J" u8"K" 14 (licenses resumeData).
(* その他情報の転記 *)
Definition fill_healthCondition := when_text (healthCondition resumeData) (λ v, <[u8"I17" := VString v]>).
Definition fill_hobbies := when_text (hobbies resumeData) (λ v, <[u8"I18" := VString v]>).
Definition fill_nearestStation := when_text (nearestStation resumeData) (λ v, <[u8"I19" := VString v]>).
Definition fill_dependents := when_defined (dependents resumeData) (λ n, <[u8"L17" := VNumber n]>).
Definition fill_hasSpouse := when_defined (hasSpouse resumeData) (λ b, <[u8"L18" := yes_no b]>).
Definition fill_supportingSpouse := when_defined (supportingSpouse resumeData) (λ b, <[u8"L19" := yes_no b]>).

(** The writes in the order of the source. *)
Definition fill_steps : list (worksheet → worksheet) :=
  [ fill_name; fill_nameKana; fill_birthDate; fill_gender; fill_addressKana;
    fill_postalCode; fill_address; fill_phoneNumber; fill_email;
    fill_educationHistory; fill_workHistory; fill_licenses;
    fill_healthCondition; fill_hobbies; fill_nearestStation;
    fill_dependents; fill_hasSpouse; fill_supportingSpouse ].

Definition fill_sheet (ws : worksheet) : worksheet :=
  foldl (λ ws step, step ws) ws fill_steps.

(** [sheet1] is [workbook.getWorksheet('Sheet1')] of the template. *)
Definition generateResumeExcel (sheet1 : option worksheet) : outcome worksheet :=
  match sheet1 with
  | None => Throw u8"テンプレートにSheet1が見つかりません"
  | Some ws => Ok (fill_sheet ws)
  end.

End Fill.

End ExcelGenerator.

(** ** The OCR history store ([src/app/utils/storageUtils.ts])

    [localStorage] holds one text under OCR_RESULTS_STORAGE_KEY.  The
    functions of the store parse and stringify it and do nothing else
    with it, so the text is modelled by what JSON.parse makes of it: a
    JSON value, or a SyntaxError (JSON.parse inverts JSON.stringify on
    the values below).  The code casts the parsed value to
    [StoredOCRResult[]] without looking at it; what happens afterwards
    depends on the value, which need not be an array of records.
    Whether the browser lets an access to the storage through is the
    environment's choice, made for each call. *)

Module StorageUtils.

Record StoredOCRResult := {
  id : text;
  timestamp : N;
  filename : text;
  result : OCRResponse
}.

(** An element of a parsed array, as far as the code looks at it: the
    callbacks of [find] and [filter] read the property [id] of the
    element and compare it with a string. *)
Inductive item :=
| Rec (r : StoredOCRResult)   (* an object with the fields of a record *)
| Null                        (* null: reading a property of it throws *)
| Str (s : text)              (* a string: it has no property [id] *)
| Other (own_id : option text) (raw : text).
    (* any other value (a boolean, a number, an array, another object),
       given by its JSON text; [own_id] is its property [id] when it has
       one that is a string *)

(** What JSON.parse returns. *)
Inductive json_value :=
| JArray (l : list item)
| JString (s : text)
| JOther (raw : text).   (* null, a boolean, a number or an object *)

(** The text under the key. *)
Inductive stored_value :=
| Json (v : json_value)      (* the JSON text of [v] *)
| Unparsable (raw : text).   (* a text JSON.parse rejects, as the empty text *)

Record World := {
  store : option stored_value;   (* the value under the key, if any *)
  console : list text            (* what console.error has logged *)
}.

(** What the environment does during one call. *)
Record Env := {
  getItem_throws : bool;
  setItem_throws : bool;
  removeItem_throws : bool;
  id_now : N;          (* Date.now() inside generateUniqueId *)
  timestamp_now : N;   (* Date.now() of the timestamp *)
  random36 : text      (* Math.random().toString(36).substring(2) *)
}.

(** Computations on the world that may throw; what was done before the
    throw stays done. *)
Definition M (A : Type) : Type := World → outcome A * World.

#[export] Instance M_ret : MRet M := λ A a w, (Ok a, w).
#[export] Instance M_bind : MBind M := λ A B f m w,
  match m w with
  | (Ok a, w') => f a w'
  | (Throw e, w') => (Throw e, w')
  end.

(** A computation that does not touch the world. *)
Definition pure {A} (o : outcome A) : M A := λ w, (o, w).

(** [try { body } catch (error) { handler }] *)
Definition try_catch {A} (body : M A) (handler : text → M A) : M A :=
  λ w, match body w with
       | (Ok a, w') => (Ok a, w')
       | (Throw e, w') => handler e w'
       end.

Definition console_error (msg : text) : M unit :=
  λ w, (Ok (), {| store := store w; console := console w ++ [msg] |}).

Definition digit36 (d : N) : N := if d <? 10 then 0x30 + d else 0x61 + (d - 10).

Fixpoint radix36 (fuel : nat) (n : N) (acc : text) : text :=
  match fuel with
  | O => acc
  | S fuel' =>
      let acc := digit36 (n mod 36) :: acc in
      if n / 36 =? 0 then acc else radix36 fuel' (n / 36) acc
  end.

(** [n.toString(36)] for a non-negative integer. *)
Definition toString36 (n : N) : text := radix36 (S (N.to_nat (N.log2 n))) n [].

(** The iterator of a string: its code points, a surrogate pair as one
    string of two units. *)
Fixpoint code_points (s : text) : list text :=
  match s with
  | [] => []
  | x :: s' =>
      match s' with
      | y :: s'' =>
          if (0xD800 <=? x) && (x <=? 0xDBFF) && (0xDC00 <=? y) && (y <=? 0xDFFF)
          then [x; y] :: code_points s''
          else [x] :: code_points s'
      | [] => [[x]]
      end
  end.

(** [result.id] *)
Definition item_id (x : item) : outcome (option text) :=
  match x with
  | Rec r => Ok (Some (id r))
  | Null => Throw u8"TypeError"
  | Str _ => Ok None
  | Other own_id _ => Ok own_id
  end.

(** [l.find(result => result.id === id)]: the callback runs on the
    elements in order, up to the first it accepts. *)
Fixpoint find_by_id (id0 : text) (l : list item) : outcome (option item) :=
  match l with
  | [] => Ok None
  | x :: l' =>
      i ← item_id x;
      if bool_decide (i = Some id0) then Ok (Some x) else find_by_id id0 l'
  end.

(** [l.filter(result => result.id !== id)]: the callback runs on every
    element. *)
Fixpoint filter_by_id (id0 : text) (l : list item) : outcome (list item) :=
  match l with
  | [] => Ok []
  | x :: l' =>
      i ← item_id x;
      rest ← filter_by_id id0 l';
      Ok (if bool_decide (i = Some id0) then rest else x :: rest)
  end.

(** [results.find(...)], [results.filter(...)] and [results.length] on a
    parsed value: null has no properties, and of the other values only
    an array has the two methods. *)
Definition js_find (id0 : text) (results : json_value) : M (option item) :=
  match results with
  | JArray l => pure (find_by_id id0 l)
  | JString _ | JOther _ => pure (Throw u8"TypeError")
  end.

Definition js_filter (id0 : text) (results : json_value) : M (list item) :=
  match results with
  | JArray l => pure (filter_by_id id0 l)
  | JString _ | JOther _ => pure (Throw u8"TypeError")
  end.

Definition js_length (results : json_value) : nat :=
  match results with
  | JArray l => length l
  | JString s => length s
  | JOther _ => 0
  end.

(** [...existingResults]: an array gives its elements, a string its code
    points; null, a boolean, a number and an object are not iterable. *)
Definition spread (existingResults : json_value) : M (list item) :=
  match existingResults with
  | JArray l => mret l
  | JString s => mret (Str <$> code_points s)
  | JOther _ => pure (Throw u8"TypeError")
  end.

Section Calls.
Variable env : Env.

Definition getItem : M (option stored_value) :=
  λ w, if getItem_throws env then (Throw u8"SecurityError", w) else (Ok (store w), w).

Definition setItem (v : stored_value) : M unit :=
  λ w, if setItem_throws env then (Throw u8"QuotaExceededError", w)
       else (Ok (), {| store := Some v; console := console w |}).

Definition removeItem : M unit :=
  λ w, if removeItem_throws env then (Throw u8"SecurityError", w)
       else (Ok (), {| store := None; console := console w |}).

Definition JSON_parse (v : stored_value) : M json_value :=
  match v with
  | Json j => mret j
  | Unparsable _ => pure (Throw u8"SyntaxError")
  end.

(** 一意のIDを生成する *)
Definition generateUniqueId : text := toString36 (id_now env) ++ random36 env.

(** 保存されたOCR結果の一覧を取得する *)
Definition getStoredOCRResults : M json_value :=
  try_catch
    (storedData ← getItem;
     match storedData with
     | None | Some (Unparsable []) => mret (JArray [])   (* if (!storedData) return [] *)
     | Some v => JSON_parse v
     end)
    (λ error, _ ← console_error u8"保存されたOCR結果の取得に失敗しました:";
              mret (JArray [])).

(** OCR結果をlocalStorageに保存する *)
Definition saveOCRResult (result : OCRResponse) (filename : text) : M StoredOCRResult :=
  existingResults ← getStoredOCRResults;
  let newResult := {| id := generateUniqueId; timestamp := timestamp_now env;
                      filename := filename; result := result |} in
  spreadResults ← spread existingResults;
  let updatedResults := Rec newResult :: spreadResults in
  let limitedResults := take 10 updatedResults in
  _ ← try_catch (setItem (Json (JArray limitedResults)))
        (λ error, console_error u8"OCR結果の保存に失敗しました:");
  mret newResult.

(** 特定のIDのOCR結果を取得する *)
Definition getStoredOCRResultById (id0 : text) : M (option item) :=
  results ← getStoredOCRResults;
  js_find id0 results.

(** 特定のIDのOCR結果を削除する *)
Definition deleteStoredOCRResult (id0 : text) : M bool :=
  try_catch
    (results ← getStoredOCRResults;
     filteredResults ← js_filter id0 results;
     if (js_length results =? length filteredResults)%nat then mret false
     else _ ← setItem (Json (JArray filteredResults)); mret true)
    (λ error, _ ← console_error u8"OCR結果の削除に失敗しました:"; mret false).

(** すべてのOCR結果を削除する *)
Definition clearAllStoredOCRResults : M bool :=
  try_catch (_ ← removeItem; mret true)
    (λ error, _ ← console_error u8"すべてのOCR結果の削除に失敗しました:"; mret false).

End Calls.

End StorageUtils.



(** ** Vocabulary of the specification

    The predicates the statements below are written with, and the sample
    inputs of their instances. *)

From Stdlib Require DecimalN.
Import DataExtractor.
Import ExcelGenerator.
Import StorageUtils.

(** *** Texts and matches *)

(** Texts of digits, of white space, of colons. *)
Definition all_digits (s : text) : Prop := Forall (λ x, is_digit x = true) s.

Definition all_spaces (s : text) : Prop := Forall (λ x, is_space x = true) s.

Definition all_colons (s : text) : Prop :=
  Forall (λ x, in_class colons x = true) s.

(** [s] does not go on with a unit of the class. *)
Definition stops (f : N → bool) (s : text) : Prop :=
  match s with
  | [] => True
  | x :: _ => f x = false
  end.

(** A repetition count [n] stays within the budget of a quantifier. *)
Definition within (budget : option nat) (n : nat) : Prop :=
  ∀ m, budget = Some m → (n ≤ m)%nat.

(** The continuation of a whole expression: the match is accepted. *)
Definition final : text → captures → option (text * captures) :=
  λ s c, Some (s, c).

(** What a labelled expression captures in a text: its first group, when
    the expression matches and the group is not empty.  For a section
    expression this is the text of the section. *)
Definition captured (allText : text) (re_section : regex) : option text :=
  truthy_group (js_match allText re_section) 1.

(** [post] starts with one of the terminators or is the end of the text. *)
Definition terminated_by (terminators : list text) (post : text) : Prop :=
  post = [] ∨ ∃ h post', h ∈ terminators ∧ post = h ++ post'.

(** No terminator occurs in [s] at an offset below [n]. *)
Definition free_before (terminators : list text) (s : text) (n : nat) : Prop :=
  ∀ h j, h ∈ terminators → (j < n)%nat → ¬ occurs_at h s j.

(** The decidable form of [free_before], for one terminator. *)
Fixpoint no_occurrence_before (h s : text) (n : nat) {struct n} : bool :=
  match n with
  | O => true
  | S n' =>
      negb (starts_with h s)
      && match s with
         | [] => true
         | _ :: s' => no_occurrence_before h s' n'
         end
  end.

(** *** The extractor *)

(** An OCR response of one page. *)
Definition single_page (s : text) : option OCRResponse :=
  Some {| pages := Some [{| index := 0; markdown := Some s |}] |}.

(** The record of a successful extraction. *)
Definition result_of (o : outcome ExtractedResumeData) : ExtractedResumeData :=
  match o with
  | Ok d => d
  | Throw _ => empty_data
  end.

(** A step frames a projection when it leaves it as it was. *)
Definition frames {X} (π : ExtractedResumeData → X)
    (step : ExtractedResumeData → ExtractedResumeData) : Prop :=
  ∀ d, π (step d) = π d.

(** The entries a section yields; [None] when the field stays unset. *)
Definition section_entries (allText : text) (re_section : regex)
    : option (list text) :=
  sectionText ← captured allText re_section;
  js_match_all sectionText re_entries.

(** The three list fields, read off the run. *)
Definition entries_of (raws : option (list text)) (field : option (list Entry))
    : Prop :=
  match raws with
  | Some raws =>
      ∃ l, field = Some l ∧ Forall2 (λ raw e, parse_entry raw = Ok e) raws l
  | None => field = None
  end.

(** An entry of a section: well-formed, or the fallback of a raw text the
    scan matched and the decomposition did not. *)
Definition well_formed_entry (e : Entry) : Prop :=
  year e ≠ [] ∧ all_digits (year e) ∧ month e ≠ [] ∧ all_digits (month e).

Definition fallback_entry (e : Entry) : Prop :=
  year e = [] ∧ month e = []
  ∧ ∃ raw, description e = trim raw
           ∧ js_match raw re_entryParts = None
           ∧ ∃ rest c, Matches re_entries raw rest ∅ c.

(** NNN-NNNN *)
Definition postal_code_shape (p : text) : Prop :=
  ∃ d3 d4, p = d3 ++ u8"-" ++ d4 ∧ length d3 = 3%nat ∧ length d4 = 4%nat
           ∧ all_digits d3 ∧ all_digits d4.

(** The alternation [h1|...|hn|$] that closes a section expression. *)
Definition terminator_alt (terminators : list text) : regex :=
  foldr (λ h r, RAlt (RChars h) r) REnd terminators.

(** /header\s*\n([\s\S]*?)(?:h1|...|hn|$)/ *)
Definition section_regex (header : text) (terminators : list text) : regex :=
  RChars header ∙ star spaces ∙ RChars [LF] ∙ RGroup 1 (lazy_star anything)
  ∙ terminator_alt terminators.

(** The text [c] is the section that follows the header in [t], ended by
    the nearest of the terminators or by the end of the text. *)
Definition section_bounds (t header : text) (terminators : list text)
    (c : text) : Prop :=
  ∃ pre sp post,
    t = pre ++ header ++ sp ++ [LF] ++ c ++ post
    ∧ all_spaces sp
    ∧ terminated_by terminators post
    ∧ free_before terminators (c ++ post) (length c).

(** Both entry expressions share their head; [tail] is the class of the
    third group. *)
Definition entry_regex (tail : cclass) : regex :=
  RGroup 1 (plus digits) ∙ star spaces ∙ RChars u8"年" ∙ star spaces
  ∙ RGroup 2 (plus digits) ∙ star spaces ∙ RChars u8"月" ∙ star spaces
  ∙ RGroup 3 (plus tail).

(** The line "YYYY年MM月 description". *)
Definition date_line (y m desc : text) : text :=
  y ++ u8"年" ++ m ++ u8"月" ++ [0x20] ++ desc.

(** Year and month are digits; the description starts with no white
    space and holds no line terminator. *)
Definition well_formed_line (y m desc : text) : Prop :=
  y ≠ [] ∧ all_digits y ∧ m ≠ [] ∧ all_digits m
  ∧ match desc with x :: _ => is_space x = false | [] => False end
  ∧ Forall (λ x, is_line_terminator x = false) desc.

(** The entry and the groups such a line yields. *)
Definition line_entry (y m desc : text) : Entry :=
  {| year := y; month := m; description := trim desc |}.

Definition line_captures (y m desc : text) : captures :=
  <[3%nat := desc]> (<[2%nat := m]> (<[1%nat := y]> ∅)).

(** A date, for the birth-date pattern: a non-empty text without line
    break or opening parenthesis. *)
Definition date_text (dt : text) : Prop :=
  dt ≠ [] ∧ Forall (λ x, in_class not_eol_paren x = true) dt.

(** [t] holds, after [pre], the label 生年月日, colons, white space and
    the date [dt], followed by [rest]. *)
Definition labelled_date (t pre dt rest : text) : Prop :=
  ∃ cs ws, t = pre ++ u8"生年月日" ++ cs ++ ws ++ dt ++ rest
           ∧ all_colons cs ∧ all_spaces ws ∧ date_text dt.

(** [s] is the annotation （満 N 歳 with the digits [ds] for N, followed
    by [rest]. *)
Definition age_annotation (ds s rest : text) : Prop :=
  ∃ p sp1 sp2 sp3,
    s = [p] ++ sp1 ++ u8"満" ++ sp2 ++ ds ++ sp3 ++ u8"歳" ++ rest
    ∧ in_class open_paren p = true
    ∧ all_spaces sp1 ∧ all_spaces sp2 ∧ all_spaces sp3
    ∧ ds ≠ [] ∧ all_digits ds.

(** A date that starts with neither colon nor white space, as a date
    written in digits does. *)
Definition date_start (dt : text) : Prop :=
  match dt with
  | x :: _ => in_class colons x = false ∧ is_space x = false
  | [] => False
  end.

(** *** Sample texts *)

(** A text in which the label occurs twice, the annotation after the
    second date only. *)
Definition two_birth_dates : text :=
  u8"生年月日：1990年5月3日" ++ [LF] ++ u8"生年月日：2000年1月1日（満5歳）".

(** An education section that the header 趣味 follows, not 職歴. *)
Definition education_then_hobbies : text :=
  u8"学歴" ++ [LF] ++ u8"2010年4月 A高校 入学" ++ [LF]
  ++ u8"趣味" ++ [LF] ++ u8"2013年3月 読書".

(** A text whose only education entry is followed by a line separator
    alone. *)
Definition line_separator_entry : text := u8"学歴" ++ [LF] ++ u8"2020年4月" ++ [LS].

(** The example of the specification: two dated lines, then 職歴. *)
Definition two_line_education : text :=
  u8"学歴" ++ [LF] ++ date_line u8"2010" u8"4" u8"A高校 入学" ++ [LF]
  ++ date_line u8"2013" u8"3" u8"A高校 卒業" ++ [LF]
  ++ u8"職歴" ++ [LF] ++ u8"2014年4月 B社 入社".

(** *** The template filler *)

(** The single-cell targets of the cell-mapping table. *)
Inductive scalar_field :=
| F_name | F_nameKana | F_birthDate | F_gender | F_addressKana | F_postalCode
| F_address | F_phoneNumber | F_email | F_healthCondition | F_hobbies
| F_nearestStation | F_dependents | F_hasSpouse | F_supportingSpouse.

Definition all_scalar_fields : list scalar_field :=
  [ F_name; F_nameKana; F_birthDate; F_gender; F_addressKana; F_postalCode;
    F_address; F_phoneNumber; F_email; F_healthCondition; F_hobbies;
    F_nearestStation; F_dependents; F_hasSpouse; F_supportingSpouse ].

Definition cell_of (f : scalar_field) : text :=
  match f with
  | F_name => u8"B3" | F_nameKana => u8"B2" | F_birthDate => u8"A5"
  | F_gender => u8"D2" | F_addressKana => u8"B6" | F_postalCode => u8"B7"
  | F_address => u8"A7" | F_phoneNumber => u8"F6" | F_email => u8"F7"
  | F_healthCondition => u8"I17" | F_hobbies => u8"I18"
  | F_nearestStation => u8"I19" | F_dependents => u8"L17"
  | F_hasSpouse => u8"L18" | F_supportingSpouse => u8"L19"
  end.

(** Column letter and row number of the single-cell targets. *)
Definition col_of (f : scalar_field) : N :=
  match f with
  | F_birthDate | F_address => 0x41
  | F_name | F_nameKana | F_addressKana | F_postalCode => 0x42
  | F_gender => 0x44
  | F_phoneNumber | F_email => 0x46
  | F_healthCondition | F_hobbies | F_nearestStation => 0x49
  | F_dependents | F_hasSpouse | F_supportingSpouse => 0x4C
  end.

Definition row_of (f : scalar_field) : N :=
  match f with
  | F_nameKana | F_gender => 2
  | F_name => 3
  | F_birthDate => 5
  | F_addressKana | F_phoneNumber => 6
  | F_postalCode | F_address | F_email => 7
  | F_healthCondition | F_dependents => 17
  | F_hobbies | F_hasSpouse => 18
  | F_nearestStation | F_supportingSpouse => 19
  end.

Definition is_some {X} (o : option X) : bool :=
  match o with Some _ => true | None => false end.

(** The field is given: a non-empty string, or a defined number or
    boolean. *)
Definition present (f : scalar_field) (r : ExtractedResumeData) : bool :=
  match f with
  | F_name => is_some (truthy_text (name r))
  | F_nameKana => is_some (truthy_text (nameKana r))
  | F_birthDate => is_some (truthy_text (birthDate r))
  | F_gender => is_some (truthy_text (gender r))
  | F_addressKana => is_some (truthy_text (addressKana r))
  | F_postalCode => is_some (truthy_text (postalCode r))
  | F_address => is_some (truthy_text (address r))
  | F_phoneNumber => is_some (truthy_text (phoneNumber r))
  | F_email => is_some (truthy_text (email r))
  | F_healthCondition => is_some (truthy_text (healthCondition r))
  | F_hobbies => is_some (truthy_text (hobbies r))
  | F_nearestStation => is_some (truthy_text (nearestStation r))
  | F_dependents => is_some (dependents r)
  | F_hasSpouse => is_some (hasSpouse r)
  | F_supportingSpouse => is_some (supportingSpouse r)
  end.

(** The field is absent from the record. *)
Definition absent (f : scalar_field) (r : ExtractedResumeData) : Prop :=
  match f with
  | F_name => name r = None
  | F_nameKana => nameKana r = None
  | F_birthDate => birthDate r = None
  | F_gender => gender r = None
  | F_addressKana => addressKana r = None
  | F_postalCode => postalCode r = None
  | F_address => address r = None
  | F_phoneNumber => phoneNumber r = None
  | F_email => email r = None
  | F_healthCondition => healthCondition r = None
  | F_hobbies => hobbies r = None
  | F_nearestStation => nearestStation r = None
  | F_dependents => dependents r = None
  | F_hasSpouse => hasSpouse r = None
  | F_supportingSpouse => supportingSpouse r = None
  end.

(** The cells of a repeated-row region: three columns, one row per entry
    from the start row on. *)
Definition region (c1 c2 c3 : text) (start : N) (o : option (list Entry))
    : list text :=
  match o with
  | Some l =>
      i ← seq 0 (length l);
      [cell c1 (start + N.of_nat i); cell c2 (start + N.of_nat i);
       cell c3 (start + N.of_nat i)]
  | None => []
  end.

(** The mapped targets of the fields a record gives. *)
Definition written_cells (r : ExtractedResumeData) : list text :=
  (f ← all_scalar_fields; if present f r then [cell_of f] else [])
  ++ region u8"A" u8"B" u8"C" 14 (educationHistory r)
  ++ region u8"A" u8"B" u8"C" 20 (workHistory r)
  ++ region u8"I" u8"J" u8"K" 14 (licenses r).

(** The license rows reach the cell of the field. *)
Definition overrun_by_licenses (f : scalar_field) (r : ExtractedResumeData)
    : Prop :=
  ∃ l, licenses r = Some l
       ∧ match f with
         | F_healthCondition => (3 < length l)%nat
         | F_hobbies => (4 < length l)%nat
         | F_nearestStation => (5 < length l)%nat
         | _ => False
         end.

(** A record of four licenses and nothing else, and a template that holds
    a default in I17. *)
Definition four_licenses : ExtractedResumeData :=
  set_licenses
    [ {| year := u8"2015"; month := u8"3"; description := u8"普通自動車免許" |};
      {| year := u8"2016"; month := u8"6"; description := u8"TOEIC 800" |};
      {| year := u8"2017"; month := u8"9"; description := u8"簿記2級" |};
      {| year := u8"2018"; month := u8"11"; description := u8"基本情報技術者" |} ]
    empty_data.

(** The same with three licenses. *)
Definition three_licenses : ExtractedResumeData :=
  set_licenses
    [ {| year := u8"2015"; month := u8"3"; description := u8"普通自動車免許" |};
      {| year := u8"2016"; month := u8"6"; description := u8"TOEIC 800" |};
      {| year := u8"2017"; month := u8"9"; description := u8"簿記2級" |} ]
    empty_data.

Definition template_I17 : worksheet := {[ u8"I17" := VString u8"良好" ]}.

(** *** The history store *)

(** The array the store holds; it has no element when the store holds
    nothing, a text that does not parse or a value that is no array. *)
Definition stored_list (w : World) : list item :=
  match store w with
  | Some (Json (JArray l)) => l
  | _ => []
  end.

(** The value a read returns: the empty array when the storage refuses
    the access or holds nothing that parses. *)
Definition read_value (env : Env) (w : World) : json_value :=
  if getItem_throws env then JArray []
  else match store w with
       | Some (Json v) => v
       | _ => JArray []
       end.

(** What spreading a value gives, when the value is iterable. *)
Definition spread_of (v : json_value) : option (list item) :=
  match v with
  | JArray l => Some l
  | JString s => Some (Str <$> code_points s)
  | JOther _ => None
  end.

(** The elements a save finds in the store. *)
Definition read_list (env : Env) (w : World) : list item :=
  default [] (spread_of (read_value env w)).

(** The property [id] of an element, when it is a string. *)
Definition own_id (x : item) : option text :=
  match x with
  | Rec r => Some (id r)
  | Other i _ => i
  | Null | Str _ => None
  end.

(** The time of an element, when it is a record. *)
Definition time_of (x : item) : option N :=
  match x with
  | Rec r => Some (timestamp r)
  | _ => None
  end.

(** The record saveOCRResult builds. *)
Definition new_record (env : Env) (result : OCRResponse) (filename : text)
    : StoredOCRResult :=
  {| id := generateUniqueId env; timestamp := timestamp_now env;
     filename := filename; result := result |}.

(** One call of saveOCRResult, with what the environment does during it. *)
Definition save_call (w : World) (call : Env * OCRResponse * text) : World :=
  let '(env, result, filename) := call in
  (saveOCRResult env result filename w).2.

(** A storage that refuses writes, and one that works. *)
Definition env_quota_exceeded : Env :=
  {| getItem_throws := false; setItem_throws := true; removeItem_throws := false;
     id_now := 1700000000000; timestamp_now := 1700000000000;
     random36 := u8"k3x9q" |}.

Definition env_ok : Env :=
  {| getItem_throws := false; setItem_throws := false; removeItem_throws := false;
     id_now := 1700000000000; timestamp_now := 1700000000000;
     random36 := u8"k3x9q" |}.

Definition empty_world : World := {| store := None; console := [] |}.

Definition some_result : OCRResponse :=
  {| pages := Some [{| index := 0; markdown := Some u8"氏名：山田太郎" |}] |}.

(** ** Callers of the history store *)

(** *** The history list ([src/app/components/OCRHistory.tsx]) *)

Module OCRHistory.

Section Handlers.
Variable env : Env.

(** [loadStoredResults]: the value read becomes the state
    [storedResults]. *)
Definition loadStoredResults : M json_value :=
  getStoredOCRResults env.


End Handlers.

End OCRHistory.

(** *** The result view ([src/unnamed/part_001], OcrResultView) *)

Module OcrResultView.

(** The prop [ocrResult]: an OCR response, the object
    [{ success: false, error }], or null. *)
Inductive view_result :=
| NoResult
| Failed (error : text)
| Response (r : OCRResponse).

(** The effect that saves a valid OCR result to the history
    (OCR結果が有効な場合、localStorageに保存). *)
Definition save_effect (env : Env) (ocrResult : view_result) (filename : text)
    : M unit :=
  match ocrResult with
  | Response r =>
      match pages r with
      | Some (_ :: _) => _ ← saveOCRResult env r filename; mret ()
      | _ => mret ()
      end
  | _ => mret ()
  end.

End OcrResultView.

(** ** Callers of the extractor and of the filler

    The calls of the two server actions are modelled as calls of the
    functions. *)

(** *** The export button ([src/app/components/ExportOptions.tsx]) *)

Module ExportOptions.

(** What generateResumeExcel does outside the sheet: reading Sheet1 of
    the template ([readFile] may throw, [getWorksheet] may find no
    sheet), and writing, uploading and removing the filled sheet, which
    gives the URL of the blob or throws. *)
Record Files := {
  template : outcome (option worksheet);
  publish : worksheet → outcome text
}.

(** generateResumeExcel as its caller sees it: the URL of the uploaded
    sheet. *)
Definition generateResumeExcel_url (files : Files)
    (resumeData : ExtractedResumeData) : outcome text :=
  sheet1 ← template files;
  ws ← generateResumeExcel resumeData sheet1;
  publish files ws.

(** The state of the component. *)
Record ExportState := {
  isExporting : bool;
  exportError : option text
}.

(** [handleExportToExcel]: the state when the handler has run, and the
    URL of the link that was clicked, if any. *)
Definition handleExportToExcel (files : Files) (ocrResult : option OCRResponse)
    (st : ExportState) : ExportState * option text :=
  match ocrResult with
  | None => (st, None)
  | Some _ =>
      match (resumeData ← extractResumeData ocrResult;
             generateResumeExcel_url files resumeData) with
      | Ok excelUrl =>
          ({| isExporting := false; exportError := None |}, Some excelUrl)
      | Throw message =>
          ({| isExporting := false; exportError := Some message |}, None)
      end
  end.

End ExportOptions.

(** *** The transfer form ([src/unnamed/part_000], DataTransfer) *)

Module DataTransfer.

(** [resumeData.f || ''] *)
Definition or_empty (o : option text) : text := default [] o.

(** [handleAutoExtract]: the state [transferFields], an object of nine
    string fields, when the handler has run, and what it logged. *)
Definition handleAutoExtract (ocrResult : option OCRResponse)
    (transferFields : gmap text text) : gmap text text * list text :=
  match ocrResult with
  | None => (transferFields, [])
  | Some _ =>
      match extractResumeData ocrResult with
      | Ok resumeData =>
          (list_to_map
             [ (u8"name", or_empty (name resumeData));
               (u8"nameKana", or_empty (nameKana resumeData));
               (u8"birthDate", or_empty (birthDate resumeData));
               (u8"gender", or_empty (gender resumeData));
               (u8"address", or_empty (address resumeData));
               (u8"addressKana", or_empty (addressKana resumeData));
               (u8"postalCode", or_empty (postalCode resumeData));
               (u8"phoneNumber", or_empty (phoneNumber resumeData));
               (u8"email", or_empty (email resumeData)) ],
           [])
      | Throw _ => (transferFields, [u8"自動抽出エラー:"])
      end
  end.

End DataTransfer.

(** *** The name of the output file
    ([src/app/action/excelGenerator.ts], 一時ファイルパスの生成) *)

Module OutputFile.

(** String.prototype.replace with a regular expression with the g flag
    and a constant replacement: every match is replaced, the search going
    on where the match ended (one unit further after an empty match).
    [skip] counts the units of the last match still to be stepped
    over. *)
Fixpoint replace_all (r : regex) (by_ : text) (skip : nat) (s : text) : text :=
  match skip with
  | S n => match s with
           | [] => []
           | _ :: t => replace_all r by_ n t
           end
  | O =>
      match match_here r s with
      | Some (s', _) =>
          by_ ++ match s with
                 | [] => []
                 | x :: t =>
                     match consumed s s' with
                     | [] => x :: replace_all r by_ 0 t
                     | _ :: w => replace_all r by_ (length w) t
                     end
                 end
      | None =>
          match s with
          | [] => []
          | x :: t => x :: replace_all r by_ 0 t
          end
      end
  end.

Definition js_replace_all (s : text) (r : regex) (by_ : text) : text :=
  replace_all r by_ 0 s.

(* /[:.]/g *)
Definition re_colon_or_dot : regex := RSet (OneOf (chars u8":.")).

(** [timestamp], for the text [iso] of [new Date().toISOString()]. *)
Definition timestamp_of (iso : text) : text :=
  js_replace_all iso re_colon_or_dot u8"-".

(** The base name of [outputPath]. *)
Definition outputName (iso : text) : text :=
  u8"resume_" ++ timestamp_of iso ++ u8".xlsx".

(** The name of the blob. *)
Definition blobName (iso : text) : text := u8"resumes/" ++ outputName iso.

End OutputFile.

(** *** The history store, continued *)

(** The messages of the store's [console.error] calls. *)
Definition msg_read : text := u8"保存されたOCR結果の取得に失敗しました:".
Definition msg_save : text := u8"OCR結果の保存に失敗しました:".
Definition msg_delete : text := u8"OCR結果の削除に失敗しました:".
Definition msg_clear : text := u8"すべてのOCR結果の削除に失敗しました:".

(** A read fails: the storage refuses the access, or holds a non-empty
    text that is not JSON. *)
Definition read_fails (env : Env) (w : World) : bool :=
  getItem_throws env
  || match store w with
     | Some (Unparsable (_ :: _)) => true
     | _ => false
     end.

(** The lines a call of the store adds to the console. *)
Definition read_log (env : Env) (w : World) : list text :=
  if read_fails env w then [msg_read] else [].

(** The filter of deleteStoredOCRResult. *)
Definition other_than (id0 : text) (x : item) : bool :=
  negb (bool_decide (own_id x = Some id0)).

(** The list holds an element with the id. *)
Definition holds_id (id0 : text) (l : list item) : Prop :=
  ∃ x, x ∈ l ∧ own_id x = Some id0.

(** The world after a read: what the read logged is added to the
    console. *)
Definition after_read (env : Env) (w : World) : World :=
  {| store := store w; console := console w ++ read_log env w |}.

(** The list is ordered by time, newest first. *)
Fixpoint newest_first (l : list StoredOCRResult) : Prop :=
  match l with
  | [] => True
  | r :: l' => (∀ r', r' ∈ l' → timestamp r' ≤ timestamp r) ∧ newest_first l'
  end.

(** The value of a text of base-36 digits, as [parseInt(s, 36)] reads it. *)
Definition undigit36 (c : N) : N :=
  if (0x30 <=? c) && (c <=? 0x39) then c - 0x30 else c - 0x61 + 10.

Fixpoint value36 (s : text) : N :=
  match s with
  | [] => 0
  | c :: s' => undigit36 c * 36 ^ N.of_nat (length s') + value36 s'
  end.

Definition is_base36 (c : N) : bool :=
  ((0x30 <=? c) && (c <=? 0x39)) || ((0x61 <=? c) && (c <=? 0x7A)).

(** A history of two records. *)
Definition record_x1 : StoredOCRResult :=
  {| id := u8"x1"; timestamp := 2; filename := u8"b.pdf"; result := some_result |}.

Definition record_x0 : StoredOCRResult :=
  {| id := u8"x0"; timestamp := 1; filename := u8"a.pdf"; result := some_result |}.

Definition two_records : World :=
  {| store := Some (Json (JArray [Rec record_x1; Rec record_x0])); console := [] |}.

(** A store that holds the JSON text of null, and one whose array holds
    null before a record. *)
Definition null_stored : World :=
  {| store := Some (Json (JOther u8"null")); console := [] |}.

Definition null_before_record : World :=
  {| store := Some (Json (JArray [Null; Rec record_x1])); console := [] |}.

(** *** Labelled fields of the extractor *)

(** /label[：:]*\s*(c+)/ for a class c: the shape of most scalar
    expressions. *)
Definition labelled (label : text) (cl : cclass) : regex :=
  RChars label ∙ star colons ∙ star spaces ∙ RGroup 1 (plus cl).

(** [t] holds, after [pre], the label, colons, white space and the
    non-empty text [g] of units of the class, followed by [rest]. *)
Definition labelled_text (label : text) (cl : cclass) (t pre g rest : text)
    : Prop :=
  ∃ cs ws, t = pre ++ label ++ cs ++ ws ++ g ++ rest
           ∧ all_colons cs ∧ all_spaces ws
           ∧ g ≠ [] ∧ Forall (λ x, in_class cl x = true) g.

(** A value that starts with neither colon nor white space. *)
Definition plain_start (g : text) : Prop :=
  match g with
  | x :: _ => in_class colons x = false ∧ is_space x = false
  | [] => False
  end.

(** The text [l] occurs nowhere in [t]. *)
Definition nowhere (l t : text) : Prop := ∀ j, ¬ occurs_at l t j.

(** [s] holds the text [p]. *)
Definition holds (s p : text) : Prop := ∃ u v, s = u ++ p ++ v.

(** The fields that take the rest of the line after their label. *)
Inductive line_field :=
| L_name | L_nameKana | L_healthCondition | L_hobbies | L_nearestStation.

Definition line_label (f : line_field) : text :=
  match f with
  | L_name => u8"氏名"
  | L_nameKana => u8"ふりがな"
  | L_healthCondition => u8"健康状態"
  | L_hobbies => u8"趣味・特技"
  | L_nearestStation => u8"最寄り駅"
  end.

Definition line_value (f : line_field) (d : ExtractedResumeData) : option text :=
  match f with
  | L_name => name d
  | L_nameKana => nameKana d
  | L_healthCondition => healthCondition d
  | L_hobbies => hobbies d
  | L_nearestStation => nearestStation d
  end.

(** The classes the expressions of the source write in line. *)
Definition phone_class : cclass := OneOf [Range 0x30 0x39; Ch 0x2D].   (* [0-9\-] *)
Definition spouse_class : cclass := OneOf (chars u8"あり|なし").         (* [あり|なし] *)
Definition gender_class : cclass := OneOf (chars u8"男女").              (* [男女] *)

(** The two fields on the spouse. *)
Inductive spouse_field := S_hasSpouse | S_supportingSpouse.

Definition spouse_label (f : spouse_field) : text :=
  match f with
  | S_hasSpouse => u8"配偶者の有無"
  | S_supportingSpouse => u8"配偶者の扶養義務"
  end.

Definition spouse_value (f : spouse_field) (d : ExtractedResumeData) : option bool :=
  match f with
  | S_hasSpouse => hasSpouse d
  | S_supportingSpouse => supportingSpouse d
  end.



(** [t] holds, after [pre], the label E-mail (with a hyphen, a white
    space or nothing after the E), colons, white space and the address
    [a]@[b], neither part empty or with white space in it. *)
Definition email_text (t pre a b rest : text) : Prop :=
  ∃ o cs ws,
    t = pre ++ u8"E" ++ o ++ u8"mail" ++ cs ++ ws ++ a ++ u8"@" ++ b ++ rest
    ∧ (o = [] ∨ o = u8"-" ∨ ∃ x, o = [x] ∧ is_space x = true)
    ∧ all_colons cs ∧ all_spaces ws ∧ a ≠ [] ∧ b ≠ []
    ∧ Forall (λ x, is_space x = false) a ∧ Forall (λ x, is_space x = false) b.

(** A page whose text is missing, empty or white space only. *)
Definition blank_page (p : OCRPage) : Prop := all_spaces (default [] (markdown p)).

(** *** The template filler, cell by cell *)

(** The text written to A5 for a birth date [v] and an age. *)
Definition birthDate_cell (v : text) (a : option number) : text :=
  match js_match v re_birthDateParts with
  | Some m =>
      group_text m 1 ++ u8"年 " ++ group_text m 2 ++ u8"月 "
      ++ group_text m 3 ++ u8"日生 （ 満 " ++ age_or_empty a ++ u8"歳 ）"
  | None => v
  end.

(** What the filler writes to the cell of a field the record gives;
    [None] when the field is not given. *)
Definition written_value (f : scalar_field) (r : ExtractedResumeData)
    : option CellValue :=
  match f with
  | F_name => VString <$> truthy_text (name r)
  | F_nameKana => VString <$> truthy_text (nameKana r)
  | F_birthDate =>
      (λ v, VString (birthDate_cell v (age r))) <$> truthy_text (birthDate r)
  | F_gender => VString <$> truthy_text (gender r)
  | F_addressKana => VString <$> truthy_text (addressKana r)
  | F_postalCode => (λ v, VString (u8"〒 " ++ v)) <$> truthy_text (postalCode r)
  | F_address =>
      (λ v, VString (js_replace v re_postalPrefix [])) <$> truthy_text (address r)
  | F_phoneNumber => VString <$> truthy_text (phoneNumber r)
  | F_email => VString <$> truthy_text (email r)
  | F_healthCondition => VString <$> truthy_text (healthCondition r)
  | F_hobbies => VString <$> truthy_text (hobbies r)
  | F_nearestStation => VString <$> truthy_text (nearestStation r)
  | F_dependents => VNumber <$> dependents r
  | F_hasSpouse => yes_no <$> hasSpouse r
  | F_supportingSpouse => yes_no <$> supportingSpouse r
  end.

(** The step of the filler that belongs to a single-cell field. *)
Definition scalar_step (r : ExtractedResumeData) (f : scalar_field)
    : worksheet → worksheet :=
  match f with
  | F_name => fill_name r
  | F_nameKana => fill_nameKana r
  | F_birthDate => fill_birthDate r
  | F_gender => fill_gender r
  | F_addressKana => fill_addressKana r
  | F_postalCode => fill_postalCode r
  | F_address => fill_address r
  | F_phoneNumber => fill_phoneNumber r
  | F_email => fill_email r
  | F_healthCondition => fill_healthCondition r
  | F_hobbies => fill_hobbies r
  | F_nearestStation => fill_nearestStation r
  | F_dependents => fill_dependents r
  | F_hasSpouse => fill_hasSpouse r
  | F_supportingSpouse => fill_supportingSpouse r
  end.

(** The single-cell fields written before and after the repeated rows. *)
Definition early_fields : list scalar_field :=
  [ F_name; F_nameKana; F_birthDate; F_gender; F_addressKana; F_postalCode;
    F_address; F_phoneNumber; F_email ].

Definition late_fields : list scalar_field :=
  [ F_healthCondition; F_hobbies; F_nearestStation; F_dependents; F_hasSpouse;
    F_supportingSpouse ].

(** The three cells of a row hold the entry. *)
Definition row_holds (ws : worksheet) (c1 c2 c3 : text) (rowIndex : N)
    (e : Entry) : Prop :=
  ws !! cell c1 rowIndex = Some (VString (year e))
  ∧ ws !! cell c2 rowIndex = Some (VString (month e))
  ∧ ws !! cell c3 rowIndex = Some (VString (description e)).

(** *** The list fields of the extractor *)

(** The texts [ws] stand in [s] in this order, one after the other
    without overlap. *)
Inductive in_order : text → list text → Prop :=
| in_order_nil s : in_order s []
| in_order_cons pre w s ws :
    in_order s ws → in_order (pre ++ w ++ s) (w :: ws).

Inductive list_field := LF_educationHistory | LF_workHistory | LF_licenses.

Definition list_section (f : list_field) : regex :=
  match f with
  | LF_educationHistory => re_educationSection
  | LF_workHistory => re_workSection
  | LF_licenses => re_licenseSection
  end.

Definition list_value (f : list_field) (d : ExtractedResumeData)
    : option (list Entry) :=
  match f with
  | LF_educationHistory => educationHistory d
  | LF_workHistory => workHistory d
  | LF_licenses => licenses d
  end.

(** A dated line stands somewhere in [sec]. *)
Definition holds_entry (sec : text) : Prop :=
  ∃ pre w rest c, sec = pre ++ w ++ rest ∧ Matches re_entries w rest ∅ c.

(** * Properties *)

(** ** Texts *)

Section TextFacts.
Implicit Types s p r w : text.

Example utf16_label : u8"氏名" = [0x6C0F; 0x540D].
Proof. reflexivity. Qed.

Example utf16_ascii_mix :
  u8"E-mail：" = [0x45; 0x2D; 0x6D; 0x61; 0x69; 0x6C; 0xFF1A].
Proof. reflexivity. Qed.

Lemma strip_prefix_spec p s r : strip_prefix p s = Some r ↔ s = p ++ r.
Proof.
  revert s. induction p as [|a p IH]; intros s; simpl.
  - split; [intros [= ->] | intros ->]; reflexivity.
  - destruct s as [|b s]; [split; discriminate|].
    destruct (N.eqb_spec a b) as [->|Hne].
    + rewrite IH. split; [intros ->; reflexivity | intros [= ->]; reflexivity].
    + split; [discriminate | intros [= ? ?]; congruence].
Qed.

Lemma strip_prefix_app p r : strip_prefix p (p ++ r) = Some r.
Proof. apply strip_prefix_spec. reflexivity. Qed.

Lemma starts_with_spec p s : starts_with p s = true ↔ ∃ r, s = p ++ r.
Proof.
  unfold starts_with. destruct (strip_prefix p s) as [r|] eqn:E.
  - apply strip_prefix_spec in E. split; eauto.
  - split; [discriminate|]. intros [r Hr].
    apply strip_prefix_spec in Hr. congruence.
Qed.

Lemma consumed_app w s : consumed (w ++ s) s = w.
Proof.
  unfold consumed. rewrite length_app.
  replace (length w + length s - length s)%nat with (length w) by lia.
  apply take_app_length.
Qed.

Lemma drop_while_spec (f : N → bool) s :
  ∃ w, s = w ++ drop_while f s ∧ Forall (λ x, f x = true) w
       ∧ match drop_while f s with x :: _ => f x = false | [] => True end.
Proof.
  induction s as [|x s (w & Hs & Hw & Hhd)]; simpl.
  - exists []. auto.
  - destruct (f x) eqn:Hx.
    + exists (x :: w). split; [simpl; congruence|]. split; [constructor|]; auto.
    + exists []. rewrite Hx. auto.
Qed.

Lemma drop_while_stop (f : N → bool) x s :
  f x = false → drop_while f (x :: s) = x :: s.
Proof. intros H. simpl. rewrite H. reflexivity. Qed.

End TextFacts.

(** ** The matcher *)

Section MatcherFacts.
Context {A : Type}.
Implicit Types (s w : text) (k : text → option A) (f : N → bool).

Lemma rep_exact_sound f n s s1 :
  rep_exact f n s = Some s1 →
  ∃ w, s = w ++ s1 ∧ length w = n ∧ Forall (λ x, f x = true) w.
Proof.
  revert s. induction n as [|n IH]; intros s; simpl.
  - intros [= ->]. exists []. auto.
  - destruct s as [|x s]; [discriminate|].
    destruct (f x) eqn:Hx; [|discriminate].
    intros (w & -> & <- & Hw)%IH. exists (x :: w). auto.
Qed.

Lemma rep_exact_app f w s :
  Forall (λ x, f x = true) w → rep_exact f (length w) (w ++ s) = Some s.
Proof. induction 1 as [|x w Hx _ IH]; simpl; [|rewrite Hx]; auto. Qed.

Lemma within_spend budget n :
  may_repeat budget = true → within (spend budget) n → within budget (S n).
Proof.
  intros Hm Hw m ->. destruct m as [|m]; [discriminate|].
  specialize (Hw m eq_refl). lia.
Qed.

Lemma within_0 budget : within budget 0.
Proof. intros m _. lia. Qed.

(** A greedy repetition hands to its continuation what remains after
    some units of the class. *)
Lemma rep_greedy_sound f budget s k a :
  rep_greedy f budget s k = Some a →
  ∃ w s', s = w ++ s' ∧ Forall (λ x, f x = true) w
          ∧ within budget (length w) ∧ k s' = Some a.
Proof.
  revert budget. induction s as [|x s IH]; intros budget; simpl.
  - intros Hk. exists [], []. auto using within_0.
  - destruct (f x && may_repeat budget) eqn:Hc.
    + apply andb_prop in Hc as [Hx Hm].
      destruct (rep_greedy f (spend budget) s k) as [a'|] eqn:Hr.
      * intros [= ->]. apply IH in Hr as (w & s' & -> & Hw & Hb & Hk).
        exists (x :: w), s'. split; [reflexivity|].
        split; [constructor; assumption|]. split; [|assumption].
        apply within_spend; assumption.
      * intros Hk. exists [], (x :: s). auto using within_0.
    + intros Hk. exists [], (x :: s). auto using within_0.
Qed.

(** A lazy repetition moreover stops at the first offset at which its
    continuation succeeds. *)
Lemma rep_lazy_sound f budget s k a :
  rep_lazy f budget s k = Some a →
  ∃ w s', s = w ++ s' ∧ Forall (λ x, f x = true) w
          ∧ within budget (length w) ∧ k s' = Some a
          ∧ ∀ j, (j < length w)%nat → k (drop j s) = None.
Proof.
  revert budget. induction s as [|x s IH]; intros budget; simpl.
  - destruct (k []) eqn:Hk; [|discriminate]. intros [= ->].
    exists [], []. repeat split; auto using within_0. simpl; lia.
  - destruct (k (x :: s)) as [a'|] eqn:Hk.
    + intros [= ->]. exists [], (x :: s).
      repeat split; auto using within_0. simpl; lia.
    + destruct (f x && may_repeat budget) eqn:Hc; [|discriminate].
      apply andb_prop in Hc as [Hx Hm].
      intros (w & s' & -> & Hw & Hb & Hk' & Hmin)%IH.
      exists (x :: w), s'. split; [reflexivity|].
      split; [constructor; assumption|].
      split; [apply within_spend; assumption|]. split; [assumption|].
      intros [|j] Hj; simpl in *; [assumption | apply Hmin; lia].
Qed.

Lemma rep_sound greedy min max f s k a :
  rep greedy min max f s k = Some a →
  ∃ w s', s = w ++ s' ∧ Forall (λ x, f x = true) w
          ∧ (min ≤ length w)%nat
          ∧ (∀ m, max = Some m → (length w ≤ Nat.max min m)%nat)
          ∧ k s' = Some a.
Proof.
  unfold rep. destruct (rep_exact f min s) as [s1|] eqn:He; [|discriminate].
  apply rep_exact_sound in He as (w1 & -> & Hlen & Hw1).
  intros H.
  assert (∃ w s', s1 = w ++ s' ∧ Forall (λ x, f x = true) w
            ∧ within ((λ m, (m - min)%nat) <$> max) (length w)
            ∧ k s' = Some a) as (w & s' & -> & Hw & Hb & Hk).
  { destruct greedy.
    - apply rep_greedy_sound in H. exact H.
    - apply rep_lazy_sound in H as (w & s' & ? & ? & ? & ? & _). eauto 6. }
  exists (w1 ++ w), s'. rewrite <- (assoc_L (++)). split; [reflexivity|].
  split; [apply Forall_app; auto|]. rewrite length_app.
  split; [lia|]. split; [|assumption].
  intros m ->. specialize (Hb (m - min)%nat eq_refl). lia.
Qed.

(** Soundness of the matcher: a successful run decomposes the input into
    a matched text and a rest on which the continuation succeeded. *)
Lemma run_sound r : ∀ s c (k : text → captures → option A) a,
  run r s c k = Some a →
  ∃ w rest c', s = w ++ rest ∧ Matches r w rest c c' ∧ k rest c' = Some a.
Proof.
  induction r as [|l|cl|r1 IH1 r2 IH2|r1 IH1 r2 IH2|g mn mx cl|i r IH|];
    intros s c k a; simpl.
  - intros Hk. exists [], s, c. split; [reflexivity|]. split; [constructor|assumption].
  - destruct (strip_prefix l s) as [s'|] eqn:E; [|discriminate].
    apply strip_prefix_spec in E as ->. intros Hk.
    exists l, s', c. split; [reflexivity|]. split; [constructor|assumption].
  - destruct s as [|x s]; [discriminate|].
    destruct (in_class cl x) eqn:Hx; [|discriminate]. intros Hk.
    exists [x], s, c. split; [reflexivity|]. split; [constructor|]; assumption.
  - intros (w1 & s1 & c1 & -> & M1 & H2)%IH1.
    apply IH2 in H2 as (w2 & rest & c2 & -> & M2 & Hk).
    exists (w1 ++ w2), rest, c2. rewrite <- (assoc_L (++)).
    split; [reflexivity|]. split; [econstructor; eassumption|assumption].
  - destruct (run r1 s c k) as [a'|] eqn:E1.
    + intros [= ->]. apply IH1 in E1 as (w & rest & c' & -> & M1 & Hk).
      exists w, rest, c'. split; [reflexivity|]. split; [apply M_alt_l|]; assumption.
    + intros (w & rest & c' & -> & M2 & Hk)%IH2.
      exists w, rest, c'. split; [reflexivity|]. split; [apply M_alt_r|]; assumption.
  - intros (w & s' & -> & Hw & Hmin & Hmax & Hk)%rep_sound.
    exists w, s', c. split; [reflexivity|]. split; [constructor|]; assumption.
  - intros (w & rest & c' & -> & M1 & Hk)%IH.
    rewrite consumed_app in Hk.
    exists w, rest, (<[i := w]> c'). split; [reflexivity|].
    split; [constructor|]; assumption.
  - destruct s; [|discriminate]. intros Hk.
    exists [], [], c. split; [reflexivity|]. split; [constructor|assumption].
Qed.

End MatcherFacts.

Section SearchFacts.
Implicit Types (s w : text) (r : regex).

Lemma match_here_sound r s s' c :
  match_here r s = Some (s', c) →
  s = consumed s s' ++ s' ∧ Matches r (consumed s s') s' ∅ c.
Proof.
  unfold match_here. intros (w & rest & c' & -> & M & [= -> ->])%run_sound.
  rewrite consumed_app. auto.
Qed.

(** A successful search splits the text around the match. *)
Lemma search_from_sound r : ∀ s i m,
  search_from r i s = Some m →
  ∃ pre, s = pre ++ m_whole m ++ m_rest m
         ∧ m_index m = (i + length pre)%nat
         ∧ Matches r (m_whole m) (m_rest m) ∅ (m_groups m).
Proof.
  induction s as [|x s IH]; intros i m; simpl.
  - destruct (match_here r []) as [[s' c]|] eqn:E; [|discriminate].
    intros [= <-]. simpl. apply match_here_sound in E as [Hs M].
    exists []. simpl. split; [assumption|]. split; [lia | assumption].
  - destruct (match_here r (x :: s)) as [[s' c]|] eqn:E.
    + intros [= <-]. simpl. apply match_here_sound in E as [Hs M].
      exists []. split; [assumption|]. split; [simpl; lia | assumption].
    + intros (pre & -> & Hi & M)%IH. exists (x :: pre).
      split; [reflexivity|]. split; [simpl; lia | assumption].
Qed.

Lemma js_match_sound s r m :
  js_match s r = Some m →
  ∃ pre, s = pre ++ m_whole m ++ m_rest m ∧ m_index m = length pre
         ∧ Matches r (m_whole m) (m_rest m) ∅ (m_groups m).
Proof. intros (pre & ? & ? & ?)%search_from_sound. eauto. Qed.

(** Every text a global match returns is matched by the expression, in
    the place of the scanned text where it stands. *)
Lemma scan_all_sound r : ∀ s skip w,
  w ∈ scan_all r skip s →
  ∃ pre rest c, s = pre ++ w ++ rest ∧ Matches r w rest ∅ c.
Proof.
  induction s as [|x s IH]; intros skip w.
  - destruct skip; simpl; [|intros []%elem_of_nil].
    destruct (match_here r []) as [[s' c]|] eqn:E; [|intros []%elem_of_nil].
    intros ->%list_elem_of_singleton.
    apply match_here_sound in E as [Hs M]. exists [], s', c. auto.
  - destruct skip as [|n]; simpl.
    + destruct (match_here r (x :: s)) as [[s' c]|] eqn:E.
      * intros [->|Hin]%elem_of_cons.
        -- apply match_here_sound in E as [Hs M]. exists [], s', c. auto.
        -- apply IH in Hin as (pre & rest & c' & -> & M).
           exists (x :: pre), rest, c'. auto.
      * intros (pre & rest & c' & -> & M)%IH. exists (x :: pre), rest, c'. auto.
    + intros (pre & rest & c' & -> & M)%IH. exists (x :: pre), rest, c'. auto.
Qed.

End SearchFacts.

(** ** Evaluating the matcher on texts of a known shape *)

Section Evaluation.
Context {A : Type}.
Implicit Types (s w : text) (f : N → bool).

(** A greedy repetition that can take all of [w] and no more answers what
    its continuation answers there, when that is a success. *)
Lemma rep_greedy_max f w s (k : text → option A) a :
  Forall (λ x, f x = true) w → stops f s → k s = Some a →
  rep_greedy f None (w ++ s) k = Some a.
Proof.
  intros Hw Hs Hk. induction Hw as [|x w Hx _ IH]; simpl.
  - destruct s as [|x s]; simpl; [exact Hk|]. simpl in Hs. rewrite Hs. exact Hk.
  - rewrite Hx. simpl. rewrite IH. reflexivity.
Qed.

(** When the continuation always succeeds, the repetition is maximal. *)
Lemma rep_greedy_total f s (k : text → option A) :
  (∀ s', is_Some (k s')) →
  rep_greedy f None s k = k (drop_while f s).
Proof.
  intros Hk. induction s as [|x s IH]; simpl; [reflexivity|].
  destruct (f x); simpl; [|reflexivity]. rewrite IH.
  destruct (Hk (drop_while f s)) as [a ->]. reflexivity.
Qed.

Lemma rep_lazy_first f w s (k : text → option A) a :
  Forall (λ x, f x = true) w →
  (∀ j, (j < length w)%nat → k (drop j (w ++ s)) = None) →
  k s = Some a →
  rep_lazy f None (w ++ s) k = Some a.
Proof.
  intros Hw. induction Hw as [|x w Hx _ IH]; intros Hn Hk.
  - simpl. destruct s; simpl; rewrite Hk; reflexivity.
  - pose proof (Hn 0%nat ltac:(simpl; lia)) as H0. simpl in H0.
    simpl. rewrite H0, Hx. simpl.
    apply IH; [|exact Hk]. intros j Hj. apply (Hn (S j)). simpl. lia.
Qed.

Lemma run_chars_app l s c (k : text → captures → option A) :
  run (RChars l) (l ++ s) c k = k s c.
Proof. simpl. rewrite strip_prefix_app. reflexivity. Qed.

Lemma run_star_max cl w s c (k : text → captures → option A) a :
  Forall (λ x, in_class cl x = true) w → stops (in_class cl) s →
  k s c = Some a →
  run (star cl) (w ++ s) c k = Some a.
Proof. intros. unfold star. simpl. unfold rep. simpl. apply rep_greedy_max; auto. Qed.

Lemma run_star_zero cl s c (k : text → captures → option A) :
  stops (in_class cl) s → run (star cl) s c k = k s c.
Proof.
  intros Hs. unfold star. simpl. unfold rep. simpl.
  destruct s as [|x s]; simpl; [reflexivity|]. simpl in Hs. rewrite Hs.
  reflexivity.
Qed.

Lemma run_plus_max cl x w s c (k : text → captures → option A) a :
  Forall (λ x, in_class cl x = true) (x :: w) → stops (in_class cl) s →
  k s c = Some a →
  run (plus cl) (x :: w ++ s) c k = Some a.
Proof.
  intros [Hx Hw]%Forall_cons Hs Hk. unfold plus. simpl. unfold rep. simpl.
  rewrite Hx. apply rep_greedy_max; auto.
Qed.

Lemma run_plus_total cl s c (k : text → captures → option A) :
  (∀ s' c', is_Some (k s' c')) →
  run (plus cl) s c k
  = match s with
    | x :: s' => if in_class cl x then k (drop_while (in_class cl) s') c else None
    | [] => None
    end.
Proof.
  intros Hk. unfold plus. simpl. unfold rep. simpl.
  destruct s as [|x s]; [reflexivity|]. destruct (in_class cl x); [|reflexivity].
  apply rep_greedy_total. intros s'. apply Hk.
Qed.

End Evaluation.

(** The search passes over a prefix in which the expression matches at no
    offset. *)
Lemma search_from_skip r (pre s : text) i :
  (∀ j, (j < length pre)%nat → match_here r (drop j (pre ++ s)) = None) →
  search_from r i (pre ++ s) = search_from r (i + length pre) s.
Proof.
  revert i. induction pre as [|x pre IH]; intros i Hn.
  - simpl. rewrite Nat.add_0_r. reflexivity.
  - pose proof (Hn 0%nat ltac:(simpl; lia)) as H0. simpl in H0.
    cbn [app length search_from]. rewrite H0, IH.
    + rewrite Nat.add_succ_r. reflexivity.
    + intros j Hj. apply (Hn (S j)). simpl. lia.
Qed.

Lemma match_here_chars_None l r (s : text) :
  ¬ occurs_at l s 0 → match_here (RChars l ∙ r) s = None.
Proof.
  intros Hn. unfold match_here. simpl.
  destruct (strip_prefix l s) as [s'|] eqn:E; [|reflexivity].
  exfalso. apply Hn. exists s'. rewrite drop_0.
  apply strip_prefix_spec, E.
Qed.

(** The search finds the match that starts where the label first occurs,
    when the expression matches there. *)
Lemma js_match_first l r (pre s s' : text) c :
  free_before [l] (pre ++ s) (length pre) →
  match_here (RChars l ∙ r) s = Some (s', c) →
  js_match (pre ++ s) (RChars l ∙ r)
  = Some {| m_index := length pre; m_whole := consumed s s';
            m_groups := c; m_rest := s' |}.
Proof.
  intros Hfree Hm. unfold js_match. rewrite search_from_skip.
  - destruct s; simpl; rewrite Hm; reflexivity.
  - intros j Hj. apply match_here_chars_None.
    intros [post Hp]. rewrite drop_0 in Hp.
    apply (Hfree l j); [left|exact Hj|]. exists post. exact Hp.
Qed.

(** *** Completeness of the matcher *)

Section Completeness.
Context {A : Type}.
Implicit Types (s w : text) (f : N → bool).

Lemma rep_greedy_complete f budget w s (k : text → option A) :
  Forall (λ x, f x = true) w → within budget (length w) →
  is_Some (k s) → is_Some (rep_greedy f budget (w ++ s) k).
Proof.
  intros Hw. revert budget. induction Hw as [|x w Hx _ IH]; intros budget Hb Hk.
  - simpl. destruct s as [|x s]; [exact Hk|]. simpl.
    destruct (f x && may_repeat budget); [|exact Hk].
    destruct (rep_greedy f (spend budget) s k); [eauto|exact Hk].
  - simpl. rewrite Hx. simpl.
    assert (may_repeat budget = true) as ->.
    { destruct budget as [[|m]|]; try reflexivity.
      specialize (Hb 0%nat eq_refl). simpl in Hb. lia. }
    destruct (IH (spend budget)) as [a ->]; [|exact Hk|eauto].
    intros m Hm. destruct budget as [b|]; [|discriminate]. simpl in Hm.
    injection Hm as <-. specialize (Hb b eq_refl). simpl in Hb. lia.
Qed.

Lemma rep_lazy_complete f budget w s (k : text → option A) :
  Forall (λ x, f x = true) w → within budget (length w) →
  is_Some (k s) → is_Some (rep_lazy f budget (w ++ s) k).
Proof.
  intros Hw. revert budget. induction Hw as [|x w Hx _ IH]; intros budget Hb Hk.
  - simpl. destruct Hk as [a Hk]. destruct s; simpl; rewrite Hk; eauto.
  - simpl. destruct (k (x :: w ++ s)); [eauto|]. rewrite Hx. simpl.
    assert (may_repeat budget = true) as ->.
    { destruct budget as [[|m]|]; try reflexivity.
      specialize (Hb 0%nat eq_refl). simpl in Hb. lia. }
    apply IH; [|exact Hk].
    intros m Hm. destruct budget as [b|]; [|discriminate]. simpl in Hm.
    injection Hm as <-. specialize (Hb b eq_refl). simpl in Hb. lia.
Qed.

Lemma rep_complete greedy min max f w s (k : text → option A) :
  Forall (λ x, f x = true) w → (min ≤ length w)%nat →
  (∀ m, max = Some m → (length w ≤ Nat.max min m)%nat) →
  is_Some (k s) → is_Some (rep greedy min max f (w ++ s) k).
Proof.
  intros Hw Hmin Hmax Hk. unfold rep.
  rewrite <- (take_drop min w) in Hw |- *. apply Forall_app in Hw as [Hw1 Hw2].
  rewrite <- (assoc_L (++)).
  replace min with (length (take min w)) at 1 by (rewrite length_take; lia).
  rewrite rep_exact_app by exact Hw1.
  assert (within ((λ m, (m - min)%nat) <$> max) (length (drop min w))) as Hb.
  { intros m Hm. destruct max as [mx|]; [|discriminate]. simpl in Hm.
    injection Hm as <-. specialize (Hmax mx eq_refl).
    rewrite length_drop. lia. }
  destruct greedy; [apply rep_greedy_complete | apply rep_lazy_complete]; auto.
Qed.

End Completeness.

(** Whenever an expression matches a prefix of the input and the
    continuation accepts what that match leaves, the matcher succeeds
    (on this match or on one it tries before). *)
Lemma run_complete {A} r w rest c c' :
  Matches r w rest c c' →
  ∀ c0 (k : text → captures → option A),
    (∀ c'', is_Some (k rest c'')) → is_Some (run r (w ++ rest) c0 k).
Proof.
  induction 1 as [rest c|l rest c|cl x rest c Hx
                 |r1 r2 w1 w2 rest c c1 c2 _ IH1 _ IH2
                 |r1 r2 w rest c c' _ IH|r1 r2 w rest c c' _ IH
                 |g mn mx cl w rest c Hw Hmin Hmax|i r w rest c c' _ IH|c];
    intros c0 k Hk.
  - apply Hk.
  - rewrite run_chars_app. apply Hk.
  - simpl. rewrite Hx. apply Hk.
  - simpl. rewrite <- (assoc_L (++)). apply IH1. intros c''. apply IH2, Hk.
  - simpl. destruct (IH c0 k Hk) as [a ->]. eauto.
  - simpl. destruct (run r1 (w ++ rest) c0 k); [eauto|]. apply IH, Hk.
  - simpl. apply rep_complete; auto.
  - simpl. apply IH. intros c''. apply Hk.
  - simpl. apply Hk.
Qed.

(** An expression that matches somewhere in a text is found by the
    search. *)
Lemma js_match_complete r (pre w rest : text) c c' :
  Matches r w rest c c' → is_Some (js_match (pre ++ w ++ rest) r).
Proof.
  intros M. unfold js_match. generalize 0%nat.
  induction pre as [|x pre IH]; intros i.
  - assert (is_Some (match_here r (w ++ rest))) as [[s' c1] E].
    { apply (run_complete _ _ _ _ _ M). intros c''. eauto. }
    simpl. destruct (w ++ rest); simpl; rewrite E; eauto.
  - simpl. destruct (match_here r (x :: pre ++ w ++ rest)) as [[s' c1]|]; eauto.
Qed.


(** ** Numbers *)

(** An integer of at most 53 bits is a double. *)
Lemma round53_small (z : Z) : (z < 2 ^ 53)%Z → round53 z = z.
Proof.
  intros Hz. unfold round53.
  assert (Z.log2 z - 52 <= 0)%Z as He.
  { destruct (Z.le_gt_cases z 0) as [H0|H0].
    - rewrite Z.log2_nonpos by exact H0. lia.
    - apply Z.log2_lt_pow2 in Hz; [lia|exact H0]. }
  apply Z.leb_le in He. cbv zeta. rewrite He. reflexivity.
Qed.

(** Beyond, rounding keeps 53 bits: the result is a multiple of 2^e at
    most half of 2^e away, where z has 53 + e bits. *)
Lemma round53_near (z : Z) :
  (2 ^ 53 <= z)%Z →
  let e := (Z.log2 z - 52)%Z in
  (0 < e)%Z
  ∧ (∃ q, round53 z = q * 2 ^ e ∧ 2 ^ 52 <= q <= 2 ^ 53)%Z
  ∧ (2 * Z.abs (round53 z - z) <= 2 ^ e)%Z.
Proof.
  intros Hz e.
  assert (0 < z)%Z as H0 by (pose proof (Z.pow_pos_nonneg 2 53); lia).
  assert (53 <= Z.log2 z)%Z as Hl by (apply Z.log2_le_pow2; lia).
  assert (0 < e)%Z as He by (unfold e; lia).
  split; [exact He|].
  unfold round53. fold e.
  destruct (e <=? 0)%Z eqn:E; [apply Z.leb_le in E; lia|]. clear E.
  cbv zeta.
  set (P := (2 ^ e)%Z). set (h := (2 ^ (e - 1))%Z).
  assert (0 < h)%Z as Hh by (apply Z.pow_pos_nonneg; lia).
  assert (P = 2 * h)%Z as HP.
  { unfold P, h. replace e with (Z.succ (e - 1)) at 1 by lia.
    apply Z.pow_succ_r. lia. }
  pose proof (Z.div_mod z P ltac:(lia)) as Hdm.
  pose proof (Z.mod_pos_bound z P ltac:(lia)) as Hr.
  set (q := (z / P)%Z) in *. set (r := (z mod P)%Z) in *.
  destruct (Z.log2_spec z H0) as [Hlo Hhi].
  assert (2 ^ Z.log2 z = 2 ^ 52 * P)%Z as Hpow.
  { unfold P. rewrite <- Z.pow_add_r by lia. f_equal. unfold e. lia. }
  assert (2 ^ Z.succ (Z.log2 z) = 2 ^ 53 * P)%Z as Hpow'.
  { unfold P. rewrite <- Z.pow_add_r by lia. f_equal. unfold e. lia. }
  assert (0 < 2 ^ 52)%Z as H52 by (apply Z.pow_pos_nonneg; lia).
  assert (2 ^ 53 = 2 * 2 ^ 52)%Z as H53 by (apply (Z.pow_succ_r 2 52); lia).
  assert (2 ^ 52 <= q < 2 ^ 53)%Z as Hq by nia.
  destruct ((h <? r)%Z || ((r =? h)%Z && Z.odd q)) eqn:Eup.
  - assert (h <= r)%Z as Hge.
    { apply orb_true_iff in Eup as [H|H].
      - apply Z.ltb_lt in H. lia.
      - apply andb_true_iff in H as [H _]. apply Z.eqb_eq in H. lia. }
    split; [exists (q + 1)%Z; split; [reflexivity|lia]|].
    rewrite Z.abs_eq by nia. nia.
  - assert (r <= h)%Z as Hle.
    { apply orb_false_iff in Eup as [H _]. apply Z.ltb_ge in H. exact H. }
    split; [exists q; split; [reflexivity|lia]|].
    rewrite Z.abs_neq by nia. nia.
Qed.

Lemma round53_big (z : Z) : (2 ^ 53 <= z)%Z → (2 ^ 53 <= round53 z)%Z.
Proof.
  intros Hz. destruct (round53_near z Hz) as (He & (q & -> & Hq) & _).
  assert (2 ^ 1 <= 2 ^ (Z.log2 z - 52))%Z as Hp
    by (apply Z.pow_le_mono_r; lia).
  assert (2 ^ 53 = 2 ^ 52 * 2 ^ 1)%Z as -> by (rewrite <- Z.pow_add_r by lia; reflexivity).
  assert (0 < 2 ^ 52)%Z by (apply Z.pow_pos_nonneg; lia).
  nia.
Qed.

Lemma pow53_bounds : (2 ^ 53 < 10 ^ 21 ∧ 2 ^ 53 < 2 ^ 1024)%Z.
Proof. split; [reflexivity|]. apply Z.pow_lt_mono_r; lia. Qed.

(** The Number value for an integer below 2^53 is the integer. *)
Lemma number_value_small (z : Z) : (z < 2 ^ 53)%Z → number_value z = Num z.
Proof.
  intros Hz. unfold number_value, signed_value.
  rewrite round53_small by exact Hz.
  cbv zeta. destruct (2 ^ 1024 <=? z)%Z eqn:E; [|reflexivity].
  apply Z.leb_le in E. pose proof pow53_bounds. lia.
Qed.

(** The Number value for an integer from 2^53 on is an integer from 2^53
    on, or Infinity: never NaN. *)
Lemma number_value_big (z : Z) :
  (2 ^ 53 <= z)%Z →
  number_value z = Infinity false
  ∨ ∃ v, number_value z = Num v ∧ (2 ^ 53 <= v)%Z.
Proof.
  intros Hz. unfold number_value, signed_value. cbv zeta.
  destruct (2 ^ 1024 <=? round53 z)%Z; [left; reflexivity|right].
  eexists. split; [reflexivity|]. apply round53_big, Hz.
Qed.


(** Only an integer below 2^53 itself has such an integer as its Number
    value. *)
Lemma rounds_to_small (x c : Z) :
  (x < 2 ^ 53)%Z → rounds_to x c = true → c = x.
Proof.
  intros Hx. unfold rounds_to.
  destruct (Z.lt_ge_cases c (2 ^ 53)) as [Hs|Hb].
  - rewrite number_value_small by exact Hs. intros H%Z.eqb_eq. exact H.
  - destruct (number_value_big c Hb) as [->|(v & -> & Hv)]; [discriminate|].
    intros H%Z.eqb_eq. lia.
Qed.

Lemma shortest_from_small (x p : Z) (fuel : nat) :
  (x < 2 ^ 53)%Z → shortest_from x p fuel = x.
Proof.
  intros Hx. revert p. induction fuel as [|fuel IH]; intros p; [reflexivity|].
  cbn [shortest_from]. cbv zeta.
  destruct (rounds_to x (x / p * p)) eqn:Elo;
    destruct (rounds_to x (x / p * p + p)) eqn:Ehi;
    try apply (rounds_to_small x _ Hx) in Elo;
    try apply (rounds_to_small x _ Hx) in Ehi.
  - repeat match goal with
           | |- context [if ?b then _ else _] => destruct b
           end; assumption.
  - exact Elo.
  - exact Ehi.
  - apply IH.
Qed.

(** An integer below 2^53 is printed with all its digits. *)
Lemma magnitude_text_small (z : Z) :
  (z < 2 ^ 53)%Z → magnitude_text z = N_text (Z.to_N z).
Proof.
  intros Hz. unfold magnitude_text, shortest.
  rewrite shortest_from_small by exact Hz. cbv zeta.
  destruct (z <? 10 ^ 21)%Z eqn:E; [reflexivity|].
  apply Z.ltb_ge in E. pose proof pow53_bounds. lia.
Qed.

Lemma number_text_small (z : Z) :
  (0 <= z < 2 ^ 53)%Z → number_text (Num z) = N_text (Z.to_N z).
Proof.
  intros [H0 Hz]. unfold number_text.
  destruct (z <? 0)%Z eqn:E; [apply Z.ltb_lt in E; lia|].
  apply magnitude_text_small, Hz.
Qed.



(** ** The extractor *)


(** Inversion of [Matches] along the syntax of the expression. *)
Ltac invert_matches :=
  repeat match goal with
  | H : Matches (RSeq _ _) _ _ _ _ |- _ => inversion H; clear H; subst
  | H : Matches (RGroup _ _) _ _ _ _ |- _ => inversion H; clear H; subst
  | H : Matches (RChars _) _ _ _ _ |- _ => inversion H; clear H; subst
  | H : Matches (RSet _) _ _ _ _ |- _ => inversion H; clear H; subst
  | H : Matches (RRep _ _ _ _) _ _ _ _ |- _ => inversion H; clear H; subst
  | H : Matches (RAlt _ _) _ _ _ _ |- _ => inversion H; clear H; subst
  | H : Matches REnd _ _ _ _ |- _ => inversion H; clear H; subst
  | H : Matches REps _ _ _ _ |- _ => inversion H; clear H; subst
  end.

Lemma in_digits x : in_class digits x = is_digit x.
Proof. simpl. apply orb_false_r. Qed.

Lemma nonempty_length (w : text) : (1 ≤ length w)%nat → w ≠ [].
Proof. destruct w; simpl; [lia | discriminate]. Qed.

(** What the groups of the decomposition pattern hold when it matches. *)
Lemma entryParts_groups w rest c :
  Matches re_entryParts w rest ∅ c →
  ∃ y m d, c !! 1%nat = Some y ∧ c !! 2%nat = Some m ∧ c !! 3%nat = Some d
           ∧ y ≠ [] ∧ all_digits y ∧ m ≠ [] ∧ all_digits m ∧ d ≠ [].
Proof.
  unfold re_entryParts, plus, star. intros M. invert_matches.
  eexists _, _, _.
  split; [simplify_map_eq; reflexivity|].
  split; [simplify_map_eq; reflexivity|].
  split; [simplify_map_eq; reflexivity|].
  repeat split; try (apply nonempty_length; assumption);
    (eapply Forall_impl; [eassumption|]); intros x Hx;
    rewrite <- in_digits; exact Hx.
Qed.

(** The callback of [entries.map] never throws: a successful
    decomposition defines its three groups. *)
Lemma parse_entry_cases entry :
  (∃ parts y m d,
      js_match entry re_entryParts = Some parts
      ∧ group parts 1 = Some y ∧ group parts 2 = Some m ∧ group parts 3 = Some d
      ∧ y ≠ [] ∧ all_digits y ∧ m ≠ [] ∧ all_digits m
      ∧ parse_entry entry = Ok {| year := y; month := m; description := trim d |})
  ∨ (js_match entry re_entryParts = None
     ∧ parse_entry entry
       = Ok {| year := []; month := []; description := trim entry |}).
Proof.
  unfold parse_entry.
  destruct (js_match entry re_entryParts) as [parts|] eqn:E; [left | right; auto].
  apply js_match_sound in E as (pre & _ & _ & M).
  apply entryParts_groups in M as (y & m & d & H1 & H2 & H3 & ? & ? & ? & ? & _).
  exists parts, y, m, d. simpl. rewrite H1, H2, H3. simpl. auto 10.
Qed.

Lemma parse_entry_total entry : ∃ e, parse_entry entry = Ok e.
Proof.
  destruct (parse_entry_cases entry) as [(? & ? & ? & ? & H)|[_ H]]; [|eauto].
  destruct H as (_ & _ & _ & _ & _ & _ & _ & _ & H). eauto.
Qed.

Lemma mapM_parse_entry_total entries :
  ∃ l, mapM parse_entry entries = Ok l ∧ Forall2 (λ raw e, parse_entry raw = Ok e) entries l.
Proof.
  induction entries as [|raw entries (l & IH & HF)]; simpl.
  - exists []. split; [reflexivity | constructor].
  - destruct (parse_entry_total raw) as [e He]. exists (e :: l).
    rewrite He. simpl. rewrite IH. simpl. split; [reflexivity|].
    constructor; assumption.
Qed.

Lemma step_section_spec allText re_section assign d :
  match section_entries allText re_section with
  | Some raws =>
      ∃ l, step_section allText re_section assign d = Ok (assign l d)
           ∧ Forall2 (λ raw e, parse_entry raw = Ok e) raws l
  | None => step_section allText re_section assign d = Ok d
  end.
Proof.
  unfold section_entries, captured, step_section.
  destruct (truthy_group (js_match allText re_section) 1) as [sectionText|];
    simpl; [|reflexivity].
  destruct (js_match_all sectionText re_entries) as [raws|]; [|reflexivity].
  destruct (mapM_parse_entry_total raws) as (l0 & -> & HF). eauto.
Qed.

Lemma frames_when_group {X} (π : ExtractedResumeData → X) m i body :
  (∀ g, frames π (body g)) → frames π (when_group m i body).
Proof.
  intros H d. unfold when_group. destruct (truthy_group m i); [apply H | reflexivity].
Qed.

Lemma frames_compose {X} (π : ExtractedResumeData → X) f g :
  frames π f → frames π g → frames π (λ d, f (g d)).
Proof. intros Hf Hg d. rewrite Hf. apply Hg. Qed.

Lemma frames_section {X} (π : ExtractedResumeData → X) allText re assign d d' :
  step_section allText re assign d = Ok d' →
  (∀ l, frames π (assign l)) → π d' = π d.
Proof.
  intros H Hf. pose proof (step_section_spec allText re assign d) as S.
  destruct (section_entries allText re) as [raws|].
  - destruct S as (l0 & E & _). rewrite E in H. injection H as <-. apply Hf.
  - rewrite S in H. injection H as <-. reflexivity.
Qed.

(** Proves [frames π step] for a step that does not assign [π]. *)
Ltac frame :=
  intros;
  lazymatch goal with
  | |- frames _ _ =>
      let d := fresh "d" in
      intros d;
      unfold step_name, step_nameKana, step_birthDate, step_gender,
        step_address, step_phoneNumber, step_email, step_healthCondition,
        step_hobbies, step_nearestStation, step_dependents, step_hasSpouse,
        step_supportingSpouse, when_group;
      repeat case_match; reflexivity
  end.

(** The run of the extractor on a text, step by step. *)
Lemma extractFields_inv allText d :
  extractFields allText = Ok d →
  ∃ d1 d2 d3,
    step_educationHistory allText (contact_steps allText empty_data) = Ok d1
    ∧ step_workHistory allText d1 = Ok d2
    ∧ step_licenses allText d2 = Ok d3
    ∧ d = other_steps allText d3.
Proof.
  unfold extractFields.
  destruct (step_educationHistory _ _) as [d1|] eqn:E1; simpl; [|discriminate].
  destruct (step_workHistory _ d1) as [d2|] eqn:E2; simpl; [|discriminate].
  destruct (step_licenses _ d2) as [d3|] eqn:E3; simpl; [|discriminate].
  intros [= <-]. eauto 10.
Qed.

Lemma extractFields_total allText : ∃ d, extractFields allText = Ok d.
Proof.
  unfold extractFields, step_educationHistory, step_workHistory, step_licenses.
  set (d0 := contact_steps allText empty_data).
  assert (∀ re assign d, ∃ d', step_section allText re assign d = Ok d') as T.
  { intros re assign d. pose proof (step_section_spec allText re assign d) as S.
    destruct (section_entries allText re) as [raws|];
      [destruct S as (l & -> & _)|]; eauto. }
  destruct (T re_educationSection set_educationHistory d0) as [d1 ->]. simpl.
  destruct (T re_workSection set_workHistory d1) as [d2 ->]. simpl.
  destruct (T re_licenseSection set_licenses d2) as [d3 ->]. simpl. eauto.
Qed.

Lemma extractResumeData_inv o d :
  extractResumeData o = Ok d →
  ∃ r p ps, o = Some r ∧ pages r = Some (p :: ps)
            ∧ extractFields (allText_of (p :: ps)) = Ok d.
Proof.
  unfold extractResumeData. destruct o as [r|]; [|discriminate].
  destruct (pages r) as [[|p ps]|] eqn:E; try discriminate. eauto 10.
Qed.

Lemma frames_contact_steps {X} (π : ExtractedResumeData → X) allText :
  frames π (step_name allText) → frames π (step_nameKana allText) →
  frames π (step_birthDate allText) → frames π (step_gender allText) →
  frames π (step_address allText) → frames π (step_phoneNumber allText) →
  frames π (step_email allText) → frames π (contact_steps allText).
Proof.
  intros. unfold contact_steps. intros d.
  repeat match goal with H : frames π _ |- _ => rewrite H; clear H end.
  reflexivity.
Qed.

Lemma frames_other_steps {X} (π : ExtractedResumeData → X) allText :
  frames π (step_healthCondition allText) → frames π (step_hobbies allText) →
  frames π (step_nearestStation allText) → frames π (step_dependents allText) →
  frames π (step_hasSpouse allText) → frames π (step_supportingSpouse allText) →
  frames π (other_steps allText).
Proof.
  intros. unfold other_steps. intros d.
  repeat match goal with H : frames π _ |- _ => rewrite H; clear H end.
  reflexivity.
Qed.

(** A field no step assigns is absent from the result. *)
Ltac absent_field π H :=
  let d1 := fresh "d" in let d2 := fresh "d" in let d3 := fresh "d" in
  let E1 := fresh "E" in let E2 := fresh "E" in let E3 := fresh "E" in
  apply extractFields_inv in H as (d1 & d2 & d3 & E1 & E2 & E3 & ->);
  rewrite (frames_other_steps π) by frame;
  rewrite (frames_section π _ _ _ _ _ E3) by frame;
  rewrite (frames_section π _ _ _ _ _ E2) by frame;
  rewrite (frames_section π _ _ _ _ _ E1) by frame;
  rewrite (frames_contact_steps π) by frame;
  reflexivity.

Lemma step_section_entries allText re assign d d' π :
  (∀ l d, π (assign l d) = Some l) →
  π d = None →
  step_section allText re assign d = Ok d' →
  entries_of (section_entries allText re) (π d').
Proof.
  intros Hset Hnone H. pose proof (step_section_spec allText re assign d) as S.
  unfold entries_of. destruct (section_entries allText re) as [raws|].
  - destruct S as (l0 & E & HF). rewrite E in H. injection H as <-.
    exists l0. auto.
  - rewrite S in H. injection H as <-. assumption.
Qed.

Lemma educationHistory_spec allText d :
  extractFields allText = Ok d →
  entries_of (section_entries allText re_educationSection) (educationHistory d).
Proof.
  intros (d1 & d2 & d3 & E1 & E2 & E3 & ->)%extractFields_inv.
  rewrite frames_other_steps by frame.
  rewrite (frames_section educationHistory _ _ _ _ _ E3) by frame.
  rewrite (frames_section educationHistory _ _ _ _ _ E2) by frame.
  eapply step_section_entries; [| |exact E1]; [reflexivity|].
  rewrite frames_contact_steps by frame. reflexivity.
Qed.

Lemma workHistory_spec allText d :
  extractFields allText = Ok d →
  entries_of (section_entries allText re_workSection) (workHistory d).
Proof.
  intros (d1 & d2 & d3 & E1 & E2 & E3 & ->)%extractFields_inv.
  rewrite frames_other_steps by frame.
  rewrite (frames_section workHistory _ _ _ _ _ E3) by frame.
  eapply step_section_entries; [| |exact E2]; [reflexivity|].
  rewrite (frames_section workHistory _ _ _ _ _ E1) by frame.
  rewrite frames_contact_steps by frame. reflexivity.
Qed.

Lemma licenses_spec allText d :
  extractFields allText = Ok d →
  entries_of (section_entries allText re_licenseSection) (licenses d).
Proof.
  intros (d1 & d2 & d3 & E1 & E2 & E3 & ->)%extractFields_inv.
  rewrite frames_other_steps by frame.
  eapply step_section_entries; [| |exact E3]; [reflexivity|].
  rewrite (frames_section licenses _ _ _ _ _ E2) by frame.
  rewrite (frames_section licenses _ _ _ _ _ E1) by frame.
  rewrite frames_contact_steps by frame. reflexivity.
Qed.

Lemma section_entry_shape allText re field e l :
  entries_of (section_entries allText re) field →
  field = Some l → e ∈ l →
  well_formed_entry e ∨ fallback_entry e.
Proof.
  unfold entries_of, section_entries.
  destruct (captured allText re) as [sectionText|]; simpl;
    [|intros -> [=]].
  destruct (js_match_all sectionText re_entries) as [raws|] eqn:EA;
    [|intros -> [=]].
  intros (l0 & -> & HF) [= <-] Hin.
  apply list_elem_of_lookup in Hin as [i Hi].
  destruct (Forall2_lookup_r _ _ _ _ _ HF Hi) as (raw & Hraw & Hp).
  destruct (parse_entry_cases raw)
    as [(parts & y & m & dd & _ & _ & _ & _ & ? & ? & ? & ? & E)|[Hnone E]];
    rewrite E in Hp; injection Hp as <-.
  - left. repeat split; assumption.
  - right. repeat split. exists raw. repeat split; [assumption|].
    assert (raw ∈ scan_all re_entries 0 sectionText) as Hscan.
    { unfold js_match_all in EA.
      destruct (scan_all re_entries 0 sectionText); [discriminate|].
      injection EA as <-. eapply list_elem_of_lookup_2; eassumption. }
    apply scan_all_sound in Hscan as (_ & rest & c & _ & M). eauto.
Qed.

(** C1.  extractResumeData raises its error exactly when the OCR result is
    missing or has no (or an empty) page list; with at least one page it
    returns a record, whatever the pages contain. *)
Theorem C1_raises_iff_no_pages (ocrResult : option OCRResponse) :
  (extractResumeData ocrResult = Throw u8"有効なOCR結果がありません"
   ↔ ocrResult = None
     ∨ ∃ r, ocrResult = Some r ∧ (pages r = None ∨ pages r = Some []))
  ∧ ((∃ r p ps, ocrResult = Some r ∧ pages r = Some (p :: ps))
     ↔ ∃ d, extractResumeData ocrResult = Ok d).
Proof.
  split; [split|split].
  - unfold extractResumeData. destruct ocrResult as [r|]; [|auto].
    destruct (pages r) as [[|p ps]|] eqn:E; intros H; right; eauto.
    destruct (extractFields_total (allText_of (p :: ps))) as [d Hd].
    congruence.
  - intros [->|(r & -> & [E|E])]; unfold extractResumeData; [|rewrite E..];
      reflexivity.
  - intros (r & p & ps & -> & E). unfold extractResumeData. rewrite E.
    apply extractFields_total.
  - intros [d (r & p & ps & ? & ? & _)%extractResumeData_inv]. eauto.
Qed.

(** C9.  The fields alternativeAddress, alternativeAddressKana and
    alternativePhoneNumber of a returned record are always absent: no step
    of the extraction assigns them. *)
Theorem C9_alternative_fields_absent (ocrResult : option OCRResponse)
    (d : ExtractedResumeData) :
  extractResumeData ocrResult = Ok d →
  alternativeAddress d = None
  ∧ alternativeAddressKana d = None
  ∧ alternativePhoneNumber d = None.
Proof.
  intros (r & p & ps & _ & _ & H)%extractResumeData_inv.
  repeat split.
  - pose proof H as H'. absent_field alternativeAddress H'.
  - pose proof H as H'. absent_field alternativeAddressKana H'.
  - absent_field alternativePhoneNumber H.
Qed.


(** Steps over which a projection is framed are peeled off. *)
Ltac peel π :=
  repeat match goal with
  | |- context [π (?st ?t ?d)] =>
      rewrite (ltac:(frame) : frames π (st t))
  end.

Ltac scalar_field π H :=
  let d1 := fresh "d" in let d2 := fresh "d" in let d3 := fresh "d" in
  let E1 := fresh "E" in let E2 := fresh "E" in let E3 := fresh "E" in
  apply extractFields_inv in H as (d1 & d2 & d3 & E1 & E2 & E3 & ->);
  rewrite (frames_other_steps π) by frame;
  rewrite (frames_section π _ _ _ _ _ E3) by frame;
  rewrite (frames_section π _ _ _ _ _ E2) by frame;
  rewrite (frames_section π _ _ _ _ _ E1) by frame;
  unfold contact_steps; peel π.

Lemma address_spec allText d :
  extractFields allText = Ok d →
  address d = trim <$> captured allText re_address.
Proof.
  intros H. scalar_field address H.
  unfold step_address, when_group, captured.
  destruct (truthy_group (js_match allText re_address) 1) as [g|]; simpl.
  - destruct (truthy_group (js_match g re_postalCode) 1); reflexivity.
  - peel address. reflexivity.
Qed.

Lemma postalCode_spec allText d :
  extractFields allText = Ok d →
  postalCode d = (g ← captured allText re_address; captured g re_postalCode).
Proof.
  intros H. scalar_field postalCode H.
  unfold step_address, when_group, captured.
  destruct (truthy_group (js_match allText re_address) 1) as [g|]; simpl.
  - destruct (truthy_group (js_match g re_postalCode) 1); simpl; [reflexivity|].
    peel postalCode. reflexivity.
  - peel postalCode. reflexivity.
Qed.

Lemma birthDate_spec allText d :
  extractFields allText = Ok d →
  birthDate d = trim <$> captured allText re_birthDate.
Proof.
  intros H. scalar_field birthDate H.
  unfold step_birthDate, when_group, captured.
  destruct (truthy_group (js_match allText re_birthDate) 1) as [g|]; simpl.
  - destruct (truthy_group (js_match allText re_age) 1); reflexivity.
  - peel birthDate. reflexivity.
Qed.

Lemma age_spec allText d :
  extractFields allText = Ok d →
  age d = (_ ← captured allText re_birthDate;
           parseInt10 <$> captured allText re_age).
Proof.
  intros H. scalar_field age H.
  unfold step_birthDate, when_group, captured.
  destruct (truthy_group (js_match allText re_birthDate) 1) as [g|]; simpl.
  - destruct (truthy_group (js_match allText re_age) 1); simpl; [reflexivity|].
    peel age. reflexivity.
  - peel age. reflexivity.
Qed.


(** *** Trimming keeps what lies between two units that are not white space *)

Lemma drop_while_keeps (f : N → bool) (pre : text) a (s : text) :
  f a = false → ∃ pre', drop_while f (pre ++ a :: s) = pre' ++ a :: s.
Proof.
  intros Ha. induction pre as [|x pre [pre' IH]]; simpl.
  - exists []. rewrite Ha. reflexivity.
  - destruct (f x); [eauto|]. exists (x :: pre). reflexivity.
Qed.

Lemma trimEnd_keeps (s : text) b (post : text) :
  is_space b = false → ∃ post', trimEnd (s ++ b :: post) = s ++ b :: post'.
Proof.
  intros Hb. unfold trimEnd. rewrite reverse_app, reverse_cons, <- (assoc_L (++)).
  destruct (drop_while_keeps is_space (reverse post) b (reverse s) Hb) as [pre' E].
  simpl. rewrite E, reverse_app, reverse_cons, reverse_involutive.
  exists (reverse pre'). rewrite <- (assoc_L (++)). reflexivity.
Qed.

Lemma trim_keeps (pre : text) a (mid : text) b (post : text) :
  is_space a = false → is_space b = false →
  ∃ pre' post',
    trim (pre ++ a :: mid ++ b :: post) = pre' ++ a :: mid ++ b :: post'.
Proof.
  intros Ha Hb. unfold trim, trimStart.
  destruct (drop_while_keeps is_space pre a (mid ++ b :: post) Ha) as [pre' ->].
  destruct (trimEnd_keeps (pre' ++ a :: mid) b post Hb) as [post' E].
  exists pre', post'. rewrite <- !(assoc_L (++)) in E. exact E.
Qed.

Lemma digit_not_space x : is_digit x = true → is_space x = false.
Proof.
  unfold is_digit. intros [H1%N.leb_le H2%N.leb_le]%andb_prop.
  assert (x = 48 ∨ x = 49 ∨ x = 50 ∨ x = 51 ∨ x = 52 ∨ x = 53 ∨ x = 54
          ∨ x = 55 ∨ x = 56 ∨ x = 57) as Hx by lia.
  repeat destruct Hx as [->|Hx]; try subst x; reflexivity.
Qed.

(** *** The postal code *)

Lemma in_spaces x : in_class spaces x = is_space x.
Proof. simpl. apply orb_false_r. Qed.

Lemma Forall_digits (w : text) :
  Forall (λ x, in_class digits x = true) w → all_digits w.
Proof.
  intros H. eapply Forall_impl; [exact H|].
  intros x Hx. rewrite <- in_digits. exact Hx.
Qed.

Lemma Forall_spaces (w : text) :
  Forall (λ x, in_class spaces x = true) w → all_spaces w.
Proof.
  intros H. eapply Forall_impl; [exact H|].
  intros x Hx. rewrite <- in_spaces. exact Hx.
Qed.

Lemma postalCode_groups w rest c :
  Matches re_postalCode w rest ∅ c →
  ∃ sp p, w = u8"〒" ++ sp ++ p ∧ c !! 1%nat = Some p
          ∧ all_spaces sp ∧ postal_code_shape p.
Proof.
  unfold re_postalCode, times, star. intros M. invert_matches.
  eexists _, _. split; [reflexivity|].
  split; [simplify_map_eq; reflexivity|].
  split; [apply Forall_spaces; assumption|].
  eexists _, _. split; [reflexivity|].
  repeat match goal with
  | H : ∀ m, Some ?n = Some m → _ |- _ => specialize (H n eq_refl); simpl in H
  end.
  repeat split; try lia; apply Forall_digits; assumption.
Qed.

Lemma captured_sound s re g :
  captured s re = Some g →
  ∃ m pre, js_match s re = Some m ∧ group m 1 = Some g ∧ g ≠ []
           ∧ s = pre ++ m_whole m ++ m_rest m
           ∧ Matches re (m_whole m) (m_rest m) ∅ (m_groups m).
Proof.
  unfold captured, truthy_group.
  destruct (js_match s re) as [m|] eqn:E; [|discriminate].
  destruct (group m 1) as [[|x g']|] eqn:G; try discriminate.
  intros [= <-]. apply js_match_sound in E as E'. destruct E' as (pre & Hs & _ & M).
  exists m, pre. auto.
Qed.

(** C6.  A postal code is set only together with the address: it is what
    the postal pattern (the mark 〒, white space, NNN-NNNN) captures inside
    the captured address text, not in the whole text, and the stored
    address, the trimmed capture, still holds the mark and the code. *)
Theorem C6_postalCode_nested_in_address (ps : list OCRPage)
    (d : ExtractedResumeData) :
  extractResumeData (Some {| pages := Some ps |}) = Ok d →
  let t := allText_of ps in
  address d = trim <$> captured t re_address
  ∧ postalCode d = (g ← captured t re_address; captured g re_postalCode)
  ∧ ∀ p, postalCode d = Some p →
      ∃ g sp,
        captured t re_address = Some g
        ∧ captured g re_postalCode = Some p
        ∧ address d = Some (trim g)
        ∧ postal_code_shape p ∧ all_spaces sp
        ∧ (∃ pre post, g = pre ++ u8"〒" ++ sp ++ p ++ post)
        ∧ (∃ pre post, trim g = pre ++ u8"〒" ++ sp ++ p ++ post).
Proof.
  intros (r & p0 & ps' & [= <-] & [= ->] & H)%extractResumeData_inv t.
  fold t in H.
  pose proof (address_spec _ _ H) as Ha.
  pose proof (postalCode_spec _ _ H) as Hpc.
  split; [exact Ha|]. split; [exact Hpc|]. intros p Hp. rewrite Hp in Hpc.
  destruct (captured t re_address) as [g|] eqn:Eg; [|discriminate].
  simpl in Hpc, Ha. symmetry in Hpc.
  destruct (captured_sound _ _ _ Hpc) as (m & pre & _ & G & _ & Hg & M).
  apply postalCode_groups in M as (sp & p' & Hw & G' & Hsp & Hshape).
  simpl in G. rewrite G' in G. injection G as ->.
  exists g, sp. repeat (split; [first [reflexivity|assumption]|]).
  split.
  - exists pre, (m_rest m). rewrite Hg, Hw, <- !(assoc_L (++)). reflexivity.
  - destruct Hshape as (d3 & d4 & -> & H3 & H4 & _ & Hd4).
    destruct d4 as [|a1 [|a2 [|a3 [|b [|]]]]]; try discriminate H4.
    assert (is_space b = false) as Hb.
    { do 3 apply Forall_cons in Hd4 as [_ Hd4].
      apply Forall_cons in Hd4 as [Hb _]. apply digit_not_space, Hb. }
    destruct (trim_keeps pre 0x3012 (sp ++ d3 ++ u8"-" ++ [a1; a2; a3]) b (m_rest m)
                eq_refl Hb) as (pre' & post' & E).
    exists pre', post'. rewrite Hg, Hw.
    etransitivity; [|etransitivity; [exact E|]];
      [f_equal|f_equal]; rewrite <- ?(assoc_L (++)); simpl;
      rewrite <- ?(assoc_L (++)); reflexivity.
Qed.

(** *** Sections *)

(** The three section expressions of the source are instances of
    [section_regex], the two entry expressions of [entry_regex]. *)
Lemma section_expressions :
  re_educationSection = section_regex u8"学歴" [u8"職歴"]
  ∧ re_workSection
    = section_regex u8"職歴" [u8"免許・資格"; u8"健康状態"; u8"趣味"]
  ∧ re_licenseSection = section_regex u8"免許・資格" [u8"健康状態"; u8"趣味"]
  ∧ re_entries = entry_regex not_eol
  ∧ re_entryParts = entry_regex any_char.
Proof. repeat split; reflexivity. Qed.

Lemma terminator_alt_Some terminators s c a :
  run (terminator_alt terminators) s c final = Some a →
  terminated_by terminators s ∧ a.2 = c.
Proof.
  induction terminators as [|h terminators IH]; simpl.
  - destruct s; [|discriminate]. intros [= <-]. split; [left|]; reflexivity.
  - destruct (strip_prefix h s) as [s'|] eqn:E.
    + apply strip_prefix_spec in E as ->. unfold final at 1. intros [= <-].
      split; [|reflexivity]. right. exists h, s'. split; [left|reflexivity].
    + intros [T ?]%IH. split; [|assumption].
      destruct T as [T|(h' & post' & Hin & T)]; [left; assumption|].
      right. exists h', post'. split; [right|]; assumption.
Qed.

Lemma terminator_alt_None terminators s c :
  run (terminator_alt terminators) s c final = None →
  s ≠ [] ∧ ∀ h, h ∈ terminators → ¬ occurs_at h s 0.
Proof.
  induction terminators as [|h terminators IH]; simpl.
  - destruct s; [discriminate|]. intros _. split; [discriminate|].
    intros h []%elem_of_nil.
  - destruct (strip_prefix h s) as [s'|] eqn:E; [discriminate|].
    intros [Hs Hn]%IH. split; [assumption|].
    intros h' [->|Hin]%elem_of_cons; [|auto].
    intros [post Hp]. rewrite drop_0 in Hp. apply strip_prefix_spec in Hp.
    congruence.
Qed.

Lemma search_from_run r : ∀ s i m,
  search_from r i s = Some m →
  ∃ pre s', s = pre ++ s' ∧ m_index m = (i + length pre)%nat
            ∧ match_here r s' = Some (m_rest m, m_groups m)
            ∧ m_whole m = consumed s' (m_rest m).
Proof.
  induction s as [|x s IH]; intros i m; simpl.
  - destruct (match_here r []) as [[s' c]|] eqn:E; [|discriminate].
    intros [= <-]. exists [], []. simpl. auto with lia.
  - destruct (match_here r (x :: s)) as [[s' c]|] eqn:E.
    + intros [= <-]. exists [], (x :: s). simpl. auto with lia.
    + intros (pre & s' & -> & Hi & Hm)%IH. exists (x :: pre), s'.
      split; [reflexivity|]. split; [simpl; lia | assumption].
Qed.

(** The text a section expression captures is followed by a terminator or
    by the end of the text, and no terminator occurs before that place:
    the section ends at the nearest terminator. *)
Lemma section_bounded header terminators allText c :
  captured allText (section_regex header terminators) = Some c →
  ∃ pre sp post,
    allText = pre ++ header ++ sp ++ [LF] ++ c ++ post
    ∧ all_spaces sp
    ∧ terminated_by terminators post
    ∧ free_before terminators (c ++ post) (length c).
Proof.
  unfold captured, truthy_group.
  destruct (js_match allText _) as [m|] eqn:E; [|discriminate].
  destruct (group m 1) as [[|x g]|] eqn:G; try discriminate. intros [= <-].
  apply search_from_run in E as (pre & s' & -> & _ & E & _).
  revert E. unfold match_here, section_regex, star, lazy_star. cbn [run].
  destruct (strip_prefix header s') as [s1|] eqn:E1; [|discriminate].
  apply strip_prefix_spec in E1 as ->.
  intros (sp & s2 & -> & Hsp & _ & _ & E)%rep_sound.
  destruct (strip_prefix [LF] s2) as [s3|] eqn:E3; [|discriminate].
  apply strip_prefix_spec in E3 as ->.
  unfold rep in E. cbn [rep_exact fmap option_fmap option_map] in E.
  apply rep_lazy_sound in E as (w & post & -> & _ & _ & E & Hmin).
  rewrite consumed_app in E.
  apply terminator_alt_Some in E as [T Hc]. simpl in Hc.
  simpl in G. rewrite Hc, lookup_insert_eq in G.
  injection G as ->.
  exists pre, sp, post. split; [reflexivity|].
  split; [apply Forall_spaces; assumption|]. split; [assumption|].
  intros h j Hh Hj Hocc. specialize (Hmin j Hj).
  apply terminator_alt_None in Hmin as [_ Hmin].
  apply (Hmin h Hh). destruct Hocc as [p Hp]. exists p.
  rewrite drop_0. exact Hp.
Qed.

(** *** Birth date and age *)

Lemma colon_cases x : in_class colons x = true → x = 0xFF1A ∨ x = 0x3A.
Proof.
  change (in_class colons x) with ((x =? 0xFF1A) || ((x =? 0x3A) || false)).
  rewrite !orb_true_iff, !N.eqb_eq. intros [?|[?|[=]]]; auto.
Qed.

Lemma colon_not_space x : in_class colons x = true → is_space x = false.
Proof. intros [->| ->]%colon_cases; reflexivity. Qed.

Lemma space_not_colon x : is_space x = true → in_class colons x = false.
Proof.
  intros Hs. destruct (in_class colons x) eqn:Hc; [|reflexivity].
  apply colon_not_space in Hc. congruence.
Qed.

Lemma digit_cases x :
  is_digit x = true →
  x = 48 ∨ x = 49 ∨ x = 50 ∨ x = 51 ∨ x = 52 ∨ x = 53 ∨ x = 54 ∨ x = 55
  ∨ x = 56 ∨ x = 57.
Proof.
  unfold is_digit. intros [H1%N.leb_le H2%N.leb_le]%andb_prop. lia.
Qed.

Lemma space_not_digit x : is_space x = true → is_digit x = false.
Proof.
  intros Hs. destruct (is_digit x) eqn:Hd; [|reflexivity].
  apply digit_not_space in Hd. congruence.
Qed.

Lemma digits_prefix_all ds : all_digits ds → digits_prefix ds = ds.
Proof. induction 1 as [|x ds Hx _ IH]; simpl; [|rewrite Hx, IH]; reflexivity. Qed.

(** [parseInt] of a run of digits is the Number value for the integer
    they denote. *)
Lemma parseInt10_digits ds :
  ds ≠ [] → all_digits ds → parseInt10 ds = number_value (digits_value ds).
Proof.
  intros Hne Hd. destruct ds as [|x ds]; [contradiction|].
  pose proof (Forall_inv Hd) as Hx. simpl in Hx.
  unfold parseInt10, trimStart. rewrite drop_while_stop by (apply digit_not_space, Hx).
  assert ((x =? 0x2D) = false ∧ (x =? 0x2B) = false) as [-> ->].
  { apply digit_cases in Hx. rewrite !N.eqb_neq. lia. }
  rewrite digits_prefix_all by exact Hd. reflexivity.
Qed.

(** What a match of the birth-date expression at the start of [s] says
    about [s]: the capture is a date and runs up to a line break, an
    opening parenthesis or the end of the text. *)
Lemma birthDate_match_here s rest c :
  match_here re_birthDate s = Some (rest, c) →
  ∃ cs ws dt,
    s = u8"生年月日" ++ cs ++ ws ++ dt ++ rest
    ∧ c = <[1%nat := dt]> ∅
    ∧ all_colons cs ∧ all_spaces ws ∧ date_text dt
    ∧ stops (in_class not_eol_paren) rest.
Proof.
  unfold match_here, re_birthDate. cbn [run].
  destruct (strip_prefix u8"生年月日" s) as [s1|] eqn:E1; [|discriminate].
  apply strip_prefix_spec in E1 as ->.
  intros (cs & s2 & -> & Hcs & _ & _ & E)%rep_sound.
  apply rep_sound in E as (ws & s3 & -> & Hws & _ & _ & E).
  rewrite run_plus_total in E by eauto.
  destruct s3 as [|x s3]; [discriminate|].
  destruct (in_class not_eol_paren x) eqn:Hx; [|discriminate].
  injection E as <- <-.
  destruct (drop_while_spec (in_class not_eol_paren) s3) as (w & Hs3 & Hw & Hstop).
  exists cs, ws, (x :: w). rewrite Hs3 at 1.
  split; [reflexivity|]. split.
  - f_equal. rewrite Hs3 at 1. apply (consumed_app (x :: w)).
  - split; [exact Hcs|]. split; [apply Forall_spaces, Hws|].
    split; [split; [discriminate|constructor; assumption]|].
    unfold stops. destruct (drop_while _ s3); auto.
Qed.

Lemma age_groups w rest c :
  Matches re_age w rest ∅ c →
  ∃ cs ws dt ann ds,
    w = u8"生年月日" ++ cs ++ ws ++ dt ++ ann
    ∧ c !! 1%nat = Some ds
    ∧ all_colons cs ∧ all_spaces ws ∧ date_text dt
    ∧ age_annotation ds (ann ++ rest) rest.
Proof.
  unfold re_age, plus, star. intros M. invert_matches.
  match goal with
  | |- ∃ cs ws dt ann ds,
        _ ++ ?cs' ++ ?ws' ++ ?dt' ++ [?p] ++ ?s1 ++ _ ++ ?s2 ++ ?ds' ++ ?s3 ++ _ = _ ∧ _ =>
      exists cs', ws', dt', ([p] ++ s1 ++ u8"満" ++ s2 ++ ds' ++ s3 ++ u8"歳"), ds';
      assert (age_annotation ds'
                (([p] ++ s1 ++ u8"満" ++ s2 ++ ds' ++ s3 ++ u8"歳") ++ rest) rest)
        as Hann
        by (exists p, s1, s2, s3;
            split; [rewrite <- !(assoc_L (++)); reflexivity|];
            split; [assumption|];
            repeat (split; [apply Forall_spaces; assumption|]);
            split; [apply nonempty_length|apply Forall_digits]; assumption)
  end.
  split; [reflexivity|]. split; [simplify_map_eq; reflexivity|].
  split; [assumption|]. split; [apply Forall_spaces; assumption|].
  split; [split; [apply nonempty_length|]; assumption|].
  exact Hann.
Qed.

Lemma stops_app f (w s : text) :
  Forall (λ x, f x = false) w → stops f s → stops f (w ++ s).
Proof. intros Hw Hs. destruct Hw; simpl; assumption. Qed.

Lemma spaces_not_colons (ws : text) :
  all_spaces ws → Forall (λ x, in_class colons x = false) ws.
Proof.
  intros H. eapply Forall_impl; [exact H|]. intros x. apply space_not_colon.
Qed.

Lemma spaces_not_digits (ws : text) :
  all_spaces ws → Forall (λ x, in_class digits x = false) ws.
Proof.
  intros H. eapply Forall_impl; [exact H|]. intros x Hx.
  rewrite in_digits. apply space_not_digit, Hx.
Qed.

Lemma all_spaces_class (ws : text) :
  all_spaces ws → Forall (λ x, in_class spaces x = true) ws.
Proof.
  intros H. eapply Forall_impl; [exact H|]. intros x Hx.
  rewrite in_spaces. exact Hx.
Qed.

Lemma all_digits_class (ds : text) :
  all_digits ds → Forall (λ x, in_class digits x = true) ds.
Proof.
  intros H. eapply Forall_impl; [exact H|]. intros x Hx.
  rewrite in_digits. exact Hx.
Qed.

Lemma open_paren_stops p :
  in_class open_paren p = true → in_class not_eol_paren p = false.
Proof.
  change (in_class open_paren p) with
    ((p =? 0xFF08) || ((p =? 0x28) || false)).
  change (in_class not_eol_paren p) with
    (negb ((p =? LF) || ((p =? CR) || ((p =? 0xFF08) || ((p =? 0x28) || false))))).
  intros Hp. destruct (p =? 0xFF08); [rewrite !orb_true_r; reflexivity|].
  destruct (p =? 0x28); [rewrite !orb_true_r; reflexivity|]. discriminate Hp.
Qed.

(** The birth-date expression, run where label, colons, white space and
    date stand, captures the whole date. *)
Lemma birthDate_eval (cs ws dt rest : text) :
  all_colons cs → all_spaces ws → date_text dt → date_start dt →
  stops (in_class not_eol_paren) rest →
  match_here re_birthDate (u8"生年月日" ++ cs ++ ws ++ dt ++ rest)
  = Some (rest, <[1%nat := dt]> ∅).
Proof.
  intros Hcs Hws [_ Hdt] Hstart Hrest.
  destruct dt as [|x dt]; [contradiction|]. destruct Hstart as [Hxc Hxs].
  unfold match_here, re_birthDate. cbn [run].
  rewrite strip_prefix_app.
  apply run_star_max; [exact Hcs| |].
  { apply stops_app; [apply spaces_not_colons, Hws|]. exact Hxc. }
  apply run_star_max; [apply all_spaces_class, Hws| |].
  { simpl. rewrite orb_false_r. exact Hxs. }
  apply run_plus_max; [exact Hdt|exact Hrest|].
  rewrite (consumed_app (x :: dt)). reflexivity.
Qed.

(** The age expression, run where a labelled date stands that the
    annotation follows, captures the digits of the annotation. *)
Lemma age_eval (cs ws dt ds s rest : text) :
  all_colons cs → all_spaces ws → date_text dt → date_start dt →
  age_annotation ds s rest →
  match_here re_age (u8"生年月日" ++ cs ++ ws ++ dt ++ s)
  = Some (rest, <[1%nat := ds]> ∅).
Proof.
  intros Hcs Hws [_ Hdt] Hstart
    (p & sp1 & sp2 & sp3 & -> & Hp & Hsp1 & Hsp2 & Hsp3 & Hne & Hds).
  destruct dt as [|x dt]; [contradiction|]. destruct Hstart as [Hxc Hxs].
  destruct ds as [|y ds]; [contradiction|].
  pose proof (Forall_inv Hds) as Hy. simpl in Hy.
  unfold match_here, re_age. cbn [run].
  rewrite strip_prefix_app.
  apply run_star_max; [exact Hcs| |].
  { apply stops_app; [apply spaces_not_colons, Hws|]. exact Hxc. }
  apply run_star_max; [apply all_spaces_class, Hws| |].
  { simpl. rewrite orb_false_r. exact Hxs. }
  apply run_plus_max; [exact Hdt| |].
  { apply open_paren_stops, Hp. }
  cbn [app]. rewrite Hp.
  apply run_star_max; [apply all_spaces_class, Hsp1|reflexivity|].
  rewrite strip_prefix_app.
  apply run_star_max; [apply all_spaces_class, Hsp2| |].
  { simpl. rewrite orb_false_r. apply digit_not_space, Hy. }
  apply (run_plus_max digits y ds); [apply all_digits_class, Hds| |].
  { apply stops_app; [apply spaces_not_digits, Hsp3|reflexivity]. }
  match goal with
  | |- context [consumed (y :: ds ++ ?t) ?t] =>
      change (consumed (y :: ds ++ t) t) with (consumed ((y :: ds) ++ t) t)
  end.
  rewrite (consumed_app (y :: ds)).
  apply run_star_max; [apply all_spaces_class, Hsp3|reflexivity|].
  rewrite strip_prefix_app. reflexivity.
Qed.

Lemma captured_first l r (pre s s' g : text) c :
  free_before [l] (pre ++ s) (length pre) →
  match_here (RChars l ∙ r) s = Some (s', c) →
  c !! 1%nat = Some g → g ≠ [] →
  captured (pre ++ s) (RChars l ∙ r) = Some g.
Proof.
  intros Hfree Hm Hg Hne. unfold captured.
  rewrite (js_match_first _ _ _ _ _ _ Hfree Hm). simpl. rewrite Hg.
  destruct g; [contradiction|reflexivity].
Qed.

Lemma birthDate_matches (cs ws dt rest : text) :
  all_colons cs → all_spaces ws → date_text dt →
  Matches re_birthDate (u8"生年月日" ++ cs ++ ws ++ dt) rest ∅ (<[1%nat := dt]> ∅).
Proof.
  intros Hcs Hws [Hne Hdt]. unfold re_birthDate, star, plus.
  eapply M_seq; [constructor|].
  eapply M_seq; [constructor; [exact Hcs|lia|discriminate]|].
  eapply M_seq.
  - constructor; [apply all_spaces_class, Hws|lia|discriminate].
  - constructor. constructor; [exact Hdt| |discriminate].
    destruct dt; [contradiction|simpl; lia].
Qed.

Lemma captured_birthDate_sound (t g : text) :
  captured t re_birthDate = Some g →
  ∃ pre rest, labelled_date t pre g rest
              ∧ stops (in_class not_eol_paren) rest.
Proof.
  unfold captured, truthy_group.
  destruct (js_match t re_birthDate) as [m|] eqn:E; [|discriminate].
  destruct (group m 1) as [[|x g']|] eqn:G; try discriminate. intros [= <-].
  apply search_from_run in E as (pre & s & -> & _ & E & _).
  apply birthDate_match_here in E as (cs & ws & dt & -> & Hc & ? & ? & ? & ?).
  simpl in G. rewrite Hc, lookup_insert_eq in G. injection G as ->.
  exists pre, (m_rest m). split; [|assumption]. exists cs, ws. auto.
Qed.

Lemma captured_is_Some (t : text) r (pre w rest : text) c :
  Matches r w rest ∅ c →
  (∀ w' rest' c', Matches r w' rest' ∅ c' → ∃ g, c' !! 1%nat = Some g ∧ g ≠ []) →
  is_Some (captured (pre ++ w ++ rest) r).
Proof.
  intros M Hg. destruct (js_match_complete r pre w rest _ _ M) as [m E].
  unfold captured, truthy_group. rewrite E.
  apply js_match_sound in E as (_ & _ & _ & M').
  apply Hg in M' as (g & G & Hne). simpl. rewrite G.
  destruct g; [contradiction|eauto].
Qed.

Lemma birthDate_groups w rest c :
  Matches re_birthDate w rest ∅ c → ∃ g, c !! 1%nat = Some g ∧ g ≠ [].
Proof.
  unfold re_birthDate, plus, star. intros M. invert_matches.
  eexists. split; [simplify_map_eq; reflexivity|].
  apply nonempty_length. assumption.
Qed.

Lemma captured_birthDate_complete (t pre dt rest : text) :
  labelled_date t pre dt rest → is_Some (captured t re_birthDate).
Proof.
  intros (cs & ws & -> & Hcs & Hws & Hdt).
  pose proof (birthDate_matches cs ws dt rest Hcs Hws Hdt) as M.
  pose proof (captured_is_Some (pre ++ u8"生年月日" ++ cs ++ ws ++ dt ++ rest)
                _ pre _ rest _ M birthDate_groups) as H.
  rewrite <- !(assoc_L (++)) in H. exact H.
Qed.

Lemma age_matches (cs ws dt ds s rest : text) :
  all_colons cs → all_spaces ws → date_text dt → age_annotation ds s rest →
  ∃ w c, u8"生年月日" ++ cs ++ ws ++ dt ++ s = w ++ rest
         ∧ Matches re_age w rest ∅ c.
Proof.
  intros Hcs Hws [Hne Hdt]
    (p & sp1 & sp2 & sp3 & -> & Hp & Hsp1 & Hsp2 & Hsp3 & Hnd & Hds).
  exists (u8"生年月日" ++ cs ++ ws ++ dt ++ [p] ++ sp1 ++ u8"満" ++ sp2 ++ ds
          ++ sp3 ++ u8"歳"), (<[1%nat := ds]> ∅).
  split; [rewrite <- !(assoc_L (++)); reflexivity|].
  unfold re_age, star, plus.
  eapply M_seq; [constructor|].
  eapply M_seq; [constructor; [exact Hcs|lia|discriminate]|].
  eapply M_seq; [constructor; [apply all_spaces_class, Hws|lia|discriminate]|].
  eapply M_seq; [constructor; [exact Hdt| |discriminate]|].
  { destruct dt; [contradiction|simpl; lia]. }
  eapply M_seq; [constructor; exact Hp|].
  eapply M_seq; [constructor; [apply all_spaces_class, Hsp1|lia|discriminate]|].
  eapply M_seq; [constructor|].
  eapply M_seq; [constructor; [apply all_spaces_class, Hsp2|lia|discriminate]|].
  eapply M_seq.
  { constructor. constructor; [apply all_digits_class, Hds| |discriminate].
    destruct ds; [contradiction|simpl; lia]. }
  eapply M_seq; [constructor; [apply all_spaces_class, Hsp3|lia|discriminate]|].
  constructor.
Qed.

Lemma captured_age_sound (t g : text) :
  captured t re_age = Some g →
  ∃ pre dt s rest, labelled_date t pre dt s ∧ age_annotation g s rest.
Proof.
  intros (m & pre & _ & G & _ & Ht & M)%captured_sound.
  apply age_groups in M as (cs & ws & dt & ann & ds & Hw & G' & ? & ? & ? & Hann).
  simpl in G. rewrite G' in G. injection G as ->.
  exists pre, dt, (ann ++ m_rest m), (m_rest m). split; [|exact Hann].
  exists cs, ws. split; [|auto]. rewrite Ht, Hw, <- !(assoc_L (++)). reflexivity.
Qed.

Lemma age_groups_nonempty w rest c :
  Matches re_age w rest ∅ c → ∃ g, c !! 1%nat = Some g ∧ g ≠ [].
Proof.
  intros (cs & ws & dt & ann & ds & _ & G & _ & _ & _ & Hann)%age_groups.
  destruct Hann as (_ & _ & _ & _ & _ & _ & _ & _ & _ & Hne & _). eauto.
Qed.

Lemma captured_age_complete (t pre dt s rest ds : text) :
  labelled_date t pre dt s → age_annotation ds s rest →
  is_Some (captured t re_age).
Proof.
  intros (cs & ws & -> & Hcs & Hws & Hdt) Hann.
  destruct (age_matches cs ws dt ds s rest Hcs Hws Hdt Hann) as (w & c & -> & M).
  apply (captured_is_Some (pre ++ w ++ rest) _ pre _ rest _ M age_groups_nonempty).
Qed.

(** C3, as stated, fails: the age is set although no annotation follows
    the date that became the birth date. *)
Lemma C3_counterexample_two_labels :
  ∃ d, extractResumeData (single_page two_birth_dates) = Ok d
       ∧ birthDate d = Some u8"1990年5月3日"
       ∧ age d = Some (Num 5)
       ∧ two_birth_dates
         = u8"生年月日：" ++ u8"1990年5月3日" ++ [LF]
           ++ u8"生年月日：2000年1月1日（満5歳）".
Proof.
  eexists. split; [vm_compute; reflexivity|]. vm_compute. repeat split.
Qed.

(** C3, amended.  birthDate is set exactly when the text holds the label
    followed by a date, and it is then the trimmed date that follows the
    label where the pattern first matches, up to an opening parenthesis,
    a line break or the end.  age is a match of its own over the whole
    text: it is set, to N, exactly when the annotation （満 N 歳 follows a
    date after some occurrence of the label, which need not be the date
    stored in birthDate; without such an annotation birthDate is set and
    age is not.  When the label first occurs before a date that starts
    with neither colon nor white space, birthDate is that date trimmed,
    and age is the N of the annotation that follows it, if one does.
    The N stored is what parseInt makes of the digits: the integer they
    denote when it is below 2^53, and otherwise the Number value for it,
    the nearest double or Infinity. *)
Theorem C3_birthDate_and_age (ps : list OCRPage) (d : ExtractedResumeData) :
  extractResumeData (Some {| pages := Some ps |}) = Ok d →
  let t := allText_of ps in
  ((∃ pre dt rest, labelled_date t pre dt rest) ↔ is_Some (birthDate d))
  ∧ (∀ b, birthDate d = Some b →
       ∃ pre dt rest, labelled_date t pre dt rest ∧ b = trim dt
                      ∧ stops (in_class not_eol_paren) rest)
  ∧ (∀ n, age d = Some n →
       ∃ pre dt s rest ds, labelled_date t pre dt s ∧ age_annotation ds s rest
                           ∧ n = number_value (digits_value ds)
                           ∧ ((digits_value ds < 2 ^ 53)%Z →
                              n = Num (digits_value ds)))
  ∧ ((∃ pre dt s rest ds, labelled_date t pre dt s ∧ age_annotation ds s rest)
     → is_Some (age d))
  ∧ (∀ pre dt rest,
       free_before [u8"生年月日"] t (length pre) →
       labelled_date t pre dt rest → date_start dt →
       stops (in_class not_eol_paren) rest →
       birthDate d = Some (trim dt)
       ∧ ∀ ds rest', age_annotation ds rest rest' →
                     age d = Some (number_value (digits_value ds))
                     ∧ ((digits_value ds < 2 ^ 53)%Z →
                        age d = Some (Num (digits_value ds)))).
Proof.
  intros (r & p & ps' & [= <-] & [= ->] & H)%extractResumeData_inv t.
  fold t in H.
  pose proof (birthDate_spec _ _ H) as Bd. pose proof (age_spec _ _ H) as Ag.
  split; [|split; [|split; [|split]]].
  - rewrite Bd. split.
    + intros (pre & dt & rest & [g ->]%captured_birthDate_complete). simpl. eauto.
    + destruct (captured t re_birthDate) as [g|] eqn:E; [|intros [? [=]]].
      intros _. apply captured_birthDate_sound in E as (pre & rest & L & _).
      eauto.
  - intros b Hb. rewrite Bd in Hb.
    destruct (captured t re_birthDate) as [g|] eqn:E; [|discriminate].
    injection Hb as <-. apply captured_birthDate_sound in E as (pre & rest & L & S).
    eauto 6.
  - intros n Hn. rewrite Ag in Hn.
    destruct (captured t re_birthDate) as [g|]; [|discriminate]. simpl in Hn.
    destruct (captured t re_age) as [a|] eqn:E; [|discriminate].
    injection Hn as <-.
    apply captured_age_sound in E as (pre & dt & s & rest & L & Hann).
    exists pre, dt, s, rest, a. split; [exact L|]. split; [exact Hann|].
    destruct Hann as (_ & _ & _ & _ & _ & _ & _ & _ & _ & Hne & Hd).
    rewrite parseInt10_digits by assumption.
    split; [reflexivity|apply number_value_small].
  - intros (pre & dt & s & rest & ds & L & Hann). rewrite Ag.
    destruct (captured_birthDate_complete _ _ _ _ L) as [g ->]. simpl.
    destruct (captured_age_complete _ _ _ _ _ _ L Hann) as [a ->]. simpl. eauto.
  - intros pre dt rest Hfree (cs & ws & Ht & Hcs & Hws & Hdt) Hstart Hstop.
    assert (captured t re_birthDate = Some dt) as Cb.
    { rewrite Ht in Hfree |- *. unfold re_birthDate.
      eapply captured_first; [exact Hfree| |apply lookup_insert_eq|apply Hdt].
      apply birthDate_eval; assumption. }
    split; [rewrite Bd, Cb; reflexivity|].
    intros ds rest' Hann. rewrite Ag, Cb. simpl.
    assert (captured t re_age = Some ds) as ->.
    { rewrite Ht in Hfree |- *. unfold re_age.
      eapply captured_first; [exact Hfree| |apply lookup_insert_eq|].
      - apply age_eval; eassumption.
      - destruct Hann as (_ & _ & _ & _ & _ & _ & _ & _ & _ & Hne & _). exact Hne. }
    simpl.
    destruct Hann as (_ & _ & _ & _ & _ & _ & _ & _ & _ & Hne & Hd).
    rewrite parseInt10_digits by assumption.
    split; [reflexivity|]. intros Hs. rewrite number_value_small by exact Hs.
    reflexivity.
Qed.

(** *** A section of dated lines *)

Lemma not_terminator_not_eol (desc : text) :
  Forall (λ x, is_line_terminator x = false) desc →
  Forall (λ x, in_class not_eol x = true) desc.
Proof.
  intros H. eapply Forall_impl; [exact H|]. intros x Hx.
  unfold is_line_terminator in Hx.
  change (in_class not_eol x) with (negb ((x =? LF) || ((x =? CR) || false))).
  destruct (x =? LF); [discriminate|]. destruct (x =? CR); [discriminate|].
  reflexivity.
Qed.

Lemma not_terminator_dot (desc : text) :
  Forall (λ x, is_line_terminator x = false) desc →
  Forall (λ x, in_class any_char x = true) desc.
Proof.
  intros H. eapply Forall_impl; [exact H|]. intros x Hx.
  simpl. rewrite Hx. reflexivity.
Qed.

Lemma entry_eval tail (y m desc s : text) :
  well_formed_line y m desc →
  Forall (λ x, in_class tail x = true) desc → stops (in_class tail) s →
  match_here (entry_regex tail) (date_line y m desc ++ s)
  = Some (s, line_captures y m desc).
Proof.
  intros (Hy & Hyd & Hm & Hmd & Hd & _) Htail Hs.
  destruct y as [|y0 y]; [contradiction|]. destruct m as [|m0 m]; [contradiction|].
  destruct desc as [|d0 desc]; [contradiction|].
  pose proof (Forall_inv Hmd) as Hm0. simpl in Hm0.
  unfold match_here, entry_regex, date_line. cbn [run].
  rewrite <- !(assoc_L (++)).
  change ((y0 :: y) ++ ?t) with (y0 :: y ++ t).
  apply run_plus_max; [apply all_digits_class, Hyd|reflexivity|].
  match goal with
  | |- context [consumed (y0 :: y ++ ?t) ?t] =>
      change (consumed (y0 :: y ++ t) t) with (consumed ((y0 :: y) ++ t) t)
  end.
  rewrite (consumed_app (y0 :: y)).
  rewrite run_star_zero by reflexivity. rewrite strip_prefix_app.
  rewrite run_star_zero
    by (simpl; rewrite orb_false_r; apply digit_not_space, Hm0).
  change ((m0 :: m) ++ ?t) with (m0 :: m ++ t).
  apply run_plus_max; [apply all_digits_class, Hmd|reflexivity|].
  match goal with
  | |- context [consumed (m0 :: m ++ ?t) ?t] =>
      change (consumed (m0 :: m ++ t) t) with (consumed ((m0 :: m) ++ t) t)
  end.
  rewrite (consumed_app (m0 :: m)).
  rewrite run_star_zero by reflexivity. rewrite strip_prefix_app.
  apply (run_star_max spaces [0x20]); [repeat constructor| |].
  { simpl. rewrite orb_false_r. exact Hd. }
  change ((d0 :: desc) ++ ?t) with (d0 :: desc ++ t).
  apply run_plus_max; [exact Htail|exact Hs|].
  match goal with
  | |- context [consumed (d0 :: desc ++ ?t) ?t] =>
      change (consumed (d0 :: desc ++ t) t) with (consumed ((d0 :: desc) ++ t) t)
  end.
  rewrite (consumed_app (d0 :: desc)). reflexivity.
Qed.

Lemma scan_all_skip r (w s : text) :
  scan_all r (length w) (w ++ s) = scan_all r 0 s.
Proof. induction w as [|x w IH]; simpl; [destruct s|]; auto. Qed.

Lemma scan_all_hit r x (w s : text) c :
  match_here r (x :: w ++ s) = Some (s, c) →
  scan_all r 0 (x :: w ++ s) = (x :: w) :: scan_all r 0 s.
Proof.
  intros H. simpl. rewrite H.
  change (x :: w ++ s) with ((x :: w) ++ s). rewrite consumed_app.
  simpl. rewrite scan_all_skip. reflexivity.
Qed.

(** The scan of two lines finds the two lines. *)
Lemma scan_two_lines (y1 m1 d1 y2 m2 d2 : text) :
  well_formed_line y1 m1 d1 → well_formed_line y2 m2 d2 →
  js_match_all (date_line y1 m1 d1 ++ [LF] ++ date_line y2 m2 d2 ++ [LF])
    re_entries
  = Some [date_line y1 m1 d1; date_line y2 m2 d2].
Proof.
  intros W1 W2. unfold js_match_all.
  assert (∀ y m d (s : text), well_formed_line y m d →
            scan_all re_entries 0 (date_line y m d ++ LF :: s)
            = date_line y m d :: scan_all re_entries 0 s) as Hline.
  { intros y m d s W.
    pose proof (entry_eval not_eol y m d (LF :: s) W
                  (not_terminator_not_eol _ (proj2 (proj2 (proj2 (proj2 (proj2 W))))))
                  eq_refl) as E.
    destruct W as (Hy & _). destruct y as [|y0 y]; [contradiction|].
    transitivity (date_line (y0 :: y) m d :: scan_all re_entries 0 (LF :: s)).
    - exact (scan_all_hit re_entries y0
               (y ++ u8"年" ++ m ++ u8"月" ++ [0x20] ++ d) (LF :: s) _ E).
    - f_equal. }
  change ([LF] ++ ?t) with (LF :: t).
  rewrite Hline by exact W1. rewrite Hline by exact W2. reflexivity.
Qed.

Lemma search_from_here r (s s' : text) c i :
  match_here r s = Some (s', c) →
  search_from r i s
  = Some {| m_index := i; m_whole := consumed s s'; m_groups := c; m_rest := s' |}.
Proof. intros H. destruct s; simpl; rewrite H; reflexivity. Qed.

Lemma parse_entry_line (y m desc : text) :
  well_formed_line y m desc →
  parse_entry (date_line y m desc) = Ok (line_entry y m desc).
Proof.
  intros W. unfold parse_entry, js_match.
  pose proof (entry_eval any_char y m desc [] W
                (not_terminator_dot _ (proj2 (proj2 (proj2 (proj2 (proj2 W))))))
                I) as E.
  rewrite app_nil_r in E.
  assert (search_from re_entryParts 0 (date_line y m desc)
          = Some {| m_index := 0; m_whole := consumed (date_line y m desc) [];
                    m_groups := line_captures y m desc; m_rest := [] |}) as ->.
  { apply search_from_here. exact E. }
  reflexivity.
Qed.

Lemma terminator_alt_fails terminators (s : text) c :
  s ≠ [] → (∀ h, h ∈ terminators → ¬ occurs_at h s 0) →
  run (terminator_alt terminators) s c final = None.
Proof.
  intros Hs. induction terminators as [|h terminators IH]; intros Hn; simpl.
  - destruct s; [contradiction|reflexivity].
  - destruct (strip_prefix h s) as [s'|] eqn:E.
    + exfalso. apply (Hn h); [left|]. exists s'. rewrite drop_0.
      apply strip_prefix_spec, E.
    + apply IH. intros h' Hh'. apply Hn. right. exact Hh'.
Qed.

Lemma terminator_alt_succeeds terminators (post : text) c :
  terminated_by terminators post →
  ∃ s', run (terminator_alt terminators) post c final = Some (s', c).
Proof.
  intros T. induction terminators as [|h terminators IH]; simpl.
  - destruct T as [->|(h & post' & []%elem_of_nil & _)]. eauto.
  - destruct (strip_prefix h post) as [s'|] eqn:E; [unfold final; eauto|].
    apply IH. destruct T as [->|(h' & post' & Hin & ->)]; [left; reflexivity|].
    apply elem_of_cons in Hin as [->|Hin].
    + rewrite strip_prefix_app in E. discriminate.
    + right. eauto.
Qed.

Lemma rep_greedy_back_one {A} (f : N → bool) a x (s : text) (k : text → option A) :
  f a = true → f x = false → k (x :: s) = None →
  rep_greedy f None (a :: x :: s) k = k (a :: x :: s).
Proof. intros Ha Hx Hk. simpl. rewrite Ha, Hx. simpl. rewrite Hk. reflexivity. Qed.

(** A section expression, run on a header line followed by a section text
    that starts with no white space and ends at the first terminator,
    captures that text. *)
Lemma section_eval header terminators (pre sec post : text) :
  free_before [header] (pre ++ header ++ [LF] ++ sec ++ post) (length pre) →
  match sec with x :: _ => is_space x = false | [] => False end →
  terminated_by terminators post →
  free_before terminators (sec ++ post) (length sec) →
  captured (pre ++ header ++ [LF] ++ sec ++ post)
    (section_regex header terminators) = Some sec.
Proof.
  intros Hpre Hsec Hterm Hfree.
  destruct sec as [|x sec]; [contradiction|].
  destruct (terminator_alt_succeeds terminators post (<[1%nat := x :: sec]> ∅) Hterm)
    as [s' Hs'].
  unfold section_regex.
  eapply captured_first; [exact Hpre| |apply lookup_insert_eq|discriminate].
  unfold match_here. cbn [run]. rewrite strip_prefix_app.
  unfold star, lazy_star. cbn [run]. unfold rep.
  cbn [rep_exact fmap option_fmap option_map].
  change ([LF] ++ (x :: sec) ++ post) with (LF :: x :: sec ++ post).
  assert ((LF =? x) = false) as HLF.
  { apply N.eqb_neq. intros <-. discriminate Hsec. }
  rewrite rep_greedy_back_one;
    [|reflexivity|simpl; rewrite orb_false_r; exact Hsec
     |cbn [strip_prefix]; rewrite HLF; reflexivity].
  cbn [strip_prefix]. rewrite N.eqb_refl.
  change (x :: sec ++ post) with ((x :: sec) ++ post).
  apply rep_lazy_first.
  - apply Forall_forall. intros y _. simpl.
    destruct (is_space y); reflexivity.
  - intros j Hj. apply terminator_alt_fails.
    + intros Hd. apply (f_equal length) in Hd.
      rewrite length_drop, length_app in Hd. cbn [length] in Hd, Hj. lia.
    + intros h Hh [p Hp]. rewrite drop_0 in Hp.
      apply (Hfree h j Hh Hj). exists p. exact Hp.
  - rewrite consumed_app. exact Hs'.
Qed.

(** C2, as stated, fails: the education section runs over the known
    header 趣味, and educationHistory takes the dated line after it. *)
Lemma C2_counterexample_education_swallows_header :
  ∃ d,
    extractResumeData (single_page education_then_hobbies) = Ok d
    ∧ captured education_then_hobbies re_educationSection
      = Some (u8"2010年4月 A高校 入学" ++ [LF] ++ u8"趣味" ++ [LF]
              ++ u8"2013年3月 読書")
    ∧ educationHistory d
      = Some [ {| year := u8"2010"; month := u8"4"; description := u8"A高校 入学" |};
               {| year := u8"2013"; month := u8"3"; description := u8"読書" |} ].
Proof.
  eexists. split; [vm_compute; reflexivity|]. vm_compute. split; reflexivity.
Qed.

(** C2, amended.  Each section ends at the nearest following terminator
    of its own expression, or at the end of the text: 職歴 for the
    education section; 免許・資格, 健康状態 or 趣味 for the work section;
    健康状態 or 趣味 for the license section.  The captured text holds no
    occurrence of these terminators (a header outside the section's own
    list does not end it), and the list fields hold the entries scanned
    in these texts.  In particular, for a 学歴 section of two lines
    "YYYY年MM月 description" followed by the header 職歴, the captured text
    is the two lines, without the header, and educationHistory has
    exactly their two entries. *)
Theorem C2_sections_end_at_own_terminators (ps : list OCRPage)
    (d : ExtractedResumeData) :
  extractResumeData (Some {| pages := Some ps |}) = Ok d →
  let t := allText_of ps in
  (∀ c, captured t re_educationSection = Some c →
        section_bounds t u8"学歴" [u8"職歴"] c)
  ∧ (∀ c, captured t re_workSection = Some c →
          section_bounds t u8"職歴" [u8"免許・資格"; u8"健康状態"; u8"趣味"] c)
  ∧ (∀ c, captured t re_licenseSection = Some c →
          section_bounds t u8"免許・資格" [u8"健康状態"; u8"趣味"] c)
  ∧ entries_of (section_entries t re_educationSection) (educationHistory d)
  ∧ entries_of (section_entries t re_workSection) (workHistory d)
  ∧ entries_of (section_entries t re_licenseSection) (licenses d)
  ∧ (∀ pre y1 m1 d1 y2 m2 d2 rest,
       let sec := date_line y1 m1 d1 ++ [LF] ++ date_line y2 m2 d2 ++ [LF] in
       t = pre ++ u8"学歴" ++ [LF] ++ sec ++ u8"職歴" ++ rest →
       free_before [u8"学歴"] t (length pre) →
       well_formed_line y1 m1 d1 → well_formed_line y2 m2 d2 →
       free_before [u8"職歴"] (sec ++ u8"職歴" ++ rest) (length sec) →
       captured t re_educationSection = Some sec
       ∧ educationHistory d = Some [line_entry y1 m1 d1; line_entry y2 m2 d2]).
Proof.
  intros (r & p & ps' & [= <-] & [= ->] & H)%extractResumeData_inv t.
  fold t in H.
  split; [|split; [|split; [|split; [|split; [|split]]]]].
  - intros c Hc. apply (section_bounded u8"学歴" [u8"職歴"]), Hc.
  - intros c Hc.
    apply (section_bounded u8"職歴" [u8"免許・資格"; u8"健康状態"; u8"趣味"]), Hc.
  - intros c Hc.
    apply (section_bounded u8"免許・資格" [u8"健康状態"; u8"趣味"]), Hc.
  - apply educationHistory_spec, H.
  - apply workHistory_spec, H.
  - apply licenses_spec, H.
  - intros pre y1 m1 d1 y2 m2 d2 rest sec Ht Hpre W1 W2 Hfree.
    assert (captured t re_educationSection = Some sec) as Hc.
    { rewrite Ht in Hpre |- *.
      apply (section_eval u8"学歴" [u8"職歴"]); [exact Hpre| | |exact Hfree].
      - destruct W1 as (Hy & Hyd & _). destruct y1 as [|y0 y1]; [contradiction|].
        apply digit_not_space. exact (Forall_inv Hyd).
      - right. exists u8"職歴", rest. split; [left|reflexivity]. }
    split; [exact Hc|].
    pose proof (educationHistory_spec _ _ H) as He.
    unfold section_entries in He. rewrite Hc in He. simpl in He.
    unfold sec in He. rewrite (scan_two_lines _ _ _ _ _ _ W1 W2) in He.
    destruct He as (l & -> & HF).
    apply Forall2_cons_inv_l in HF as (e1 & l1 & E1 & HF & ->).
    apply Forall2_cons_inv_l in HF as (e2 & l2 & E2 & HF & ->).
    apply Forall2_nil_inv_l in HF as ->.
    rewrite parse_entry_line in E1, E2 by assumption.
    injection E1 as <-. injection E2 as <-. reflexivity.
Qed.

(** C8, as stated, fails: the scan matches "2020年4月" followed by U+2028
    ([^\n\r] accepts the separator), the decomposition does not ([.]
    refuses it), and the fallback entry is returned. *)
Lemma C8_counterexample_fallback_reached :
  extractResumeData (single_page line_separator_entry)
  = Ok (set_educationHistory
          [{| year := []; month := []; description := u8"2020年4月" |}]
          empty_data).
Proof. vm_compute. reflexivity. Qed.

(** C8, amended.  Every entry of educationHistory, workHistory and
    licenses either has a non-empty all-digit year and a non-empty
    all-digit month, or is the fallback entry: empty year and month, and
    for description the trimmed raw text that the scan pattern matched
    and the decomposition pattern did not. *)
Theorem C8_entries_digits_or_fallback (ocrResult : option OCRResponse)
    (d : ExtractedResumeData) (l : list Entry) (e : Entry) :
  extractResumeData ocrResult = Ok d →
  educationHistory d = Some l ∨ workHistory d = Some l ∨ licenses d = Some l →
  e ∈ l →
  well_formed_entry e ∨ fallback_entry e.
Proof.
  intros (r & p & ps & _ & _ & H)%extractResumeData_inv [E|[E|E]] Hin.
  - eapply section_entry_shape;
      [apply (educationHistory_spec _ _ H)|exact E|exact Hin].
  - eapply section_entry_shape;
      [apply (workHistory_spec _ _ H)|exact E|exact Hin].
  - eapply section_entry_shape;
      [apply (licenses_spec _ _ H)|exact E|exact Hin].
Qed.

(** *** Instances *)

Lemma no_occurrence_before_spec (hs : list text) (s : text) n :
  forallb (λ h, no_occurrence_before h s n) hs = true → free_before hs s n.
Proof.
  intros Hall h j Hh Hj [post Hp].
  rewrite forallb_forall in Hall.
  apply list_elem_of_In in Hh. specialize (Hall h Hh). clear Hh.
  revert s n Hall Hj Hp. induction j as [|j IH]; intros s [|n] Hall Hj Hp;
    try lia; simpl in Hall; apply andb_prop in Hall as [H1 H2].
  - rewrite drop_0 in Hp. apply negb_true_iff in H1.
    assert (starts_with h s = true) by (apply starts_with_spec; eauto).
    congruence.
  - destruct s as [|x s]; [rewrite drop_nil in Hp; destruct h; [|discriminate];
                           apply negb_true_iff in H1; discriminate|].
    apply (IH s n H2); [lia|exact Hp].
Qed.

Lemma C2_witness :
  let d := result_of (extractResumeData (single_page two_line_education)) in
  captured two_line_education re_educationSection
  = Some (date_line u8"2010" u8"4" u8"A高校 入学" ++ [LF]
          ++ date_line u8"2013" u8"3" u8"A高校 卒業" ++ [LF])
  ∧ educationHistory d
    = Some [ line_entry u8"2010" u8"4" u8"A高校 入学";
             line_entry u8"2013" u8"3" u8"A高校 卒業" ].
Proof.
  intros d.
  apply (proj2 (proj2 (proj2 (proj2 (proj2 (proj2
    (C2_sections_end_at_own_terminators
       [{| index := 0; markdown := Some two_line_education |}] d
       ltac:(vm_compute; reflexivity)))))))
      [] u8"2010" u8"4" u8"A高校 入学" u8"2013" u8"3" u8"A高校 卒業"
      ([LF] ++ u8"2014年4月 B社 入社")).
  - vm_compute. reflexivity.
  - intros h j _ Hj. simpl in Hj. lia.
  - vm_compute. repeat split; try discriminate; repeat constructor.
  - vm_compute. repeat split; try discriminate; repeat constructor.
  - apply no_occurrence_before_spec. vm_compute. reflexivity.
Defined.

Lemma C3_witness :
  let d := result_of (extractResumeData
                        (single_page u8"生年月日：1990年5月3日（満34歳）")) in
  birthDate d = Some u8"1990年5月3日" ∧ age d = Some (Num 34).
Proof.
  intros d.
  destruct (proj2 (proj2 (proj2 (proj2
    (C3_birthDate_and_age
       [{| index := 0; markdown := Some u8"生年月日：1990年5月3日（満34歳）" |}] d
       ltac:(vm_compute; reflexivity)))))
      [] u8"1990年5月3日" u8"（満34歳）") as [Hb Ha].
  - intros h j _ Hj. simpl in Hj. lia.
  - exists u8"：", []. vm_compute.
    repeat split; try discriminate; repeat constructor.
  - vm_compute. split; reflexivity.
  - vm_compute. reflexivity.
  - split; [exact Hb|].
    assert (age_annotation u8"34" u8"（満34歳）" u8"）") as Hann.
    { exists 0xFF08, [], [], []. vm_compute.
      repeat split; try discriminate; repeat constructor. }
    exact (proj2 (Ha u8"34" u8"）" Hann) ltac:(vm_compute; reflexivity)).
Defined.

Lemma C6_witness :
  let ps := [{| index := 0; markdown := Some u8"現住所：〒123-4567 東京都新宿区" |}] in
  let t := allText_of ps in
  let d := result_of (extractResumeData (Some {| pages := Some ps |})) in
  ∃ g sp,
    captured t re_address = Some g
    ∧ captured g re_postalCode = Some u8"123-4567"
    ∧ address d = Some (trim g)
    ∧ postal_code_shape u8"123-4567" ∧ all_spaces sp
    ∧ (∃ pre post, g = pre ++ u8"〒" ++ sp ++ u8"123-4567" ++ post)
    ∧ (∃ pre post, trim g = pre ++ u8"〒" ++ sp ++ u8"123-4567" ++ post).
Proof.
  intros ps t d.
  assert (extractResumeData (Some {| pages := Some ps |}) = Ok d) as E
    by (vm_compute; reflexivity).
  assert (postalCode d = Some u8"123-4567") as Hp
    by (vm_compute; reflexivity).
  exact (proj2 (proj2 (C6_postalCode_nested_in_address ps d E)) _ Hp).
Defined.

Lemma C8_witness :
  let d := result_of (extractResumeData (single_page two_line_education)) in
  well_formed_entry (line_entry u8"2010" u8"4" u8"A高校 入学")
  ∨ fallback_entry (line_entry u8"2010" u8"4" u8"A高校 入学").
Proof.
  intros d.
  apply (C8_entries_digits_or_fallback (single_page two_line_education) d
           [ line_entry u8"2010" u8"4" u8"A高校 入学";
             line_entry u8"2013" u8"3" u8"A高校 卒業" ]).
  - vm_compute. reflexivity.
  - left. vm_compute. reflexivity.
  - left.
Defined.

Lemma C9_witness :
  let d := result_of (extractResumeData (single_page u8"氏名：山田太郎")) in
  name d = Some u8"山田太郎"
  ∧ alternativeAddress d = None
  ∧ alternativeAddressKana d = None
  ∧ alternativePhoneNumber d = None.
Proof.
  intros d. split; [vm_compute; reflexivity|].
  apply (C9_alternative_fields_absent (single_page u8"氏名：山田太郎") d).
  vm_compute. reflexivity.
Defined.



(** *** The examples of the specification *)

Example name_example :
  name (result_of (extractResumeData (single_page u8"氏名：山田太郎")))
  = Some u8"山田太郎".
Proof. vm_compute. reflexivity. Qed.

Example birthDate_with_age_example :
  let d := result_of (extractResumeData
                        (single_page u8"生年月日：1990年5月3日（満34歳）")) in
  birthDate d = Some u8"1990年5月3日" ∧ age d = Some (Num 34).
Proof. vm_compute. split; reflexivity. Qed.

Example birthDate_without_age_example :
  let d := result_of (extractResumeData (single_page u8"生年月日：1990年5月3日")) in
  birthDate d = Some u8"1990年5月3日" ∧ age d = None.
Proof. vm_compute. split; reflexivity. Qed.

Example two_line_education_example :
  let d := result_of (extractResumeData (single_page two_line_education)) in
  educationHistory d
  = Some [ {| year := u8"2010"; month := u8"4"; description := u8"A高校 入学" |};
           {| year := u8"2013"; month := u8"3"; description := u8"A高校 卒業" |} ]
  ∧ workHistory d
    = Some [ {| year := u8"2014"; month := u8"4"; description := u8"B社 入社" |} ].
Proof. vm_compute. split; reflexivity. Qed.

(** The postal code is looked for in the captured address only. *)
Example postalCode_outside_address_example :
  let d := result_of (extractResumeData
                        (single_page (u8"〒123-4567" ++ [LF] ++ u8"現住所：東京都新宿区"))) in
  address d = Some u8"東京都新宿区" ∧ postalCode d = None.
Proof. vm_compute. split; reflexivity. Qed.

Example empty_page_list_example :
  extractResumeData (Some {| pages := Some [] |})
  = Throw u8"有効なOCR結果がありません".
Proof. reflexivity. Qed.

(** *** Numbers beyond the integers a double holds *)

Example parseInt_rounds_example :
  parseInt10 u8"9007199254740993" = Num 9007199254740992
  ∧ parseInt10 u8"9007199254740995" = Num 9007199254740996
  ∧ number_text (parseInt10 (replicate 308 0x39)) = u8"1e+308"
  ∧ parseInt10 (replicate 400 0x39) = Infinity false
  ∧ parseInt10 u8"-0" = NegZero
  ∧ parseInt10 u8"  12歳" = Num 12
  ∧ parseInt10 u8"歳" = NaN.
Proof. vm_compute. repeat split; reflexivity. Qed.

Example number_text_example :
  number_text (Num (2 ^ 64)) = u8"18446744073709552000"
  ∧ number_text (Num (2 ^ 53)) = u8"9007199254740992"
  ∧ number_text (Num 123456789012345680000) = u8"123456789012345680000"
  ∧ number_text (Num (10 ^ 21)) = u8"1e+21"
  ∧ number_text (Num (2 ^ 70)) = u8"1.1805916207174113e+21"
  ∧ number_text (Num (-34)) = u8"-34"
  ∧ number_text (parseInt10 (replicate 400 0x39)) = u8"Infinity".
Proof. vm_compute. repeat split; reflexivity. Qed.

Example long_age_example :
  let d := result_of (extractResumeData
             (single_page u8"生年月日：1990年5月3日（満18446744073709551616歳）")) in
  age d = Some (Num (2 ^ 64))
  ∧ fill_sheet d ∅ !! u8"A5"
    = Some (VString u8"1990年 5月 3日生 （ 満 18446744073709552000歳 ）").
Proof. vm_compute. split; reflexivity. Qed.

Example infinite_dependents_example :
  let d := result_of (extractResumeData
             (single_page (u8"扶養家族数（配偶者を除く）：" ++ replicate 400 0x39))) in
  dependents d = Some (Infinity false)
  ∧ fill_sheet d ∅ !! u8"L17" = Some (VNumber (Infinity false)).
Proof. vm_compute. split; reflexivity. Qed.

(** ** The template filler *)


Lemma foldl_write_entry_frame (c1 c2 c3 a : text) :
  ∀ (l : list Entry) (start : N) (ws : worksheet),
  (∀ i, (i < length l)%nat →
        a ≠ cell c1 (start + N.of_nat i) ∧ a ≠ cell c2 (start + N.of_nat i)
        ∧ a ≠ cell c3 (start + N.of_nat i)) →
  (foldl (write_entry c1 c2 c3) (start, ws) l).2 !! a = ws !! a.
Proof.
  induction l as [|e l IH]; intros start ws H; [reflexivity|].
  simpl. rewrite IH.
  - destruct (H 0%nat ltac:(simpl; lia)) as (H1 & H2 & H3).
    rewrite N.add_0_r in H1, H2, H3.
    rewrite !lookup_insert_ne by congruence. reflexivity.
  - intros i Hi. specialize (H (S i) ltac:(simpl; lia)).
    replace (start + 1 + N.of_nat i) with (start + N.of_nat (S i)) by lia.
    exact H.
Qed.

Lemma region_spec (c1 c2 c3 : text) (start : N) (l : list Entry) (a : text) :
  a ∈ region c1 c2 c3 start (Some l)
  ↔ ∃ i, (i < length l)%nat
         ∧ (a = cell c1 (start + N.of_nat i) ∨ a = cell c2 (start + N.of_nat i)
            ∨ a = cell c3 (start + N.of_nat i)).
Proof.
  unfold region. rewrite list_elem_of_bind. split.
  - intros (i & Ha & Hi). apply elem_of_seq in Hi.
    exists i. split; [lia|].
    repeat (apply elem_of_cons in Ha as [Ha|Ha]; [auto|]).
    apply elem_of_nil in Ha as [].
  - intros (i & Hi & Ha). exists i. split; [|apply elem_of_seq; lia].
    destruct Ha as [-> | [-> | ->]]; [left|right; left|right; right; left].
Qed.

Lemma write_rows_frame (c1 c2 c3 : text) (start : N) (o : option (list Entry))
    (ws : worksheet) (a : text) :
  a ∉ region c1 c2 c3 start o →
  write_rows c1 c2 c3 start o ws !! a = ws !! a.
Proof.
  destruct o as [[|e l]|]; [reflexivity| |reflexivity]. intros Hn.
  unfold write_rows. apply foldl_write_entry_frame. intros i Hi.
  repeat split; intros ->; apply Hn, region_spec; eauto 6.
Qed.

Lemma when_text_frame (o : option text) (body : text → worksheet → worksheet)
    (ws : worksheet) (a : text) :
  (∀ v, truthy_text o = Some v → body v ws !! a = ws !! a) →
  when_text o body ws !! a = ws !! a.
Proof. unfold when_text. destruct (truthy_text o); auto. Qed.

Lemma when_defined_frame {V} (o : option V) (body : V → worksheet → worksheet)
    (ws : worksheet) (a : text) :
  (∀ v, o = Some v → body v ws !! a = ws !! a) →
  when_defined o body ws !! a = ws !! a.
Proof. unfold when_defined. destruct o; auto. Qed.

Lemma scalar_target (f : scalar_field) (r : ExtractedResumeData) (a : text) :
  a ∉ written_cells r → present f r = true → cell_of f ≠ a.
Proof.
  intros Hn Hp <-. apply Hn. unfold written_cells.
  apply elem_of_app. left. apply list_elem_of_bind. exists f.
  rewrite Hp. split; [left|]. destruct f; repeat constructor.
Qed.

(** The frame of the filler: a cell outside the mapped targets of the
    given fields keeps the value of the template. *)
Lemma fill_sheet_frame (r : ExtractedResumeData) (ws : worksheet) (a : text) :
  a ∉ written_cells r → fill_sheet r ws !! a = ws !! a.
Proof.
  intros Hn.
  assert (∀ f, present f r = true → cell_of f ≠ a) as Hs
    by (intros f; apply scalar_target; exact Hn).
  assert ((a ∉ region u8"A" u8"B" u8"C" 14 (educationHistory r))
          ∧ (a ∉ region u8"A" u8"B" u8"C" 20 (workHistory r))
          ∧ (a ∉ region u8"I" u8"J" u8"K" 14 (licenses r))) as (He & Hw & Hl).
  { unfold written_cells in Hn. rewrite !not_elem_of_app in Hn. tauto. }
  unfold fill_sheet, fill_steps. cbn [foldl].
  unfold fill_supportingSpouse.
  rewrite when_defined_frame by (intros v E; apply lookup_insert_ne,
    (Hs F_supportingSpouse); simpl; rewrite E; reflexivity).
  unfold fill_hasSpouse.
  rewrite when_defined_frame by (intros v E; apply lookup_insert_ne,
    (Hs F_hasSpouse); simpl; rewrite E; reflexivity).
  unfold fill_dependents.
  rewrite when_defined_frame by (intros v E; apply lookup_insert_ne,
    (Hs F_dependents); simpl; rewrite E; reflexivity).
  unfold fill_nearestStation.
  rewrite when_text_frame by (intros v E; apply lookup_insert_ne,
    (Hs F_nearestStation); simpl; rewrite E; reflexivity).
  unfold fill_hobbies.
  rewrite when_text_frame by (intros v E; apply lookup_insert_ne,
    (Hs F_hobbies); simpl; rewrite E; reflexivity).
  unfold fill_healthCondition.
  rewrite when_text_frame by (intros v E; apply lookup_insert_ne,
    (Hs F_healthCondition); simpl; rewrite E; reflexivity).
  unfold fill_licenses, fill_workHistory, fill_educationHistory.
  rewrite !write_rows_frame by assumption.
  unfold fill_email.
  rewrite when_text_frame by (intros v E; apply lookup_insert_ne,
    (Hs F_email); simpl; rewrite E; reflexivity).
  unfold fill_phoneNumber.
  rewrite when_text_frame by (intros v E; apply lookup_insert_ne,
    (Hs F_phoneNumber); simpl; rewrite E; reflexivity).
  unfold fill_address.
  rewrite when_text_frame by (intros v E; apply lookup_insert_ne,
    (Hs F_address); simpl; rewrite E; reflexivity).
  unfold fill_postalCode.
  rewrite when_text_frame by (intros v E; apply lookup_insert_ne,
    (Hs F_postalCode); simpl; rewrite E; reflexivity).
  unfold fill_addressKana.
  rewrite when_text_frame by (intros v E; apply lookup_insert_ne,
    (Hs F_addressKana); simpl; rewrite E; reflexivity).
  unfold fill_gender.
  rewrite when_text_frame by (intros v E; apply lookup_insert_ne,
    (Hs F_gender); simpl; rewrite E; reflexivity).
  unfold fill_birthDate.
  rewrite when_text_frame by (intros v E;
    destruct (js_match v re_birthDateParts); apply lookup_insert_ne,
    (Hs F_birthDate); simpl; rewrite E; reflexivity).
  unfold fill_nameKana.
  rewrite when_text_frame by (intros v E; apply lookup_insert_ne,
    (Hs F_nameKana); simpl; rewrite E; reflexivity).
  unfold fill_name.
  rewrite when_text_frame by (intros v E; apply lookup_insert_ne,
    (Hs F_name); simpl; rewrite E; reflexivity).
  reflexivity.
Qed.

(** *** Cell addresses *)

Lemma uint_text_inj d d' : uint_text d = uint_text d' → d = d'.
Proof.
  revert d'. induction d as [|d IH|d IH|d IH|d IH|d IH|d IH|d IH|d IH|d IH|d IH];
    intros [|d'|d'|d'|d'|d'|d'|d'|d'|d'|d']; simpl; intros H;
    try discriminate H; try reflexivity;
    injection H as H; f_equal; apply IH, H.
Qed.

Lemma N_text_inj n m : N_text n = N_text m → n = m.
Proof.
  intros H%uint_text_inj. apply DecimalN.Unsigned.to_uint_inj, H.
Qed.

Lemma cell_inj c c' n m : cell [c] n = cell [c'] m → c = c' ∧ n = m.
Proof. unfold cell. simpl. intros [= -> H%N_text_inj]. auto. Qed.

Lemma cell_of_eq f : cell_of f = cell [col_of f] (row_of f).
Proof. destruct f; vm_compute; reflexivity. Qed.

Lemma cell_of_inj f f' : cell_of f = cell_of f' → f = f'.
Proof.
  rewrite !cell_of_eq. intros [Hc Hr]%cell_inj.
  destruct f, f'; simpl in Hc, Hr; first [reflexivity | discriminate].
Qed.

Lemma absent_not_present f r : absent f r → present f r = false.
Proof. destruct f; simpl; intros ->; reflexivity. Qed.

(** The cell of a field that is not given lies outside the mapped targets
    unless the license rows reach it. *)
Lemma cell_not_written f r :
  present f r = false → ¬ overrun_by_licenses f r →
  cell_of f ∉ written_cells r.
Proof.
  intros Hp Ho. unfold written_cells. rewrite !not_elem_of_app.
  split; [|split; [|split]].
  - intros (f' & Hin & _)%list_elem_of_bind.
    destruct (present f' r) eqn:Hp'; [|apply elem_of_nil in Hin as []].
    apply list_elem_of_singleton, cell_of_inj in Hin as ->. congruence.
  - destruct (educationHistory r) as [l|]; [|intros []%elem_of_nil].
    intros (i & Hi & Hc)%region_spec. rewrite cell_of_eq in Hc.
    change (u8"A") with [0x41] in Hc. change (u8"B") with [0x42] in Hc.
    change (u8"C") with [0x43] in Hc.
    destruct Hc as [Hc|[Hc|Hc]]; apply cell_inj in Hc as [Hc Hr];
      destruct f; simpl in Hc, Hr; first [discriminate Hc | lia].
  - destruct (workHistory r) as [l|]; [|intros []%elem_of_nil].
    intros (i & Hi & Hc)%region_spec. rewrite cell_of_eq in Hc.
    change (u8"A") with [0x41] in Hc. change (u8"B") with [0x42] in Hc.
    change (u8"C") with [0x43] in Hc.
    destruct Hc as [Hc|[Hc|Hc]]; apply cell_inj in Hc as [Hc Hr];
      destruct f; simpl in Hc, Hr; first [discriminate Hc | lia].
  - destruct (licenses r) as [l|] eqn:El; [|intros []%elem_of_nil].
    intros (i & Hi & Hc)%region_spec. rewrite cell_of_eq in Hc.
    change (u8"I") with [0x49] in Hc. change (u8"J") with [0x4A] in Hc.
    change (u8"K") with [0x4B] in Hc.
    destruct Hc as [Hc|[Hc|Hc]]; apply cell_inj in Hc as [Hc Hr];
      destruct f; simpl in Hc, Hr; try discriminate Hc;
      apply Ho; exists l; (split; [exact El|]); lia.
Qed.

(** *** What an overrun writes *)

Lemma foldl_write_entry_row (c1 c2 c3 : N) :
  c1 ≠ c2 → c1 ≠ c3 →
  ∀ (l : list Entry) (start : N) (ws : worksheet) i e,
    l !! i = Some e →
    (foldl (write_entry [c1] [c2] [c3]) (start, ws) l).2
      !! cell [c1] (start + N.of_nat i)
    = Some (VString (year e)).
Proof.
  intros H12 H13. induction l as [|e0 l IH]; intros start ws i e Hi;
    [discriminate|].
  destruct i as [|i]; simpl in Hi.
  - injection Hi as ->. simpl. rewrite N.add_0_r.
    rewrite foldl_write_entry_frame.
    + rewrite !lookup_insert_ne
        by (intros [? _]%cell_inj; congruence).
      apply lookup_insert_eq.
    + intros j _. repeat split; intros [_ Hr]%cell_inj; lia.
  - simpl. replace (start + N.of_nat (S i)) with (start + 1 + N.of_nat i) by lia.
    apply IH. exact Hi.
Qed.

(** The steps after the license rows leave the cell of a field that is
    not given as the license rows left it. *)
Lemma fill_sheet_after_licenses (r : ExtractedResumeData) (ws : worksheet) f :
  present f r = false →
  (f = F_healthCondition ∨ f = F_hobbies ∨ f = F_nearestStation) →
  fill_sheet r ws !! cell_of f
  = fill_licenses r
      (foldl (λ ws step, step ws) ws
         [ fill_name r; fill_nameKana r; fill_birthDate r; fill_gender r;
           fill_addressKana r; fill_postalCode r; fill_address r;
           fill_phoneNumber r; fill_email r; fill_educationHistory r;
           fill_workHistory r ]) !! cell_of f.
Proof.
  intros Hp Hf. unfold fill_sheet, fill_steps. cbn [foldl].
  assert (∀ g, g ≠ f → cell_of g ≠ cell_of f) as Hne
    by (intros g Hg E; apply Hg, cell_of_inj, E).
  assert (∀ (o : option text) (g : scalar_field) (w : worksheet),
            (g = f → truthy_text o = None) →
            when_text o (λ v, <[cell_of g := VString v]>) w !! cell_of f
            = w !! cell_of f) as Htext.
  { intros o g w Hg. apply when_text_frame. intros v Hv.
    apply lookup_insert_ne, Hne. intros ->. rewrite Hg in Hv; [discriminate|reflexivity]. }
  unfold fill_supportingSpouse.
  rewrite when_defined_frame
    by (intros; apply lookup_insert_ne, (Hne F_supportingSpouse);
        destruct Hf as [->|[->| ->]]; discriminate).
  unfold fill_hasSpouse.
  rewrite when_defined_frame
    by (intros; apply lookup_insert_ne, (Hne F_hasSpouse);
        destruct Hf as [->|[->| ->]]; discriminate).
  unfold fill_dependents.
  rewrite when_defined_frame
    by (intros; apply lookup_insert_ne, (Hne F_dependents);
        destruct Hf as [->|[->| ->]]; discriminate).
  unfold fill_nearestStation.
  rewrite (Htext _ F_nearestStation)
    by (intros <-; simpl in Hp; destruct (truthy_text _); [discriminate|reflexivity]).
  unfold fill_hobbies.
  rewrite (Htext _ F_hobbies)
    by (intros <-; simpl in Hp; destruct (truthy_text _); [discriminate|reflexivity]).
  unfold fill_healthCondition.
  rewrite (Htext _ F_healthCondition)
    by (intros <-; simpl in Hp; destruct (truthy_text _); [discriminate|reflexivity]).
  reflexivity.
Qed.

(** When the license rows reach the cell of a field that is not given,
    the cell holds the year of the license of that row. *)
Lemma overrun_writes_year (r : ExtractedResumeData) (ws : worksheet) f :
  present f r = false → overrun_by_licenses f r →
  ∃ l e, licenses r = Some l
         ∧ l !! N.to_nat (row_of f - 14) = Some e
         ∧ fill_sheet r ws !! cell_of f = Some (VString (year e)).
Proof.
  intros Hp (l & Hl & Hlen).
  assert (f = F_healthCondition ∨ f = F_hobbies ∨ f = F_nearestStation) as Hf
    by (destruct f; try contradiction; auto).
  assert (N.to_nat (row_of f - 14) < length l)%nat as Hi
    by (destruct Hf as [->|[->| ->]]; simpl; lia).
  destruct (lookup_lt_is_Some_2 l _ Hi) as [e He].
  exists l, e. split; [exact Hl|]. split; [exact He|].
  rewrite fill_sheet_after_licenses by assumption.
  unfold fill_licenses, write_rows. rewrite Hl.
  destruct l as [|e0 l]; [simpl in Hi; lia|].
  rewrite cell_of_eq.
  replace (row_of f) with (14 + N.of_nat (N.to_nat (row_of f - 14)))
    by (destruct Hf as [->|[->| ->]]; reflexivity).
  replace (col_of f) with 0x49 by (destruct Hf as [->|[->| ->]]; reflexivity).
  apply (foldl_write_entry_row 0x49 0x4A 0x4B); [discriminate|discriminate|].
  exact He.
Qed.

(** C5, as stated, fails: healthCondition is absent and its cell I17 is
    overwritten by the year of the fourth license. *)
Lemma C5_counterexample_license_overrun :
  healthCondition four_licenses = None
  ∧ template_I17 !! u8"I17" = Some (VString u8"良好")
  ∧ fill_sheet four_licenses template_I17 !! u8"I17" = Some (VString u8"2018").
Proof. vm_compute. repeat split; reflexivity. Qed.

(** C5, amended.  A cell outside the mapped targets of the fields the
    record gives keeps the template's value; in particular the cell of a
    field that is absent (or empty) is untouched unless the license rows
    reach it, which happens to I17, I18 and I19 from the fourth, fifth and
    sixth license on, and the cell then holds the year of that license;
    and a list that is absent or empty has no target, so no row of its
    region is written on its account. *)
Theorem C5_filler_frame (r : ExtractedResumeData) (ws : worksheet) :
  (∀ a : text, a ∉ written_cells r → fill_sheet r ws !! a = ws !! a)
  ∧ (∀ f, present f r = false → ¬ overrun_by_licenses f r →
          fill_sheet r ws !! cell_of f = ws !! cell_of f)
  ∧ (∀ f, present f r = false → overrun_by_licenses f r →
          ∃ l e, licenses r = Some l
                 ∧ l !! N.to_nat (row_of f - 14) = Some e
                 ∧ fill_sheet r ws !! cell_of f = Some (VString (year e)))
  ∧ (∀ f, absent f r → present f r = false)
  ∧ (∀ c1 c2 c3 start o, o = None ∨ o = Some [] →
       write_rows c1 c2 c3 start o ws = ws ∧ region c1 c2 c3 start o = [])
  ∧ (∀ c1 c2 c3 start l (a : text),
       a ∈ region c1 c2 c3 start (Some l)
       ↔ ∃ i, (i < length l)%nat
              ∧ (a = cell c1 (start + N.of_nat i)
                 ∨ a = cell c2 (start + N.of_nat i)
                 ∨ a = cell c3 (start + N.of_nat i))).
Proof.
  split; [|split; [|split; [|split; [|split]]]].
  - intros a. apply fill_sheet_frame.
  - intros f Hp Ho. apply fill_sheet_frame, cell_not_written; assumption.
  - intros f. apply overrun_writes_year.
  - intros f. apply absent_not_present.
  - intros c1 c2 c3 start o [->| ->]; split; reflexivity.
  - intros. apply region_spec.
Qed.

Lemma C5_witness :
  fill_sheet three_licenses template_I17 !! cell_of F_healthCondition
  = template_I17 !! cell_of F_healthCondition.
Proof.
  apply (proj1 (proj2 (C5_filler_frame three_licenses template_I17))
           F_healthCondition).
  - reflexivity.
  - intros (l & [= <-] & Hlt). simpl in Hlt. lia.
Defined.


(** ** The history store *)

(** The world after some lines were logged. *)
Lemma world_eta (w : World) : {| store := store w; console := console w |} = w.
Proof. destruct w; reflexivity. Qed.

(** *** The callbacks of find and filter *)

Lemma null_cases (l : list item) : Null ∈ l ∨ Null ∉ l.
Proof.
  induction l as [|x l [IH|IH]].
  - right. intros []%elem_of_nil.
  - left. right. exact IH.
  - destruct x; try (left; left);
      right; intros [[=]|H]%elem_of_cons; contradiction.
Qed.

Lemma null_or_not (x : item) : x = Null ∨ x ≠ Null.
Proof. destruct x; auto; right; discriminate. Qed.

Lemma item_id_own (x : item) : x ≠ Null → item_id x = Ok (own_id x).
Proof. destruct x; [reflexivity|contradiction|reflexivity|reflexivity]. Qed.

Lemma not_null_cons (x : item) (l : list item) :
  (Null ∉ x :: l) ↔ x ≠ Null ∧ (Null ∉ l).
Proof.
  rewrite not_elem_of_cons. split; intros [H1 H2]; split; auto.
Qed.

(** The filter throws on null and is [List.filter] otherwise. *)
Lemma filter_by_id_ok (id0 : text) (l : list item) :
  Null ∉ l → filter_by_id id0 l = Ok (List.filter (other_than id0) l).
Proof.
  induction l as [|x l IH]; [reflexivity|].
  intros [Hx Hl]%not_null_cons. cbn [filter_by_id List.filter].
  rewrite (item_id_own x Hx), (IH Hl). unfold other_than.
  unfold mbind, outcome_bind.
  destruct (bool_decide (own_id x = Some id0)); reflexivity.
Qed.

Lemma filter_by_id_null (id0 : text) (l : list item) :
  Null ∈ l → filter_by_id id0 l = Throw u8"TypeError".
Proof.
  induction l as [|x l IH]; [intros []%elem_of_nil|].
  intros [<-|H]%elem_of_cons; [reflexivity|].
  cbn [filter_by_id]. rewrite (IH H).
  destruct x; reflexivity.
Qed.


Lemma find_by_id_None (id0 : text) (l : list item) :
  find_by_id id0 l = Ok None
  ↔ (Null ∉ l) ∧ ∀ y, y ∈ l → own_id y ≠ Some id0.
Proof.
  induction l as [|y l IH].
  - split; [|reflexivity]. intros _. split; [intros []%elem_of_nil|intros ? []%elem_of_nil].
  - cbn [find_by_id]. destruct (null_or_not y) as [->|Hy].
    + split; [discriminate|]. intros [Hn _]. exfalso. apply Hn. left.
    + rewrite (item_id_own y Hy). unfold mbind, outcome_bind.
      destruct (bool_decide (own_id y = Some id0)) eqn:E.
      * apply bool_decide_eq_true in E. split; [discriminate|].
        intros [_ H]. exfalso. apply (H y); [left|exact E].
      * apply bool_decide_eq_false in E. rewrite IH, not_null_cons. split.
        -- intros [Hn Hi]. split; [auto|].
           intros z [->|Hz]%elem_of_cons; auto.
        -- intros [[_ Hn] Hi]. split; [exact Hn|].
           intros z Hz. apply Hi. right. exact Hz.
Qed.

Lemma find_by_id_Throw (id0 : text) (l : list item) (e : text) :
  find_by_id id0 l = Throw e
  ↔ e = u8"TypeError"
    ∧ ∃ l1 l2, l = l1 ++ Null :: l2
               ∧ (Null ∉ l1) ∧ ∀ y, y ∈ l1 → own_id y ≠ Some id0.
Proof.
  induction l as [|y l IH].
  - split; [discriminate|]. intros (_ & l1 & l2 & H & _). destruct l1; discriminate.
  - cbn [find_by_id]. destruct (null_or_not y) as [->|Hy].
    + split.
      * intros [= <-]. split; [reflexivity|]. exists [], l.
        split; [reflexivity|]. split; [intros []%elem_of_nil|intros ? []%elem_of_nil].
      * intros (-> & _). reflexivity.
    + rewrite (item_id_own y Hy). unfold mbind, outcome_bind.
      destruct (bool_decide (own_id y = Some id0)) eqn:E.
      * apply bool_decide_eq_true in E. split; [discriminate|].
        intros (_ & [|z l1] & l2 & H & _ & Hi); simplify_eq/=.
        exfalso. apply (Hi z); [left|exact E].
      * apply bool_decide_eq_false in E. rewrite IH. split.
        -- intros (-> & l1 & l2 & -> & Hn & Hi). split; [reflexivity|].
           exists (y :: l1), l2. split; [reflexivity|]. split.
           ++ apply not_null_cons. auto.
           ++ intros z [->|Hz]%elem_of_cons; auto.
        -- intros (-> & [|z l1] & l2 & H & Hn & Hi); simplify_eq/=.
           split; [reflexivity|]. exists l1, l2. split; [reflexivity|].
           apply not_null_cons in Hn as [_ Hn]. split; [exact Hn|].
           intros u Hu. apply Hi. right. exact Hu.
Qed.

(** *** What each function of the store does *)

Lemma getStoredOCRResults_run env w :
  getStoredOCRResults env w = (Ok (read_value env w), after_read env w).
Proof.
  unfold getStoredOCRResults, try_catch, read_value, after_read, getItem,
    mbind, M_bind, mret, M_ret, console_error, JSON_parse, pure, read_log,
    read_fails, msg_read.
  destruct (getItem_throws env); [reflexivity|].
  destruct (store w) as [[v|[|x raw]]|] eqn:Es; simpl;
    rewrite ?app_nil_r, <- ?Es, ?world_eta; reflexivity.
Qed.

Lemma saveOCRResult_run env result filename w :
  saveOCRResult env result filename w
  = match spread_of (read_value env w) with
    | Some l =>
        (Ok (new_record env result filename),
         if setItem_throws env
         then {| store := store w;
                 console := console w ++ read_log env w ++ [msg_save] |}
         else {| store := Some (Json (JArray (take 10 (Rec (new_record env result filename)
                                                       :: l))));
                 console := console w ++ read_log env w |})
    | None => (Throw u8"TypeError", after_read env w)
    end.
Proof.
  unfold saveOCRResult, mbind at 1, M_bind at 1.
  rewrite getStoredOCRResults_run.
  fold (new_record env result filename).
  destruct (read_value env w) as [l|s|raw]; cbn [spread_of];
    [| |reflexivity];
    unfold spread, try_catch, setItem, console_error, mbind, M_bind, mret,
      M_ret, msg_save, after_read;
    destruct (setItem_throws env); simpl; rewrite <- ?(assoc_L (++));
    reflexivity.
Qed.

Lemma getStoredOCRResultById_run env id0 w :
  getStoredOCRResultById env id0 w
  = (match read_value env w with
     | JArray l => find_by_id id0 l
     | JString _ | JOther _ => Throw u8"TypeError"
     end, after_read env w).
Proof.
  unfold getStoredOCRResultById, mbind, M_bind.
  rewrite getStoredOCRResults_run.
  destruct (read_value env w); reflexivity.
Qed.

Lemma deleteStoredOCRResult_run env id0 w :
  deleteStoredOCRResult env id0 w
  = let failed := (Ok false, {| store := store w;
                                console := console w ++ read_log env w
                                           ++ [msg_delete] |}) in
    match read_value env w with
    | JArray l =>
        match filter_by_id id0 l with
        | Ok filtered =>
            if (length l =? length filtered)%nat
            then (Ok false, after_read env w)
            else if setItem_throws env then failed
            else (Ok true, {| store := Some (Json (JArray filtered));
                              console := console w ++ read_log env w |})
        | Throw _ => failed
        end
    | JString _ | JOther _ => failed
    end.
Proof.
  unfold deleteStoredOCRResult, try_catch at 1, mbind at 1, M_bind at 1.
  rewrite getStoredOCRResults_run. cbv zeta.
  unfold after_read, msg_delete.
  destruct (read_value env w) as [l|s|raw];
    try (unfold js_filter, pure, console_error, mbind, M_bind, mret, M_ret;
         simpl; rewrite <- ?(assoc_L (++)); reflexivity).
  unfold js_filter, pure, mbind at 1, M_bind at 1.
  destruct (filter_by_id id0 l) as [filtered|e];
    [|unfold console_error, mbind, M_bind, mret, M_ret; simpl;
      rewrite <- ?(assoc_L (++)); reflexivity].
  cbn [js_length].
  destruct (length l =? length filtered)%nat; [reflexivity|].
  unfold setItem, console_error, mbind, M_bind, mret, M_ret.
  destruct (setItem_throws env); simpl; rewrite <- ?(assoc_L (++)); reflexivity.
Qed.

Lemma clearAllStoredOCRResults_run env w :
  clearAllStoredOCRResults env w
  = if removeItem_throws env
    then (Ok false, {| store := store w; console := console w ++ [msg_clear] |})
    else (Ok true, {| store := None; console := console w |}).
Proof.
  unfold clearAllStoredOCRResults, try_catch, removeItem, console_error,
    mbind, M_bind, mret, M_ret, msg_clear.
  destruct (removeItem_throws env); reflexivity.
Qed.

(** The value read when the read fails, and when it does not. *)
Lemma read_value_failed env w :
  getItem_throws env = true ∨ (∃ raw, store w = Some (Unparsable raw)) →
  read_value env w = JArray [].
Proof.
  unfold read_value. intros [->|[raw ->]]; [reflexivity|].
  destruct (getItem_throws env); reflexivity.
Qed.

Lemma read_value_other env w raw :
  read_value env w = JOther raw →
  getItem_throws env = false ∧ store w = Some (Json (JOther raw))
  ∧ read_log env w = [].
Proof.
  unfold read_value, read_log, read_fails.
  destruct (getItem_throws env); [discriminate|].
  destruct (store w) as [[v|?]|]; try discriminate.
  intros ->. auto.
Qed.

Lemma read_value_stored env w v :
  read_value env w = v → v ≠ JArray [] →
  getItem_throws env = false ∧ store w = Some (Json v) ∧ read_log env w = [].
Proof.
  unfold read_value, read_log, read_fails.
  destruct (getItem_throws env); [congruence|].
  destruct (store w) as [[v'|?]|]; try congruence.
  intros -> _. auto.
Qed.

Lemma read_value_array env w l :
  read_value env w = JArray l →
  l = [] ∨ (getItem_throws env = false ∧ stored_list w = l).
Proof.
  unfold read_value, stored_list.
  destruct (getItem_throws env); [intros [= <-]; auto|].
  destruct (store w) as [[v|?]|]; try (intros [= <-]; auto).
  intros ->. auto.
Qed.

Lemma filter_length_eq {X} (f : X → bool) (l : list X) :
  (length l =? length (List.filter f l))%nat = true
  ↔ ∀ x, x ∈ l → f x = true.
Proof.
  rewrite Nat.eqb_eq. induction l as [|x l IH]; simpl.
  - split; [intros _ x []%elem_of_nil | reflexivity].
  - pose proof (List.filter_length_le f l) as Hle.
    destruct IH as [IH1 IH2]. destruct (f x) eqn:Hx; simpl.
    + split.
      * intros [= H]. intros y [->|?]%elem_of_cons; auto.
      * intros H. f_equal. apply IH2. intros y Hy. apply H. right. exact Hy.
    + split; [lia|]. intros H. specialize (H x ltac:(left)). congruence.
Qed.

Lemma all_or_some {X} (f : X → bool) (l : list X) :
  (∀ x, x ∈ l → f x = true) ∨ (∃ x, x ∈ l ∧ f x = false).
Proof.
  induction l as [|x l [IH|(y & Hy & Hf)]].
  - left. intros x []%elem_of_nil.
  - destruct (f x) eqn:Hx.
    + left. intros y [->|?]%elem_of_cons; auto.
    + right. exists x. split; [left|exact Hx].
  - right. exists y. split; [right|]; assumption.
Qed.

Lemma take_10_cons {X} (x : X) (l : list X) : take 10 (x :: l) = x :: take 9 l.
Proof. reflexivity. Qed.

(** The filter drops an element exactly when the list holds the id. *)
Lemma filter_shorter_iff (id0 : text) (l : list item) :
  (length l =? length (List.filter (other_than id0) l))%nat = false
  ↔ holds_id id0 l.
Proof.
  rewrite <- not_true_iff_false, filter_length_eq. split.
  - intros H. destruct (all_or_some (other_than id0) l) as [Ha|(x & Hx & Hf)];
      [contradiction|].
    exists x. split; [exact Hx|]. unfold other_than in Hf.
    apply negb_false_iff, bool_decide_eq_true in Hf. exact Hf.
  - intros (x & Hx & Hid) H. specialize (H x Hx). unfold other_than in H.
    apply negb_true_iff, bool_decide_eq_false in H. contradiction.
Qed.

(** *** The order of the history *)

Lemma elem_of_take_list {X} (n : nat) (l : list X) (x : X) :
  x ∈ take n l → x ∈ l.
Proof.
  intros (i & Hi & _)%elem_of_take. eapply list_elem_of_lookup_2, Hi.
Qed.

Lemma newest_first_take (n : nat) (rs : list StoredOCRResult) :
  newest_first rs → newest_first (take n rs).
Proof.
  revert n. induction rs as [|r rs IH]; intros [|n]; simpl; auto.
  intros [Hr Hrs]. split; [|apply IH, Hrs].
  intros r' Hr'. apply Hr. eapply elem_of_take_list, Hr'.
Qed.

Lemma newest_first_last (older : list StoredOCRResult) (oldest r : StoredOCRResult) :
  newest_first (older ++ [oldest]) → r ∈ older → timestamp oldest ≤ timestamp r.
Proof.
  induction older as [|x older IH]; simpl; [intros _ []%elem_of_nil|].
  intros [Hx Hs] [->|Hr]%elem_of_cons; [|apply IH; assumption].
  apply Hx. apply elem_of_app. right. left.
Qed.

(** The two outcomes of a deletion. *)
Lemma delete_outcome (env : Env) (id0 : text) (w : World) :
  ∃ b w',
    deleteStoredOCRResult env id0 w = (Ok b, w')
    ∧ if b
      then holds_id id0 (stored_list w) ∧ (Null ∉ stored_list w)
           ∧ getItem_throws env = false ∧ setItem_throws env = false
           ∧ store w' = Some (Json (JArray (List.filter (other_than id0)
                                              (stored_list w))))
      else store w' = store w
           ∧ ¬ (holds_id id0 (stored_list w) ∧ (Null ∉ stored_list w)
                ∧ getItem_throws env = false ∧ setItem_throws env = false).
Proof.
  rewrite deleteStoredOCRResult_run. cbv zeta.
  destruct (read_value env w) as [l|s|raw] eqn:Ev.
  - destruct (read_value_array env w l Ev) as [->|[Hg <-]].
    + eexists false, _. split; [reflexivity|]. split; [reflexivity|].
      intros ((x & Hx & _) & _ & Hg & _).
      unfold read_value in Ev. rewrite Hg in Ev. unfold stored_list in Hx.
      destruct (store w) as [[[l'| |]|]|]; try (apply elem_of_nil in Hx as []).
      injection Ev as ->. apply elem_of_nil in Hx as [].
    + destruct (null_cases (stored_list w)) as [Hn|Hn].
      * rewrite (filter_by_id_null _ _ Hn). eexists false, _.
        split; [reflexivity|]. split; [reflexivity|].
        intros (_ & Hn' & _). contradiction.
      * rewrite (filter_by_id_ok _ _ Hn).
        destruct (length _ =? _)%nat eqn:El.
        -- eexists false, _. split; [reflexivity|]. split; [reflexivity|].
           intros (Hh & _). apply filter_shorter_iff in Hh. congruence.
        -- apply filter_shorter_iff in El.
           destruct (setItem_throws env) eqn:Hs.
           ++ eexists false, _. split; [reflexivity|]. split; [reflexivity|].
              intros (_ & _ & _ & [=]).
           ++ eexists true, _. split; [reflexivity|]. auto.
  - assert (stored_list w = []) as Hl.
    { unfold read_value in Ev. unfold stored_list.
      destruct (getItem_throws env); [discriminate|].
      destruct (store w) as [[v|?]|]; try discriminate. rewrite Ev. reflexivity. }
    eexists false, _. split; [reflexivity|]. split; [reflexivity|].
    rewrite Hl. intros ((x & []%elem_of_nil & _) & _).
  - assert (stored_list w = []) as Hl.
    { unfold read_value in Ev. unfold stored_list.
      destruct (getItem_throws env); [discriminate|].
      destruct (store w) as [[v|?]|]; try discriminate. rewrite Ev. reflexivity. }
    eexists false, _. split; [reflexivity|]. split; [reflexivity|].
    rewrite Hl. intros ((x & []%elem_of_nil & _) & _).
Qed.

(** *** The claims about the store *)

(** C7.  A failure of a storage operation never reaches the caller.
    When the read fails (getItem throws, or the stored text does not
    parse) every function returns: getStoredOCRResults the empty list,
    saveOCRResult the new record, the lookup null, the deletion false.
    When the write fails (setItem throws, in a call that gets as far as
    the write) saveOCRResult returns the new record all the same and the
    deletion returns false, the store is left as it was and the failure
    is logged.  getStoredOCRResults, deleteStoredOCRResult and
    clearAllStoredOCRResults return whatever the storage does and holds.

    What can reach a caller is no failure of a storage operation: the
    TypeError of saveOCRResult on a stored text that parses to a value
    that cannot be spread, and of getStoredOCRResultById on one that
    parses to a value without [find] or to an array with null in it;
    every storage operation of such a call has succeeded, and the call
    writes and logs nothing. *)
Theorem C7_storage_failures_contained (env : Env) (w : World)
    (result : OCRResponse) (filename id0 : text) :
  (getItem_throws env = true ∨ (∃ raw, store w = Some (Unparsable raw)) →
   (∃ w', getStoredOCRResults env w = (Ok (JArray []), w'))
   ∧ (∃ w', saveOCRResult env result filename w
            = (Ok (new_record env result filename), w')
            ∧ (setItem_throws env = true → store w' = store w))
   ∧ (∃ w', getStoredOCRResultById env id0 w = (Ok None, w'))
   ∧ (∃ w', deleteStoredOCRResult env id0 w = (Ok false, w')))
  ∧ (setItem_throws env = true →
     (∀ l, spread_of (read_value env w) = Some l →
        ∃ w', saveOCRResult env result filename w
              = (Ok (new_record env result filename), w')
              ∧ store w' = store w
              ∧ console w' = console w ++ read_log env w ++ [msg_save])
     ∧ (∃ w', deleteStoredOCRResult env id0 w = (Ok false, w')
              ∧ store w' = store w))
  ∧ (∃ v w', getStoredOCRResults env w = (Ok v, w'))
  ∧ (∃ b w', deleteStoredOCRResult env id0 w = (Ok b, w'))
  ∧ (∃ b w', clearAllStoredOCRResults env w = (Ok b, w'))
  ∧ (∀ e w', saveOCRResult env result filename w = (Throw e, w') →
       e = u8"TypeError" ∧ w' = w
       ∧ getItem_throws env = false
       ∧ ∃ raw, store w = Some (Json (JOther raw)))
  ∧ (∀ e w', getStoredOCRResultById env id0 w = (Throw e, w') →
       e = u8"TypeError" ∧ w' = w
       ∧ getItem_throws env = false
       ∧ ∃ v, store w = Some (Json v)
              ∧ ((∀ l, v ≠ JArray l) ∨ ∃ l, v = JArray l ∧ Null ∈ l)).
Proof.
  rewrite getStoredOCRResults_run, saveOCRResult_run, getStoredOCRResultById_run,
    deleteStoredOCRResult_run, clearAllStoredOCRResults_run. cbv zeta.
  split; [|split; [|split; [|split; [|split; [|split]]]]].
  - intros Hf. rewrite (read_value_failed env w Hf). cbn [spread_of filter_by_id
      find_by_id length Nat.eqb].
    split; [eauto|]. split; [|split; eauto].
    destruct (setItem_throws env); eexists; (split; [reflexivity|]);
      [reflexivity|discriminate].
  - intros ->. split.
    + intros l ->. eexists. repeat split.
    + destruct (read_value env w) as [l| |]; [|eexists; split; reflexivity..].
      destruct (filter_by_id id0 l) as [filtered|]; [|eexists; split; reflexivity].
      destruct (length l =? length filtered)%nat; eexists; split; reflexivity.
  - eauto.
  - destruct (read_value env w) as [l| |]; [|eauto..].
    destruct (filter_by_id id0 l) as [filtered|]; [|eauto].
    destruct (length l =? length filtered)%nat; [eauto|].
    destruct (setItem_throws env); eauto.
  - destruct (removeItem_throws env); eauto.
  - intros e w'. destruct (read_value env w) as [l|s|raw] eqn:Ev;
      cbn [spread_of]; try discriminate.
    intros [= <- <-].
    destruct (read_value_other env w raw Ev) as (Hg & Hs & Hl).
    unfold after_read. rewrite Hl, app_nil_r, world_eta. eauto.
  - intros e w' [= He <-].
    assert (read_value env w ≠ JArray []) as Hne.
    { intros E. rewrite E in He. discriminate. }
    destruct (read_value_stored env w _ eq_refl Hne) as (Hg & Hs & Hl).
    unfold after_read. rewrite Hl, app_nil_r, world_eta.
    assert (e = u8"TypeError") as ->.
    { destruct (read_value env w) as [l| |]; [|congruence..].
      apply find_by_id_Throw in He as [-> _]. reflexivity. }
    split; [reflexivity|]. split; [reflexivity|]. split; [exact Hg|].
    exists (read_value env w). split; [exact Hs|].
    destruct (read_value env w) as [l| |]; [right|left; discriminate..].
    exists l. split; [reflexivity|].
    apply find_by_id_Throw in He as (_ & l1 & l2 & -> & _).
    apply elem_of_app. right. left.
Qed.

(** C10, as stated, fails on a stored array that holds null before a
    record with the id: the filter throws on the null, the function
    catches that and returns false, although the record is there and the
    storage lets the read and the write through. *)
Lemma C10_counterexample_null_element :
  let call := deleteStoredOCRResult env_ok u8"x1" null_before_record in
  call.1 = Ok false
  ∧ store call.2 = store null_before_record
  ∧ stored_list null_before_record = [Null; Rec record_x1]
  ∧ id record_x1 = u8"x1"
  ∧ getItem_throws env_ok = false ∧ setItem_throws env_ok = false.
Proof. vm_compute. repeat split; reflexivity. Qed.

(** C10, amended.  deleteStoredOCRResult always returns.  It returns true
    exactly when the store holds an array with an element that has the
    id and without null, and the storage lets the read and the write
    through; the store then holds the array without the elements of that
    id, the others in their order.  On false the store is unchanged. *)
Theorem C10_delete_iff_present (env : Env) (id0 : text) (w : World) :
  ∃ b w',
    deleteStoredOCRResult env id0 w = (Ok b, w')
    ∧ (b = true
       ↔ (∃ x, x ∈ stored_list w ∧ own_id x = Some id0)
         ∧ (Null ∉ stored_list w)
         ∧ getItem_throws env = false ∧ setItem_throws env = false)
    ∧ (b = true →
       store w' = Some (Json (JArray (List.filter (other_than id0)
                                        (stored_list w)))))
    ∧ (b = false → store w' = store w).
Proof.
  destruct (delete_outcome env id0 w) as (b & w' & E & H).
  exists b, w'. split; [exact E|]. destruct b.
  - destruct H as (Hh & Hn & Hg & Hs & Hst).
    split; [|split; [intros _; exact Hst|discriminate]].
    split; [intros _|reflexivity]. auto.
  - destruct H as [Hst Hno].
    split; [|split; [discriminate|intros _; exact Hst]].
    split; [discriminate|]. intros Hc. contradiction.
Qed.

(** C4, as stated, fails when the write is refused: the call returns the
    new record and the stored list does not hold it. *)
Lemma C4_counterexample_write_refused :
  let call := saveOCRResult env_quota_exceeded some_result u8"a.pdf" empty_world in
  call.1 = Ok (new_record env_quota_exceeded some_result u8"a.pdf")
  ∧ stored_list call.2 = []
  ∧ stored_list call.2 !! 0%nat = None.
Proof. vm_compute. repeat split; reflexivity. Qed.

(** C4, amended.  A call to saveOCRResult returns the new record unless
    the value it read cannot be spread; then it throws and stores
    nothing.  After a call that returns and whose write succeeds, the
    stored list is the new record followed by the first nine elements
    that were read: at most 10 entries, the new one at index 0, the
    others in their order one index further, and of 10 elements read the
    last one, at the highest index, is the one dropped.  The element at
    the highest index is the one with the earliest timestamp when the
    records read are ordered newest first and none is later than the
    clock of the save; the stored list is then ordered newest first
    again.  When the write fails the store is unchanged.  In every case a
    store of at most 10 entries stays one. *)
Theorem C4_save_prepends_and_caps (env : Env) (result : OCRResponse)
    (filename : text) (w : World) :
  let new := new_record env result filename in
  (∀ l, spread_of (read_value env w) = Some l →
     ∃ w', saveOCRResult env result filename w = (Ok new, w')
       ∧ (setItem_throws env = false →
          stored_list w' = Rec new :: take 9 l
          ∧ (length (stored_list w') ≤ 10)%nat
          ∧ stored_list w' !! 0%nat = Some (Rec new)
          ∧ (∀ i, (i < 9)%nat → stored_list w' !! S i = l !! i)
          ∧ (∀ older oldest, l = older ++ [oldest] → length older = 9%nat →
               stored_list w' = Rec new :: older)
          ∧ (∀ rs, l = Rec <$> rs → newest_first rs →
               (∀ r, r ∈ rs → timestamp r ≤ timestamp_now env) →
               stored_list w' = Rec <$> (new :: take 9 rs)
               ∧ newest_first (new :: take 9 rs)
               ∧ ∀ older oldest, rs = older ++ [oldest] → length older = 9%nat →
                   take 9 rs = older
                   ∧ ∀ r, r ∈ new :: older → timestamp oldest ≤ timestamp r))
       ∧ (setItem_throws env = true → store w' = store w))
  ∧ (spread_of (read_value env w) = None →
     ∃ w', saveOCRResult env result filename w = (Throw u8"TypeError", w')
           ∧ store w' = store w)
  ∧ ((length (stored_list w) ≤ 10)%nat →
     (length (stored_list (saveOCRResult env result filename w).2) ≤ 10)%nat).
Proof.
  intros new. rewrite saveOCRResult_run. fold new.
  split; [|split].
  - intros l ->. eexists. split; [reflexivity|]. split.
    + intros ->. unfold stored_list. cbn [store]. rewrite take_10_cons.
      split; [reflexivity|]. split; [simpl; rewrite length_take; lia|].
      split; [reflexivity|]. split.
      { intros i Hi. simpl. apply lookup_take_lt. exact Hi. }
      split.
      { intros older oldest -> H9. f_equal. rewrite <- H9.
        apply take_app_length. }
      intros rs -> Hs Hnow. split.
      { rewrite fmap_cons, fmap_take. reflexivity. }
      split.
      { split; [|apply newest_first_take, Hs].
        intros r' Hr'. apply Hnow. eapply elem_of_take_list, Hr'. }
      intros older oldest -> H9.
      assert (take 9 (older ++ [oldest]) = older) as Ht
        by (rewrite <- H9; apply take_app_length).
      split; [exact Ht|].
      intros r [->|Hr]%elem_of_cons.
      * apply Hnow. apply elem_of_app. right. left.
      * eapply newest_first_last; eassumption.
    + intros ->. reflexivity.
  - intros ->. eexists. split; reflexivity.
  - intros Hle. destruct (spread_of (read_value env w)) as [l|]; [|exact Hle].
    cbn [snd]. destruct (setItem_throws env); [exact Hle|].
    unfold stored_list. cbn [store]. rewrite length_take. lia.
Qed.

Lemma C4_witness :
  ∃ w',
    saveOCRResult env_ok some_result u8"a.pdf" empty_world
    = (Ok (new_record env_ok some_result u8"a.pdf"), w')
    ∧ stored_list w' = [Rec (new_record env_ok some_result u8"a.pdf")].
Proof.
  destruct (proj1 (C4_save_prepends_and_caps env_ok some_result u8"a.pdf"
                     empty_world) [] eq_refl)
    as (w' & E & H & _).
  exists w'. split; [exact E|].
  destruct (H eq_refl) as (Hl & _). exact Hl.
Defined.

Lemma C10_witness :
  ∃ w', deleteStoredOCRResult env_ok u8"x1" two_records = (Ok true, w')
        ∧ stored_list w' = [Rec record_x0].
Proof.
  destruct (C10_delete_iff_present env_ok u8"x1" two_records)
    as (b & w' & E & Hb & Ht & _).
  assert (b = true) as ->.
  { apply Hb. split; [|split; [|split; reflexivity]].
    - exists (Rec record_x1). split; [left|reflexivity].
    - intros [[=]|[[=]|[]%elem_of_nil]%elem_of_cons]%elem_of_cons. }
  exists w'. split; [exact E|]. unfold stored_list. rewrite (Ht eq_refl).
  vm_compute. reflexivity.
Defined.


(** *** Repeated saves *)

(** However the storage behaves from call to call, and whether the calls
    return or throw, a history of at most 10 entries never grows beyond
    10. *)
Lemma repeated_saves_bounded (calls : list (Env * OCRResponse * text)) (w : World) :
  (length (stored_list w) ≤ 10)%nat →
  (length (stored_list (foldl save_call w calls)) ≤ 10)%nat.
Proof.
  revert w. induction calls as [|[[env result] filename] calls IH]; intros w Hw;
    [exact Hw|].
  simpl. apply IH. unfold save_call. rewrite saveOCRResult_run.
  destruct (spread_of (read_value env w)) as [l|]; [|exact Hw].
  cbn [snd]. destruct (setItem_throws env); [exact Hw|].
  unfold stored_list. cbn [store]. rewrite length_take. lia.
Qed.

(** The eleventh save evicts the oldest record. *)
Example eleventh_save_evicts_oldest :
  let record n := Rec {| id := N_text n; timestamp := n; filename := u8"f.pdf";
                         result := some_result |} in
  let full := {| store := Some (Json (JArray (record <$> [10; 9; 8; 7; 6; 5; 4; 3; 2; 1])));
                 console := [] |} in
  stored_list (saveOCRResult env_ok some_result u8"g.pdf" full).2
  = Rec (new_record env_ok some_result u8"g.pdf")
    :: (record <$> [10; 9; 8; 7; 6; 5; 4; 3; 2]).
Proof. vm_compute. reflexivity. Qed.

(** A stored text that parses but holds no array: the read returns the
    value as it is, the save and the lookup throw, the deletion logs and
    returns false. *)
Example null_stored_example :
  (getStoredOCRResults env_ok null_stored).1 = Ok (JOther u8"null")
  ∧ saveOCRResult env_ok some_result u8"a.pdf" null_stored
    = (Throw u8"TypeError", null_stored)
  ∧ getStoredOCRResultById env_ok u8"x1" null_stored
    = (Throw u8"TypeError", null_stored)
  ∧ deleteStoredOCRResult env_ok u8"x1" null_stored
    = (Ok false, {| store := store null_stored; console := [msg_delete] |}).
Proof. vm_compute. repeat split; reflexivity. Qed.

(** A stored string is spread into its characters. *)
Example string_stored_example :
  stored_list (saveOCRResult env_ok some_result u8"a.pdf"
                 {| store := Some (Json (JString u8"ab")); console := [] |}).2
  = [Rec (new_record env_ok some_result u8"a.pdf"); Str u8"a"; Str u8"b"].
Proof. vm_compute. reflexivity. Qed.

Example toString36_example : toString36 1700000000000 = u8"loyw3v28"
                           ∧ toString36 0 = u8"0" ∧ toString36 36 = u8"10".
Proof. vm_compute. repeat split; reflexivity. Qed.

(** ** The history store: reads, lookups and what is logged *)

Lemma filter_other_than_free id0 (l : list item) x :
  x ∈ List.filter (other_than id0) l → own_id x ≠ Some id0.
Proof.
  intros Hx%list_elem_of_In%List.filter_In. destruct Hx as [_ Hx].
  unfold other_than in Hx. apply negb_true_iff, bool_decide_eq_false in Hx.
  exact Hx.
Qed.

Lemma filter_no_null (f : item → bool) (l : list item) :
  Null ∉ l → Null ∉ List.filter f l.
Proof.
  intros Hn Hx%list_elem_of_In%List.filter_In. destruct Hx as [Hx _].
  apply Hn, list_elem_of_In, Hx.
Qed.

Lemma filter_idempotent {X} (f : X → bool) (l : list X) :
  List.filter f (List.filter f l) = List.filter f l.
Proof.
  induction l as [|y l IH]; simpl; [reflexivity|].
  destruct (f y) eqn:Hy; simpl; [rewrite Hy, IH|]; auto.
Qed.


(** A search in the filtered list finds what a search in the list finds,
    for another id. *)
Lemma find_by_id_filter (id0 id1 : text) (l : list item) :
  id1 ≠ id0 → Null ∉ l →
  find_by_id id1 (List.filter (other_than id0) l) = find_by_id id1 l.
Proof.
  intros Hne. induction l as [|y l IH]; [reflexivity|].
  intros [Hy Hl]%not_null_cons. cbn [List.filter find_by_id].
  rewrite (item_id_own y Hy). unfold mbind, outcome_bind.
  unfold other_than at 1.
  destruct (bool_decide (own_id y = Some id0)) eqn:E0; cbn [negb].
  - apply bool_decide_eq_true in E0.
    rewrite bool_decide_eq_false_2 by (rewrite E0; congruence).
    apply IH, Hl.
  - cbn [find_by_id]. rewrite (item_id_own y Hy). unfold mbind, outcome_bind.
    destruct (bool_decide (own_id y = Some id1)); [reflexivity|apply IH, Hl].
Qed.

(** The world a deletion leaves when it returned true. *)
Lemma deleteStoredOCRResult_true env id0 w w' :
  deleteStoredOCRResult env id0 w = (Ok true, w') →
  getItem_throws env = false ∧ (Null ∉ stored_list w)
  ∧ read_value env w = JArray (stored_list w)
  ∧ w' = {| store := Some (Json (JArray (List.filter (other_than id0)
                                           (stored_list w))));
            console := console w ++ read_log env w |}.
Proof.
  rewrite deleteStoredOCRResult_run. cbv zeta.
  destruct (read_value env w) as [l| |] eqn:Ev; try discriminate.
  destruct (null_cases l) as [Hn|Hn];
    [rewrite (filter_by_id_null _ _ Hn); discriminate|].
  rewrite (filter_by_id_ok _ _ Hn).
  destruct (length l =? _)%nat eqn:El; [discriminate|].
  destruct (setItem_throws env); [discriminate|]. intros [= <-].
  destruct (read_value_array env w l Ev) as [->|[Hg <-]];
    [discriminate El|].
  auto.
Qed.


(** clearAllStoredOCRResults returns true exactly when the storage lets
    the removal through; after that every read returns the empty list,
    every lookup null and every deletion false, whatever the storage does
    then.  When the removal is refused the stored value is unchanged. *)
Theorem clear_then_empty (env : Env) (w : World) :
  ∃ b w',
    clearAllStoredOCRResults env w = (Ok b, w')
    ∧ b = negb (removeItem_throws env)
    ∧ (b = false → store w' = store w)
    ∧ (b = true →
       store w' = None
       ∧ ∀ env' id0,
           (getStoredOCRResults env' w').1 = Ok (JArray [])
           ∧ (getStoredOCRResultById env' id0 w').1 = Ok None
           ∧ (deleteStoredOCRResult env' id0 w').1 = Ok false).
Proof.
  rewrite clearAllStoredOCRResults_run.
  destruct (removeItem_throws env); eexists _, _;
    (split; [reflexivity|]); (split; [reflexivity|]);
    (split; [intros; first [reflexivity|discriminate]|]);
    [discriminate|].
  intros _. split; [reflexivity|]. intros env' id0.
  rewrite getStoredOCRResults_run, getStoredOCRResultById_run,
    deleteStoredOCRResult_run.
  assert (read_value env' {| store := None; console := console w |} = JArray [])
    as -> by (unfold read_value; destruct (getItem_throws env'); reflexivity).
  repeat split.
Qed.

(** After a save that returns and whose write succeeds, a lookup of the
    id of the new record finds that record, whatever the store held
    before (also an element with the same id, or null), provided the
    storage can be read; a read returns the new record followed by the
    first nine elements the save had read. *)
Theorem save_then_lookup (env env' : Env) (result : OCRResponse)
    (filename : text) (w : World) (l : list item) :
  spread_of (read_value env w) = Some l →
  setItem_throws env = false → getItem_throws env' = false →
  let saved := saveOCRResult env result filename w in
  saved.1 = Ok (new_record env result filename)
  ∧ (getStoredOCRResultById env' (generateUniqueId env) saved.2).1
    = Ok (Some (Rec (new_record env result filename)))
  ∧ (getStoredOCRResults env' saved.2).1
    = Ok (JArray (Rec (new_record env result filename) :: take 9 l)).
Proof.
  intros Hl Hs Hg saved. unfold saved.
  rewrite saveOCRResult_run, Hl, Hs. cbn [fst snd].
  rewrite getStoredOCRResultById_run, getStoredOCRResults_run. cbn [fst].
  unfold read_value. rewrite Hg. cbn [store].
  rewrite take_10_cons. cbn [find_by_id item_id id new_record].
  unfold mbind, outcome_bind.
  rewrite bool_decide_eq_true_2 by reflexivity. repeat split.
Qed.

Lemma save_then_lookup_witness :
  (getStoredOCRResultById env_ok (generateUniqueId env_ok)
     (saveOCRResult env_ok some_result u8"a.pdf" two_records).2).1
  = Ok (Some (Rec (new_record env_ok some_result u8"a.pdf"))).
Proof.
  exact (proj1 (proj2 (save_then_lookup env_ok env_ok some_result u8"a.pdf"
                         two_records [Rec record_x1; Rec record_x0]
                         eq_refl eq_refl eq_refl))).
Defined.

(** After a deletion that returned true, a lookup of the deleted id
    returns null and a second deletion of it returns false; the lookup of
    any other id returns what it returned before the deletion. *)
Theorem delete_then_lookup (env env' : Env) (id0 : text) (w w' : World) :
  deleteStoredOCRResult env id0 w = (Ok true, w') →
  (getStoredOCRResultById env' id0 w').1 = Ok None
  ∧ (deleteStoredOCRResult env' id0 w').1 = Ok false
  ∧ ∀ id1, id1 ≠ id0 → getItem_throws env' = false →
      (getStoredOCRResultById env' id1 w').1
      = (getStoredOCRResultById env id1 w).1.
Proof.
  intros (Hg & Hn & Hv & ->)%deleteStoredOCRResult_true.
  set (filtered := List.filter (other_than id0) (stored_list w)).
  assert (Null ∉ filtered) as Hnf by apply filter_no_null, Hn.
  assert (∀ e, read_value e {| store := Some (Json (JArray filtered));
                               console := console w ++ read_log env w |}
               = JArray (if getItem_throws e then [] else filtered)) as Hread.
  { intros e. unfold read_value. destruct (getItem_throws e); reflexivity. }
  split; [|split].
  - rewrite getStoredOCRResultById_run, Hread. cbn [fst].
    apply find_by_id_None. destruct (getItem_throws env').
    + split; [intros []%elem_of_nil|intros ? []%elem_of_nil].
    + split; [exact Hnf|]. intros y Hy. eapply filter_other_than_free, Hy.
  - rewrite deleteStoredOCRResult_run, Hread. cbv zeta.
    destruct (getItem_throws env'); [reflexivity|].
    rewrite (filter_by_id_ok _ _ Hnf). unfold filtered.
    rewrite filter_idempotent, Nat.eqb_refl. reflexivity.
  - intros id1 Hne Hg'. rewrite !getStoredOCRResultById_run, Hread, Hg', Hv.
    cbn [fst]. apply find_by_id_filter; assumption.
Qed.

Lemma delete_then_lookup_witness :
  (getStoredOCRResultById env_ok u8"x1"
     (deleteStoredOCRResult env_ok u8"x1" two_records).2).1 = Ok None.
Proof.
  exact (proj1 (delete_then_lookup env_ok env_ok u8"x1" two_records
                  (deleteStoredOCRResult env_ok u8"x1" two_records).2
                  eq_refl)).
Defined.


(** *** The history list of the page *)


(** *** The result view *)

(** The view saves a result to the history exactly when the extractor
    accepts it.  For a response with at least one page the effect is the
    call of saveOCRResult: it writes and logs what that call does, and
    the TypeError of that call, thrown when the stored text parses to a
    value that cannot be spread, leaves the effect.  For an error object,
    a missing result or a response without pages, on which
    extractResumeData raises, nothing is read, written or logged. *)
Theorem save_effect_agrees_with_extractor (env : Env)
    (ocrResult : OcrResultView.view_result) (filename : text) (w : World) :
  (∀ r d, ocrResult = OcrResultView.Response r →
          extractResumeData (Some r) = Ok d →
          OcrResultView.save_effect env ocrResult filename w
          = (match (saveOCRResult env r filename w).1 with
             | Ok _ => Ok ()
             | Throw e => Throw e
             end, (saveOCRResult env r filename w).2)
          ∧ ((OcrResultView.save_effect env ocrResult filename w).1 = Ok ()
             ↔ is_Some (spread_of (read_value env w))))
  ∧ ((∀ r, ocrResult = OcrResultView.Response r →
           ∃ msg, extractResumeData (Some r) = Throw msg) →
     OcrResultView.save_effect env ocrResult filename w = (Ok (), w)).
Proof.
  split.
  - intros r d -> (r' & p & ps & [= <-] & E & _)%extractResumeData_inv.
    unfold OcrResultView.save_effect. rewrite E.
    unfold mbind, M_bind. rewrite saveOCRResult_run.
    destruct (spread_of (read_value env w)) as [l|]; cbn [fst snd].
    + split; [reflexivity|]. split; eauto.
    + split; [reflexivity|]. split; [discriminate|]. intros [? [=]].
  - intros H. destruct ocrResult as [| |r]; try reflexivity.
    destruct (H r eq_refl) as [msg Hm]. unfold OcrResultView.save_effect.
    unfold extractResumeData in Hm.
    destruct (pages r) as [[|p ps]|]; try reflexivity.
    destruct (extractFields_total (allText_of (p :: ps))) as [d Hd]. congruence.
Qed.

(** *** Identifiers *)

Lemma undigit36_digit36 d : d < 36 → undigit36 (digit36 d) = d.
Proof.
  intros Hd. unfold undigit36, digit36.
  destruct (N.ltb_spec d 10).
  - replace ((48 <=? 48 + d) && (48 + d <=? 57)) with true; [lia|].
    symmetry. apply andb_true_intro. split; apply N.leb_le; lia.
  - replace ((48 <=? 97 + (d - 10)) && (97 + (d - 10) <=? 57)) with false; [lia|].
    symmetry. apply andb_false_intro2, N.leb_gt. lia.
Qed.

Lemma digit36_base36 d : d < 36 → is_base36 (digit36 d) = true.
Proof.
  intros Hd. unfold is_base36, digit36. destruct (N.ltb_spec d 10).
  - apply orb_true_intro. left. apply andb_true_intro.
    split; apply N.leb_le; lia.
  - apply orb_true_intro. right. apply andb_true_intro.
    split; apply N.leb_le; lia.
Qed.

Lemma div36_lt n f : n < 2 ^ N.succ f → n / 36 < 2 ^ f.
Proof.
  rewrite N.pow_succ_r'. intros Hn.
  apply N.Div0.div_lt_upper_bound. lia.
Qed.

Lemma radix36_value fuel n acc :
  n < 2 ^ N.of_nat fuel →
  value36 (radix36 fuel n acc) = n * 36 ^ N.of_nat (length acc) + value36 acc.
Proof.
  revert n acc. induction fuel as [|fuel IH]; intros n acc Hn.
  - simpl in Hn. assert (n = 0) as -> by lia. reflexivity.
  - cbn [radix36]. pose proof (N.Div0.div_mod n 36) as Hdm.
    pose proof (N.mod_lt n 36 ltac:(lia)) as Hm.
    destruct (N.eqb_spec (n / 36) 0) as [Hz|Hz].
    + cbn [value36]. rewrite undigit36_digit36 by exact Hm.
      rewrite Hz in Hdm. replace (n mod 36) with n by lia. reflexivity.
    + rewrite IH by (apply div36_lt; rewrite <- Nat2N.inj_succ; exact Hn).
      cbn [value36 length]. rewrite undigit36_digit36 by exact Hm.
      rewrite Nat2N.inj_succ, N.pow_succ_r'. 
      set (p := 36 ^ N.of_nat (length acc)) in *.
      rewrite Hdm at 3. lia.
Qed.

Lemma radix36_base36 fuel n acc :
  Forall (λ c, is_base36 c = true) acc →
  Forall (λ c, is_base36 c = true) (radix36 fuel n acc).
Proof.
  revert n acc. induction fuel as [|fuel IH]; intros n acc Hacc; [exact Hacc|].
  cbn [radix36].
  assert (Forall (λ c, is_base36 c = true) (digit36 (n mod 36) :: acc)) as H.
  { constructor; [|exact Hacc]. apply digit36_base36, N.mod_lt. lia. }
  destruct (n / 36 =? 0); [exact H|apply IH, H].
Qed.

Lemma radix36_length (k : nat) : ∀ fuel n acc,
  n < 2 ^ N.of_nat fuel →
  36 ^ N.of_nat k ≤ n < 36 ^ N.of_nat (S k) →
  length (radix36 fuel n acc) = (S k + length acc)%nat.
Proof.
  induction k as [|k IH]; intros fuel n acc Hf [Hlo Hhi].
  - simpl in Hlo, Hhi. destruct fuel as [|fuel]; [simpl in Hf; lia|].
    cbn [radix36]. rewrite (N.div_small n 36) by lia. reflexivity.
  - repeat rewrite Nat2N.inj_succ in Hhi. repeat rewrite N.pow_succ_r' in Hhi.
    rewrite Nat2N.inj_succ, N.pow_succ_r' in Hlo.
    rewrite Nat2N.inj_succ in IH.
    assert (0 < 36 ^ N.of_nat k) as Hpos
      by (apply N.neq_0_lt_0, N.pow_nonzero; lia).
    destruct fuel as [|fuel]; [simpl in Hf; lia|].
    cbn [radix36].
    assert (36 ^ N.of_nat k ≤ n / 36) as Hq
      by (apply N.div_le_lower_bound; lia).
    assert (n / 36 < 36 * 36 ^ N.of_nat k) as Hq'
      by (apply N.Div0.div_lt_upper_bound; lia).
    destruct (N.eqb_spec (n / 36) 0) as [Hz|Hz]; [lia|].
    rewrite (IH fuel (n / 36)).
    + simpl. lia.
    + apply div36_lt. rewrite <- Nat2N.inj_succ. exact Hf.
    + rewrite N.pow_succ_r'. split; assumption.
Qed.

Lemma toString36_fuel n : n < 2 ^ N.of_nat (S (N.to_nat (N.log2 n))).
Proof.
  rewrite Nat2N.inj_succ, N2Nat.id.
  destruct (N.eq_dec n 0) as [->|Hn]; [reflexivity|].
  apply N.log2_spec. lia.
Qed.

(** [n.toString(36)] is a non-empty text of the digits 0-9 and a-z whose
    value in base 36 is [n]: distinct numbers have distinct texts. *)
Theorem toString36_round_trip (n : N) :
  value36 (toString36 n) = n
  ∧ Forall (λ c, is_base36 c = true) (toString36 n)
  ∧ toString36 n ≠ []
  ∧ ∀ m, toString36 m = toString36 n → m = n.
Proof.
  assert (∀ k, value36 (toString36 k) = k) as Hv.
  { intros k. unfold toString36. rewrite radix36_value by apply toString36_fuel.
    simpl. lia. }
  split; [apply Hv|]. split; [apply radix36_base36; constructor|]. split.
  - unfold toString36. cbn [radix36].
    destruct (n / 36 =? 0); [discriminate|].
    intros H. apply (f_equal length) in H. revert H.
    generalize (digit36 (n mod 36)). generalize (n / 36).
    generalize (N.to_nat (N.log2 n)). intros fuel.
    assert (∀ q acc, (length acc ≤ length (radix36 fuel q acc))%nat) as Hle.
    { induction fuel as [|fuel IH]; intros q acc; simpl; [lia|].
      destruct (q / 36 =? 0); [simpl; lia|].
      etransitivity; [|apply IH]. simpl. lia. }
    intros q c H. specialize (Hle q [c]). simpl in Hle. simpl in H. lia.
  - intros m E. rewrite <- (Hv m), E. apply Hv.
Qed.

(** Two identifiers generated at different milliseconds differ, whatever
    their random suffixes, as long as both times have eight digits in
    base 36: from 36^7 ms (June 1972) up to 36^8 ms (May 2059). *)
Theorem generateUniqueId_distinct (env env' : Env) :
  78364164096 ≤ id_now env < 2821109907456 →
  78364164096 ≤ id_now env' < 2821109907456 →
  id_now env ≠ id_now env' →
  generateUniqueId env ≠ generateUniqueId env'.
Proof.
  intros H1 H2 Hne E. unfold generateUniqueId in E.
  assert (∀ n, 78364164096 ≤ n < 2821109907456 →
               length (toString36 n) = 8%nat) as Hlen.
  { intros n Hn. unfold toString36.
    rewrite (radix36_length 7) by (exact Hn || apply toString36_fuel).
    reflexivity. }
  apply app_inj_1 in E as [E _]; [|rewrite !Hlen by assumption; reflexivity].
  apply Hne. apply (toString36_round_trip (id_now env')) in E. exact E.
Qed.

Lemma generateUniqueId_distinct_witness :
  bool_decide
    (generateUniqueId env_ok
     = generateUniqueId
         {| getItem_throws := false; setItem_throws := false;
            removeItem_throws := false; id_now := 1700000000001;
            timestamp_now := 1700000000001; random36 := u8"k3x9q" |})
  = false.
Proof.
  apply bool_decide_eq_false, generateUniqueId_distinct; simpl; lia.
Defined.

(** ** The scalar fields of the extractor *)

(** *** What each step assigns *)

Ltac contact_spec π step :=
  let H := fresh "H" in
  intros H; scalar_field π H; unfold step, when_group, captured;
  destruct (truthy_group _ 1) as [?g|]; simpl;
  [reflexivity | peel π; reflexivity].

Ltac other_spec π step :=
  let H := fresh "H" in
  let d1 := fresh "d" in let d2 := fresh "d" in let d3 := fresh "d" in
  let E1 := fresh "E" in let E2 := fresh "E" in let E3 := fresh "E" in
  intros H;
  apply extractFields_inv in H as (d1 & d2 & d3 & E1 & E2 & E3 & ->);
  unfold other_steps; peel π; unfold step, when_group, captured;
  destruct (truthy_group _ 1) as [?g|]; simpl; [reflexivity|];
  peel π;
  rewrite (frames_section π _ _ _ _ _ E3) by frame;
  rewrite (frames_section π _ _ _ _ _ E2) by frame;
  rewrite (frames_section π _ _ _ _ _ E1) by frame;
  rewrite (frames_contact_steps π) by frame;
  reflexivity.

Lemma name_spec allText d :
  extractFields allText = Ok d → name d = trim <$> captured allText re_name.
Proof. contact_spec name step_name. Qed.

Lemma nameKana_spec allText d :
  extractFields allText = Ok d →
  nameKana d = trim <$> captured allText re_nameKana.
Proof. contact_spec nameKana step_nameKana. Qed.

Lemma gender_spec allText d :
  extractFields allText = Ok d →
  gender d = trim <$> captured allText re_gender.
Proof. contact_spec gender step_gender. Qed.

Lemma phoneNumber_spec allText d :
  extractFields allText = Ok d →
  phoneNumber d = trim <$> captured allText re_phone.
Proof. contact_spec phoneNumber step_phoneNumber. Qed.

Lemma email_spec allText d :
  extractFields allText = Ok d →
  email d = trim <$> captured allText re_email.
Proof. contact_spec email step_email. Qed.

Lemma healthCondition_spec allText d :
  extractFields allText = Ok d →
  healthCondition d = trim <$> captured allText re_health.
Proof. other_spec healthCondition step_healthCondition. Qed.

Lemma hobbies_spec allText d :
  extractFields allText = Ok d →
  hobbies d = trim <$> captured allText re_hobbies.
Proof. other_spec hobbies step_hobbies. Qed.

Lemma nearestStation_spec allText d :
  extractFields allText = Ok d →
  nearestStation d = trim <$> captured allText re_station.
Proof. other_spec nearestStation step_nearestStation. Qed.

Lemma dependents_spec allText d :
  extractFields allText = Ok d →
  dependents d = parseInt10 <$> captured allText re_dependents.
Proof. other_spec dependents step_dependents. Qed.

Lemma hasSpouse_spec allText d :
  extractFields allText = Ok d →
  hasSpouse d = (λ g, includes g u8"あり") <$> captured allText re_spouse.
Proof. other_spec hasSpouse step_hasSpouse. Qed.

Lemma supportingSpouse_spec allText d :
  extractFields allText = Ok d →
  supportingSpouse d
  = (λ g, includes g u8"あり") <$> captured allText re_supportingSpouse.
Proof. other_spec supportingSpouse step_supportingSpouse. Qed.

Lemma addressKana_spec allText d :
  extractFields allText = Ok d → addressKana d = None.
Proof. intros H. absent_field addressKana H. Qed.

(** *** Trimming *)

Lemma trim_spec (s : text) :
  ∃ a b, s = a ++ trim s ++ b ∧ all_spaces a ∧ all_spaces b.
Proof.
  unfold trim, trimStart, trimEnd.
  destruct (drop_while_spec is_space s) as (a & Hs & Ha & _).
  destruct (drop_while_spec is_space (reverse (drop_while is_space s)))
    as (b & Hr & Hb & _).
  exists a, (reverse b). split; [|split; [exact Ha|]].
  - rewrite Hs at 1. f_equal.
    rewrite <- (reverse_involutive (drop_while is_space s)) at 1.
    rewrite Hr at 1. rewrite reverse_app. reflexivity.
  - unfold all_spaces. rewrite Forall_reverse. exact Hb.
Qed.

Lemma trim_Forall (P : N → Prop) (s : text) : Forall P s → Forall P (trim s).
Proof.
  intros H. destruct (trim_spec s) as (a & b & Hs & _). rewrite Hs in H.
  apply Forall_app in H as [_ H]. apply Forall_app in H as [H _]. exact H.
Qed.

Lemma drop_while_none (f : N → bool) (s : text) :
  Forall (λ x, f x = false) s → drop_while f s = s.
Proof. destruct 1 as [|x s Hx _]; simpl; [|rewrite Hx]; reflexivity. Qed.

(** A text without white space is its own trimming. *)
Lemma trim_plain (s : text) : Forall (λ x, is_space x = false) s → trim s = s.
Proof.
  intros H. unfold trim, trimStart, trimEnd.
  rewrite (drop_while_none _ s H), drop_while_none, reverse_involutive;
    [reflexivity|]. apply Forall_reverse, H.
Qed.

Lemma Forall_forallb {X} (f : X → bool) (l : list X) :
  forallb f l = true → Forall (λ x, f x = true) l.
Proof.
  induction l as [|x l IH]; simpl; [constructor|].
  intros [Hx Hl]%andb_prop. constructor; auto.
Qed.

Lemma Forall_forallb_neg {X} (f : X → bool) (l : list X) :
  forallb (λ x, negb (f x)) l = true → Forall (λ x, f x = false) l.
Proof.
  intros H%Forall_forallb. eapply Forall_impl; [exact H|].
  intros x. apply negb_true_iff.
Qed.

(** Decides [labelled_text] on given parts. *)
Lemma labelled_text_intro label cl (t pre cs ws g rest : text) :
  t = pre ++ label ++ cs ++ ws ++ g ++ rest →
  forallb (in_class colons) cs = true → forallb is_space ws = true →
  negb (bool_decide (g = [])) = true → forallb (in_class cl) g = true →
  labelled_text label cl t pre g rest.
Proof.
  intros Ht Hcs Hws Hne Hg. exists cs, ws. split; [exact Ht|].
  split; [apply Forall_forallb, Hcs|]. split; [apply Forall_forallb, Hws|].
  split; [|apply Forall_forallb, Hg].
  apply negb_true_iff, bool_decide_eq_false in Hne. exact Hne.
Qed.

(** *** Labelled expressions *)

(** What a match of a labelled expression at the start of [s] says about
    [s]: the capture is the longest run of units of the class. *)
Lemma labelled_match_here label cl (s rest : text) c :
  match_here (labelled label cl) s = Some (rest, c) →
  ∃ cs ws g,
    s = label ++ cs ++ ws ++ g ++ rest
    ∧ c = <[1%nat := g]> ∅
    ∧ all_colons cs ∧ all_spaces ws
    ∧ g ≠ [] ∧ Forall (λ x, in_class cl x = true) g
    ∧ stops (in_class cl) rest.
Proof.
  unfold match_here, labelled. cbn [run].
  destruct (strip_prefix label s) as [s1|] eqn:E1; [|discriminate].
  apply strip_prefix_spec in E1 as ->.
  intros (cs & s2 & -> & Hcs & _ & _ & E)%rep_sound.
  apply rep_sound in E as (ws & s3 & -> & Hws & _ & _ & E).
  rewrite run_plus_total in E by eauto.
  destruct s3 as [|x s3]; [discriminate|].
  destruct (in_class cl x) eqn:Hx; [|discriminate].
  injection E as <- <-.
  destruct (drop_while_spec (in_class cl) s3) as (w & Hs3 & Hw & Hstop).
  exists cs, ws, (x :: w). rewrite Hs3 at 1.
  split; [reflexivity|]. split.
  - f_equal. rewrite Hs3 at 1. apply (consumed_app (x :: w)).
  - split; [exact Hcs|]. split; [apply Forall_spaces, Hws|].
    split; [discriminate|]. split; [constructor; assumption|].
    unfold stops. destruct (drop_while _ s3); auto.
Qed.

Lemma captured_labelled_sound label cl (t g : text) :
  captured t (labelled label cl) = Some g →
  ∃ pre rest, labelled_text label cl t pre g rest ∧ stops (in_class cl) rest.
Proof.
  unfold captured, truthy_group.
  destruct (js_match t (labelled label cl)) as [m|] eqn:E; [|discriminate].
  destruct (group m 1) as [[|x g']|] eqn:G; try discriminate. intros [= <-].
  apply search_from_run in E as (pre & s & -> & _ & E & _).
  apply labelled_match_here in E as (cs & ws & g & -> & Hc & ? & ? & ? & ? & ?).
  simpl in G. rewrite Hc, lookup_insert_eq in G. injection G as ->.
  exists pre, (m_rest m). split; [|assumption]. exists cs, ws. auto.
Qed.

Lemma labelled_matches label cl (cs ws g rest : text) :
  all_colons cs → all_spaces ws → g ≠ [] →
  Forall (λ x, in_class cl x = true) g →
  Matches (labelled label cl) (label ++ cs ++ ws ++ g) rest ∅ (<[1%nat := g]> ∅).
Proof.
  intros Hcs Hws Hne Hg. unfold labelled, star, plus.
  eapply M_seq; [constructor|].
  eapply M_seq; [constructor; [exact Hcs|lia|discriminate]|].
  eapply M_seq.
  - constructor; [apply all_spaces_class, Hws|lia|discriminate].
  - constructor. constructor; [exact Hg| |discriminate].
    destruct g; [contradiction|simpl; lia].
Qed.

Lemma labelled_groups label cl w rest c :
  Matches (labelled label cl) w rest ∅ c → ∃ g, c !! 1%nat = Some g ∧ g ≠ [].
Proof.
  unfold labelled, plus, star. intros M. invert_matches.
  eexists. split; [simplify_map_eq; reflexivity|].
  apply nonempty_length. assumption.
Qed.

Lemma captured_labelled_complete label cl (t pre g rest : text) :
  labelled_text label cl t pre g rest → is_Some (captured t (labelled label cl)).
Proof.
  intros (cs & ws & -> & Hcs & Hws & Hne & Hg).
  pose proof (labelled_matches label cl cs ws g rest Hcs Hws Hne Hg) as M.
  pose proof (captured_is_Some (pre ++ label ++ cs ++ ws ++ g ++ rest)
                _ pre _ rest _ M (labelled_groups label cl)) as H.
  rewrite <- !(assoc_L (++)) in H. exact H.
Qed.

(** A labelled expression, run where label, colons, white space and a
    value stand, captures the whole value. *)
Lemma labelled_eval label cl (cs ws g rest : text) :
  all_colons cs → all_spaces ws → Forall (λ x, in_class cl x = true) g →
  plain_start g → stops (in_class cl) rest →
  match_here (labelled label cl) (label ++ cs ++ ws ++ g ++ rest)
  = Some (rest, <[1%nat := g]> ∅).
Proof.
  intros Hcs Hws Hg Hstart Hrest.
  destruct g as [|x g]; [contradiction|]. destruct Hstart as [Hxc Hxs].
  unfold match_here, labelled. cbn [run].
  rewrite strip_prefix_app.
  apply run_star_max; [exact Hcs| |].
  { apply stops_app; [apply spaces_not_colons, Hws|]. exact Hxc. }
  apply run_star_max; [apply all_spaces_class, Hws| |].
  { simpl. rewrite orb_false_r. exact Hxs. }
  apply run_plus_max; [exact Hg|exact Hrest|].
  rewrite (consumed_app (x :: g)). reflexivity.
Qed.

(** Where the label first occurs and a plain value follows it, the
    capture is that value up to where the class stops. *)
Lemma captured_labelled_first label cl (t pre g rest : text) :
  free_before [label] t (length pre) →
  labelled_text label cl t pre g rest → plain_start g →
  stops (in_class cl) rest →
  captured t (labelled label cl) = Some g.
Proof.
  intros Hfree (cs & ws & -> & Hcs & Hws & Hne & Hg) Hstart Hrest.
  eapply captured_first; [exact Hfree| |apply lookup_insert_eq|exact Hne].
  apply labelled_eval; assumption.
Qed.

(** The three statements on a field [v = f <$> captured t (labelled ...)]
    that the theorems below instantiate. *)
Lemma labelled_field {V} label cl (f : text → V) (t : text) (o : option V) :
  o = f <$> captured t (labelled label cl) →
  ((∃ pre g rest, labelled_text label cl t pre g rest) ↔ is_Some o)
  ∧ (∀ v, o = Some v →
       ∃ pre g rest, labelled_text label cl t pre g rest
                     ∧ stops (in_class cl) rest ∧ v = f g)
  ∧ (∀ pre g rest,
       free_before [label] t (length pre) →
       labelled_text label cl t pre g rest → plain_start g →
       stops (in_class cl) rest → o = Some (f g)).
Proof.
  intros ->. split; [split|split].
  - intros (pre & g & rest & H).
    destruct (captured_labelled_complete _ _ _ _ _ _ H) as [g' ->]. eauto.
  - intros [v Hv]. destruct (captured t _) as [g|] eqn:E; [|discriminate].
    apply captured_labelled_sound in E as (pre & rest & H & _). eauto.
  - intros v Hv. destruct (captured t _) as [g|] eqn:E; [|discriminate].
    injection Hv as <-.
    apply captured_labelled_sound in E as (pre & rest & H & Hs). eauto 6.
  - intros pre g rest Hfree H Hstart Hrest.
    rewrite (captured_labelled_first _ _ _ _ _ _ Hfree H Hstart Hrest).
    reflexivity.
Qed.

(** name, nameKana, healthCondition, hobbies and nearestStation.  The
    field is set exactly when its label occurs in the text followed,
    after colons and white space (line breaks included), by a unit that
    is no line break; its value is then the rest of that line, trimmed,
    which may be the empty text.  Where the label first occurs and a
    value follows that starts with neither colon nor white space, the
    field is that value up to the end of the line, trimmed. *)
Theorem line_fields_take_rest_of_line (ps : list OCRPage)
    (d : ExtractedResumeData) (f : line_field) :
  extractResumeData (Some {| pages := Some ps |}) = Ok d →
  let t := allText_of ps in
  ((∃ pre g rest, labelled_text (line_label f) not_eol t pre g rest)
   ↔ is_Some (line_value f d))
  ∧ (∀ v, line_value f d = Some v →
       ∃ pre g rest, labelled_text (line_label f) not_eol t pre g rest
                     ∧ stops (in_class not_eol) rest ∧ v = trim g
                     ∧ Forall (λ x, x ≠ LF ∧ x ≠ CR) v)
  ∧ (∀ pre g rest,
       free_before [line_label f] t (length pre) →
       labelled_text (line_label f) not_eol t pre g rest → plain_start g →
       stops (in_class not_eol) rest → line_value f d = Some (trim g)).
Proof.
  intros (r & p & ps' & [= <-] & [= ->] & H)%extractResumeData_inv t.
  fold t in H.
  assert (line_value f d
          = trim <$> captured t (labelled (line_label f) not_eol)) as E.
  { destruct f; simpl;
      [apply name_spec|apply nameKana_spec|apply healthCondition_spec
      |apply hobbies_spec|apply nearestStation_spec]; exact H. }
  destruct (labelled_field _ _ _ _ _ E) as (H1 & H2 & H3).
  split; [exact H1|]. split; [|exact H3].
  intros v Hv. destruct (H2 v Hv) as (pre & g & rest & HL & Hs & ->).
  exists pre, g, rest. repeat (split; [assumption || reflexivity|]).
  apply trim_Forall. destruct HL as (cs & ws & _ & _ & _ & _ & Hg).
  eapply Forall_impl; [exact Hg|]. intros x Hx.
  change (in_class not_eol x) with (negb ((x =? LF) || ((x =? CR) || false))) in Hx.
  apply negb_true_iff in Hx.
  apply orb_false_elim in Hx as [H4%N.eqb_neq Hx].
  apply orb_false_elim in Hx as [H5%N.eqb_neq _]. auto.
Qed.

Lemma line_fields_take_rest_of_line_witness :
  let ps := [{| index := 0; markdown := Some u8"氏名： 山田 太郎 " |}] in
  let d := result_of (extractResumeData (Some {| pages := Some ps |})) in
  line_value L_name d = Some (trim u8"山田 太郎 ")
  ∧ trim u8"山田 太郎 " = u8"山田 太郎".
Proof.
  intros ps d. split; [|vm_compute; reflexivity].
  assert (extractResumeData (Some {| pages := Some ps |}) = Ok d) as E
    by (vm_compute; reflexivity).
  apply (proj2 (proj2 (line_fields_take_rest_of_line ps d L_name E)) []
           u8"山田 太郎 " []).
  - intros h j _ Hj. simpl in Hj. lia.
  - apply (labelled_text_intro _ _ _ _ u8"：" u8" "); vm_compute; reflexivity.
  - vm_compute. split; reflexivity.
  - exact I.
Defined.

(** *** The telephone number *)

Lemma in_phone_class x :
  in_class phone_class x = true ↔ is_digit x = true ∨ x = 0x2D.
Proof.
  change (in_class phone_class x) with (is_digit x || ((x =? 0x2D) || false)).
  rewrite orb_false_r, orb_true_iff, N.eqb_eq. reflexivity.
Qed.

Lemma phone_not_space x : in_class phone_class x = true → is_space x = false.
Proof. intros [H| ->]%in_phone_class; [apply digit_not_space, H|reflexivity]. Qed.

Lemma phone_not_colon x : in_class phone_class x = true → in_class colons x = false.
Proof.
  intros H. destruct (in_class colons x) eqn:Hc; [|reflexivity].
  apply colon_cases in Hc. apply in_phone_class in H as [H%digit_cases| ->]; lia.
Qed.

(** phoneNumber is set exactly when the label 電話番号 occurs followed,
    after colons and white space, by a digit or a hyphen; its value is
    then a non-empty text of digits and hyphens, the longest that stands
    there, and nothing is trimmed from it.  Where the label first occurs
    and digits or hyphens follow it, they are the value. *)
Theorem phoneNumber_digits_and_hyphens (ps : list OCRPage)
    (d : ExtractedResumeData) :
  extractResumeData (Some {| pages := Some ps |}) = Ok d →
  let t := allText_of ps in
  ((∃ pre g rest, labelled_text u8"電話番号" phone_class t pre g rest)
   ↔ is_Some (phoneNumber d))
  ∧ (∀ v, phoneNumber d = Some v →
       v ≠ [] ∧ Forall (λ x, is_digit x = true ∨ x = 0x2D) v
       ∧ ∃ pre rest, labelled_text u8"電話番号" phone_class t pre v rest
                     ∧ stops (in_class phone_class) rest)
  ∧ (∀ pre g rest,
       free_before [u8"電話番号"] t (length pre) →
       labelled_text u8"電話番号" phone_class t pre g rest →
       stops (in_class phone_class) rest → phoneNumber d = Some g).
Proof.
  intros (r & p & ps' & [= <-] & [= ->] & H)%extractResumeData_inv t.
  fold t in H. pose proof (phoneNumber_spec _ _ H) as E.
  change re_phone with (labelled u8"電話番号" phone_class) in E.
  destruct (labelled_field _ _ _ _ _ E) as (H1 & H2 & H3).
  assert (∀ pre g rest, labelled_text u8"電話番号" phone_class t pre g rest →
                        trim g = g) as Htrim.
  { intros pre g rest (cs & ws & _ & _ & _ & _ & Hg). apply trim_plain.
    eapply Forall_impl; [exact Hg|]. apply phone_not_space. }
  split; [exact H1|]. split.
  - intros v Hv. destruct (H2 v Hv) as (pre & g & rest & HL & Hs & ->).
    rewrite (Htrim _ _ _ HL). pose proof HL as (cs & ws & _ & _ & _ & Hne & Hg).
    split; [exact Hne|]. split; [|eauto].
    eapply Forall_impl; [exact Hg|]. intros x. apply in_phone_class.
  - intros pre g rest Hfree HL Hs. rewrite <- (Htrim _ _ _ HL).
    apply (H3 pre g rest Hfree HL); [|exact Hs].
    destruct HL as (cs & ws & _ & _ & _ & Hne & Hg).
    destruct g as [|x g]; [contradiction|]. apply Forall_cons in Hg as [Hx _].
    split; [apply phone_not_colon|apply phone_not_space]; exact Hx.
Qed.

Lemma phoneNumber_digits_and_hyphens_witness :
  let ps := [{| index := 0; markdown := Some u8"電話番号：090-1234-5678 (携帯)" |}] in
  let d := result_of (extractResumeData (Some {| pages := Some ps |})) in
  phoneNumber d = Some u8"090-1234-5678".
Proof.
  intros ps d.
  assert (extractResumeData (Some {| pages := Some ps |}) = Ok d) as E
    by (vm_compute; reflexivity).
  apply (proj2 (proj2 (phoneNumber_digits_and_hyphens ps d E)) []
           u8"090-1234-5678" u8" (携帯)").
  - intros h j _ Hj. simpl in Hj. lia.
  - apply (labelled_text_intro _ _ _ _ u8"：" []); vm_compute; reflexivity.
  - reflexivity.
Defined.

(** *** The gender *)

Lemma in_gender_class x :
  in_class gender_class x = true ↔ x = 0x7537 ∨ x = 0x5973.
Proof.
  change (in_class gender_class x) with ((x =? 0x7537) || ((x =? 0x5973) || false)).
  rewrite orb_false_r, orb_true_iff, !N.eqb_eq. reflexivity.
Qed.

Lemma gender_groups w rest c :
  Matches re_gender w rest ∅ c →
  ∃ cs ws x, w = u8"性別" ++ cs ++ ws ++ [x] ∧ c !! 1%nat = Some [x]
             ∧ all_colons cs ∧ all_spaces ws ∧ in_class gender_class x = true.
Proof.
  unfold re_gender, star. intros M. invert_matches.
  eexists _, _, _. split; [reflexivity|].
  split; [simplify_map_eq; reflexivity|].
  split; [assumption|]. split; [apply Forall_spaces; assumption|]. assumption.
Qed.

Lemma gender_matches (cs ws : text) x rest :
  all_colons cs → all_spaces ws → in_class gender_class x = true →
  Matches re_gender (u8"性別" ++ cs ++ ws ++ [x]) rest ∅ (<[1%nat := [x]]> ∅).
Proof.
  intros Hcs Hws Hx. unfold re_gender, star.
  eapply M_seq; [constructor|].
  eapply M_seq; [constructor; [exact Hcs|lia|discriminate]|].
  eapply M_seq.
  - constructor; [apply all_spaces_class, Hws|lia|discriminate].
  - constructor. constructor. exact Hx.
Qed.

Lemma gender_captured (t g : text) :
  captured t re_gender = Some g →
  ∃ pre cs ws x rest,
    g = [x] ∧ t = pre ++ u8"性別" ++ cs ++ ws ++ [x] ++ rest
    ∧ all_colons cs ∧ all_spaces ws ∧ in_class gender_class x = true.
Proof.
  intros (m & pre & _ & G & _ & Ht & M)%captured_sound.
  apply gender_groups in M as (cs & ws & x & Hw & G' & Hcs & Hws & Hx).
  simpl in G. rewrite G' in G. injection G as <-.
  exists pre, cs, ws, x, (m_rest m). split; [reflexivity|].
  split; [|auto]. rewrite Ht, Hw, <- !(assoc_L (++)). reflexivity.
Qed.


(** gender is set exactly when the label 性別 occurs followed, after
    colons and white space, by 男 or by 女, and its value is then one of
    these two characters: any other text after the label leaves the
    field unset. *)
Theorem gender_is_one_of_two (ps : list OCRPage) (d : ExtractedResumeData) :
  extractResumeData (Some {| pages := Some ps |}) = Ok d →
  let t := allText_of ps in
  ((∃ pre cs ws x rest,
      t = pre ++ u8"性別" ++ cs ++ ws ++ [x] ++ rest
      ∧ all_colons cs ∧ all_spaces ws ∧ (x = 0x7537 ∨ x = 0x5973))
   ↔ is_Some (gender d))
  ∧ (∀ v, gender d = Some v →
       (v = u8"男" ∨ v = u8"女")
       ∧ ∃ pre cs ws rest, t = pre ++ u8"性別" ++ cs ++ ws ++ v ++ rest
                           ∧ all_colons cs ∧ all_spaces ws).
Proof.
  intros (r & p & ps' & [= <-] & [= ->] & H)%extractResumeData_inv t.
  fold t in H. pose proof (gender_spec _ _ H) as E.
  pose proof (gender_captured t) as Hsound.
  split; [split|].
  - intros (pre & cs & ws & x & rest & Ht & Hcs & Hws & Hx%in_gender_class).
    pose proof (gender_matches cs ws x rest Hcs Hws Hx) as M.
    assert (is_Some (captured t re_gender)) as [g Hg].
    { rewrite Ht.
      pose proof (captured_is_Some (pre ++ (u8"性別" ++ cs ++ ws ++ [x]) ++ rest)
                    _ pre _ rest _ M) as HS.
      rewrite <- !(assoc_L (++)) in HS. apply HS.
      intros w' rest' c' (? & ? & y & _ & G & _)%gender_groups.
      exists [y]. split; [exact G|discriminate]. }
    rewrite E, Hg. eauto.
  - intros [v Hv]. rewrite E in Hv.
    destruct (captured t re_gender) as [g|] eqn:Eg; [|discriminate].
    destruct (Hsound g eq_refl)
      as (pre & cs & ws & x & rest & _ & Ht & Hcs & Hws & Hx%in_gender_class).
    eauto 10.
  - intros v Hv. rewrite E in Hv.
    destruct (captured t re_gender) as [g|] eqn:Eg; [|discriminate].
    injection Hv as <-.
    destruct (Hsound g eq_refl)
      as (pre & cs & ws & x & rest & -> & Ht & Hcs & Hws & Hx%in_gender_class).
    assert (trim [x] = [x]) as ->
      by (destruct Hx as [-> | ->]; vm_compute; reflexivity).
    split; [destruct Hx as [-> | ->]; auto|]. eauto 10.
Qed.

Lemma gender_is_one_of_two_witness :
  let ps := [{| index := 0; markdown := Some u8"性別： 女" |}] in
  let d := result_of (extractResumeData (Some {| pages := Some ps |})) in
  is_Some (gender d).
Proof.
  intros ps d.
  assert (extractResumeData (Some {| pages := Some ps |}) = Ok d) as E
    by (vm_compute; reflexivity).
  apply (proj1 (gender_is_one_of_two ps d E)).
  exists [], u8"：", u8" ", 0x5973, [].
  split; [vm_compute; reflexivity|].
  split; [apply Forall_forallb; vm_compute; reflexivity|].
  split; [apply Forall_forallb; vm_compute; reflexivity|].
  right; reflexivity.
Defined.

(** *** The number of dependents *)











(** *** The e-mail address *)

Lemma in_not_space x : in_class not_space x = negb (is_space x).
Proof. simpl. rewrite orb_false_r. reflexivity. Qed.

Lemma Forall_not_space (w : text) :
  Forall (λ x, in_class not_space x = true) w ↔ Forall (λ x, is_space x = false) w.
Proof.
  apply Forall_iff. intros x. rewrite in_not_space, negb_true_iff. reflexivity.
Qed.

Lemma email_groups w rest c :
  Matches re_email w rest ∅ c →
  ∃ o cs ws a b,
    w = u8"E" ++ o ++ u8"mail" ++ cs ++ ws ++ a ++ u8"@" ++ b
    ∧ c !! 1%nat = Some (a ++ u8"@" ++ b)
    ∧ (o = [] ∨ o = u8"-" ∨ ∃ x, o = [x] ∧ is_space x = true)
    ∧ all_colons cs ∧ all_spaces ws ∧ a ≠ [] ∧ b ≠ []
    ∧ Forall (λ x, is_space x = false) a ∧ Forall (λ x, is_space x = false) b.
Proof.
  unfold re_email, opt, plus, star. intros M. invert_matches.
  match goal with
  | |- ∃ o cs ws a b, _ ++ ?o' ++ _ ++ ?cs' ++ ?ws' ++ ?a' ++ _ ++ ?b' = _ ∧ _ =>
      exists o', cs', ws', a', b'
  end.
  split; [reflexivity|]. split; [simplify_map_eq; reflexivity|].
  split.
  { match goal with
    | H : ∀ m, Some 1%nat = Some m → _ |- _ => specialize (H _ eq_refl); simpl in H
    end.
    match goal with
    | |- ?o = [] ∨ _ => destruct o as [|x [|y o]]; [auto| |simpl in *; lia]
    end.
    match goal with
    | H : Forall _ [x] |- _ => apply Forall_cons in H as [H _]; simpl in H
    end.
    rewrite orb_false_r in *.
    match goal with
    | H : _ || _ = true |- _ => apply orb_prop in H as [H%N.eqb_eq|H]
    end; [subst; auto|eauto]. }
  split; [assumption|]. split; [apply Forall_spaces; assumption|].
  split; [apply nonempty_length; assumption|].
  split; [apply nonempty_length; assumption|].
  split; apply Forall_not_space; assumption.
Qed.

Lemma email_matches (o cs ws a b rest : text) :
  (o = [] ∨ o = u8"-" ∨ ∃ x, o = [x] ∧ is_space x = true) →
  all_colons cs → all_spaces ws → a ≠ [] → b ≠ [] →
  Forall (λ x, is_space x = false) a → Forall (λ x, is_space x = false) b →
  Matches re_email (u8"E" ++ o ++ u8"mail" ++ cs ++ ws ++ a ++ u8"@" ++ b) rest
    ∅ (<[1%nat := a ++ u8"@" ++ b]> ∅).
Proof.
  intros Ho Hcs Hws Hna Hnb Ha Hb. unfold re_email, opt, plus, star.
  eapply M_seq; [constructor|].
  eapply M_seq.
  { constructor; [|lia|].
    - destruct Ho as [->|[->|(x & -> & Hx)]]; repeat constructor.
      simpl. rewrite Hx, orb_true_r. reflexivity.
    - intros m [= <-]. destruct Ho as [->|[->|(x & -> & Hx)]]; simpl; lia. }
  eapply M_seq; [constructor|].
  eapply M_seq; [constructor; [exact Hcs|lia|discriminate]|].
  eapply M_seq; [constructor; [apply all_spaces_class, Hws|lia|discriminate]|].
  constructor.
  eapply M_seq.
  { constructor; [apply Forall_not_space, Ha| |discriminate].
    destruct a; [contradiction|simpl; lia]. }
  eapply M_seq; [constructor|].
  constructor; [apply Forall_not_space, Hb| |discriminate].
  destruct b; [contradiction|simpl; lia].
Qed.

(** email is set exactly when the text holds the label E-mail, E mail or
    Email followed, after colons and white space, by an address of the
    form a@b in which neither part is empty or holds white space; its
    value is then such an address that stands after the label. *)
Theorem email_has_both_parts (ps : list OCRPage) (d : ExtractedResumeData) :
  extractResumeData (Some {| pages := Some ps |}) = Ok d →
  let t := allText_of ps in
  ((∃ pre a b rest, email_text t pre a b rest) ↔ is_Some (email d))
  ∧ (∀ v, email d = Some v →
       ∃ pre a b rest, email_text t pre a b rest ∧ v = a ++ u8"@" ++ b).
Proof.
  intros (r & p & ps' & [= <-] & [= ->] & H)%extractResumeData_inv t.
  fold t in H. pose proof (email_spec _ _ H) as E.
  assert (∀ g, captured t re_email = Some g →
               ∃ pre a b rest, email_text t pre a b rest ∧ g = a ++ u8"@" ++ b)
    as Hsound.
  { intros g (m & pre & _ & G & _ & Ht & M)%captured_sound.
    apply email_groups in M
      as (o & cs & ws & a & b & Hw & G' & Ho & Hcs & Hws & Hna & Hnb & Ha & Hb).
    simpl in G. rewrite G' in G. injection G as <-.
    exists pre, a, b, (m_rest m). split; [|reflexivity].
    exists o, cs, ws. split; [|auto 10].
    rewrite Ht, Hw, <- !(assoc_L (++)). reflexivity. }
  split; [split|].
  - intros (pre & a & b & rest & o & cs & ws & Ht & Ho & Hcs & Hws & Hna & Hnb
            & Ha & Hb).
    pose proof (email_matches o cs ws a b rest Ho Hcs Hws Hna Hnb Ha Hb) as M.
    assert (is_Some (captured t re_email)) as [g Hg].
    { rewrite Ht.
      pose proof (captured_is_Some
                    (pre ++ (u8"E" ++ o ++ u8"mail" ++ cs ++ ws ++ a ++ u8"@" ++ b)
                     ++ rest) _ pre _ rest _ M) as HS.
      rewrite <- !(assoc_L (++)) in HS. apply HS.
      intros w' rest' c' (? & ? & ? & a' & b' & _ & G & _ & _ & _ & Hna' & _)%email_groups.
      exists (a' ++ u8"@" ++ b'). split; [exact G|].
      destruct a'; [contradiction|discriminate]. }
    rewrite E, Hg. eauto.
  - intros [v Hv]. rewrite E in Hv.
    destruct (captured t re_email) as [g|] eqn:Eg; [|discriminate].
    destruct (Hsound g eq_refl) as (pre & a & b & rest & HT & _). eauto.
  - intros v Hv. rewrite E in Hv.
    destruct (captured t re_email) as [g|] eqn:Eg; [|discriminate].
    injection Hv as <-.
    destruct (Hsound g eq_refl) as (pre & a & b & rest & HT & ->).
    exists pre, a, b, rest. split; [exact HT|].
    destruct HT as (_ & _ & _ & _ & _ & _ & _ & _ & _ & Ha & Hb).
    apply trim_plain. apply Forall_app. split; [exact Ha|].
    apply Forall_app. split; [repeat constructor|exact Hb].
Qed.

Lemma email_has_both_parts_witness :
  let ps := [{| index := 0; markdown := Some u8"E-mail: taro@example.com" |}] in
  let d := result_of (extractResumeData (Some {| pages := Some ps |})) in
  is_Some (email d) ∧ email d = Some u8"taro@example.com".
Proof.
  intros ps d.
  assert (extractResumeData (Some {| pages := Some ps |}) = Ok d) as E
    by (vm_compute; reflexivity).
  split; [|vm_compute; reflexivity].
  apply (proj1 (email_has_both_parts ps d E)).
  exists [], u8"taro", u8"example.com", [], u8"-", u8":", u8" ".
  split; [vm_compute; reflexivity|]. split; [auto|].
  split; [apply Forall_forallb; vm_compute; reflexivity|].
  split; [apply Forall_forallb; vm_compute; reflexivity|].
  split; [discriminate|]. split; [discriminate|].
  split; apply Forall_forallb_neg; vm_compute; reflexivity.
Defined.

(** *** The spouse fields *)

(** String.prototype.includes *)
Lemma includes_spec (s p : text) : includes s p = true ↔ holds s p.
Proof.
  induction s as [|x s IH]; cbn [includes].
  - rewrite orb_false_r, starts_with_spec. split.
    + intros [r Hr]. exists [], r. exact Hr.
    + intros (u & v & H). destruct u; [|discriminate]. destruct p; [|discriminate].
      exists []. reflexivity.
  - rewrite orb_true_iff, starts_with_spec, IH. split.
    + intros [[r Hr]|(u & v & ->)].
      * exists [], r. exact Hr.
      * exists (x :: u), v. reflexivity.
    + intros ([|y u] & v & H).
      * left. exists v. exact H.
      * right. injection H as <- ->. exists u, v. reflexivity.
Qed.

Lemma in_spouse_class x :
  in_class spouse_class x = true ↔ x ∈ u8"あり|なし".
Proof.
  change (in_class spouse_class x) with
    ((x =? 0x3042) || ((x =? 0x308A) || ((x =? 0x7C) || ((x =? 0x306A)
      || ((x =? 0x3057) || false))))).
  change (u8"あり|なし") with [0x3042; 0x308A; 0x7C; 0x306A; 0x3057].
  rewrite !elem_of_cons, elem_of_nil, !orb_true_iff, !N.eqb_eq.
  intuition discriminate.
Qed.

Lemma spouse_plain x :
  in_class spouse_class x = true → in_class colons x = false ∧ is_space x = false.
Proof.
  intros H%in_spouse_class.
  change (u8"あり|なし") with [0x3042; 0x308A; 0x7C; 0x306A; 0x3057] in H.
  repeat (apply elem_of_cons in H as [->|H]; [split; reflexivity|]).
  apply elem_of_nil in H as [].
Qed.

(** hasSpouse and supportingSpouse.  The field is set exactly when its
    label occurs followed, after colons and white space, by one of the
    characters あ, り, |, な, し.  The token captured is the longest run of
    these characters in any order, and the field is true exactly when the
    token holds あり; every other token (なし, but also りあ or |) sets it
    to false. *)
Theorem spouse_fields_by_token (ps : list OCRPage) (d : ExtractedResumeData)
    (f : spouse_field) :
  extractResumeData (Some {| pages := Some ps |}) = Ok d →
  let t := allText_of ps in
  ((∃ pre g rest, labelled_text (spouse_label f) spouse_class t pre g rest)
   ↔ is_Some (spouse_value f d))
  ∧ (∀ b, spouse_value f d = Some b →
       ∃ pre g rest,
         labelled_text (spouse_label f) spouse_class t pre g rest
         ∧ stops (in_class spouse_class) rest
         ∧ Forall (λ x, x ∈ u8"あり|なし") g
         ∧ (b = true ↔ holds g u8"あり"))
  ∧ (∀ pre g rest,
       free_before [spouse_label f] t (length pre) →
       labelled_text (spouse_label f) spouse_class t pre g rest →
       stops (in_class spouse_class) rest →
       (holds g u8"あり" → spouse_value f d = Some true)
       ∧ (¬ holds g u8"あり" → spouse_value f d = Some false)).
Proof.
  intros (r & p & ps' & [= <-] & [= ->] & H)%extractResumeData_inv t.
  fold t in H.
  assert (spouse_value f d
          = (λ g, includes g u8"あり")
            <$> captured t (labelled (spouse_label f) spouse_class)) as E.
  { destruct f; simpl; [apply hasSpouse_spec|apply supportingSpouse_spec];
      exact H. }
  destruct (labelled_field _ _ _ _ _ E) as (H1 & H2 & H3).
  split; [exact H1|]. split.
  - intros b Hb. destruct (H2 b Hb) as (pre & g & rest & HL & Hs & ->).
    exists pre, g, rest. split; [exact HL|]. split; [exact Hs|]. split.
    + destruct HL as (_ & _ & _ & _ & _ & _ & Hg).
      eapply Forall_impl; [exact Hg|]. intros x. apply in_spouse_class.
    + apply includes_spec.
  - intros pre g rest Hfree HL Hs.
    assert (plain_start g) as Hstart.
    { destruct HL as (_ & _ & _ & _ & _ & Hne & Hg).
      destruct g as [|x g]; [contradiction|].
      apply Forall_cons in Hg as [Hx _]. apply spouse_plain, Hx. }
    rewrite (H3 pre g rest Hfree HL Hstart Hs). split.
    + intros Hh%includes_spec. rewrite Hh. reflexivity.
    + intros Hn. destruct (includes g u8"あり") eqn:Ei; [|reflexivity].
      apply includes_spec in Ei. contradiction.
Qed.

Lemma spouse_fields_by_token_witness :
  let ps := [{| index := 0; markdown := Some u8"配偶者の有無： りあ" |}] in
  let d := result_of (extractResumeData (Some {| pages := Some ps |})) in
  hasSpouse d = Some false.
Proof.
  intros ps d.
  assert (extractResumeData (Some {| pages := Some ps |}) = Ok d) as E
    by (vm_compute; reflexivity).
  apply (proj2 (proj2 (proj2 (spouse_fields_by_token ps d S_hasSpouse E))
                  [] u8"りあ" []
                  ltac:(intros h j _ Hj; simpl in Hj; lia)
                  ltac:(apply (labelled_text_intro _ _ _ _ u8"：" u8" ");
                        vm_compute; reflexivity)
                  I)).
  intros Hh%includes_spec. vm_compute in Hh. discriminate.
Defined.

(** *** Labels *)

Lemma occurs_in_middle (l pre post : text) : occurs_at l (pre ++ l ++ post) (length pre).
Proof. exists post. rewrite drop_app_length. reflexivity. Qed.

(** An expression that begins with a literal matches only where the
    literal occurs. *)
Lemma captured_needs_label l r (t : text) :
  nowhere l t → captured t (RChars l ∙ r) = None.
Proof.
  intros Hn. destruct (captured t _) as [g|] eqn:E; [|reflexivity].
  apply captured_sound in E as (m & pre & _ & _ & _ & Ht & M).
  assert (∃ w2, m_whole m = l ++ w2) as [w2 Hw].
  { inversion M as [| | |? ? w1 w2 ? ? ? ? M1 M2| | | | |].
    inversion M1. subst. eauto. }
  exfalso. apply (Hn (length pre)).
  rewrite Ht, Hw, <- (assoc_L (++)). apply occurs_in_middle.
Qed.

Lemma section_needs_header allText re field :
  entries_of (section_entries allText re) field →
  captured allText re = None → field = None.
Proof. unfold entries_of, section_entries. intros H E. rewrite E in H. exact H. Qed.

Lemma fields_need_labels (allText : text) (d : ExtractedResumeData) :
  extractFields allText = Ok d →
  (nowhere u8"氏名" allText → name d = None)
  ∧ (nowhere u8"ふりがな" allText → nameKana d = None)
  ∧ (nowhere u8"生年月日" allText → birthDate d = None ∧ age d = None)
  ∧ (nowhere u8"性別" allText → gender d = None)
  ∧ (nowhere u8"現住所" allText → address d = None ∧ postalCode d = None)
  ∧ (nowhere u8"電話番号" allText → phoneNumber d = None)
  ∧ (nowhere u8"mail" allText → email d = None)
  ∧ (nowhere u8"学歴" allText → educationHistory d = None)
  ∧ (nowhere u8"職歴" allText → workHistory d = None)
  ∧ (nowhere u8"免許・資格" allText → licenses d = None)
  ∧ (nowhere u8"健康状態" allText → healthCondition d = None)
  ∧ (nowhere u8"趣味・特技" allText → hobbies d = None)
  ∧ (nowhere u8"最寄り駅" allText → nearestStation d = None)
  ∧ (nowhere u8"扶養家族数" allText → dependents d = None)
  ∧ (nowhere u8"配偶者の有無" allText → hasSpouse d = None)
  ∧ (nowhere u8"配偶者の扶養義務" allText → supportingSpouse d = None).
Proof.
  intros H.
  repeat match goal with |- _ ∧ _ => split end; intros Hn.
  - rewrite (name_spec _ _ H). unfold re_name.
    rewrite captured_needs_label by exact Hn. reflexivity.
  - rewrite (nameKana_spec _ _ H). unfold re_nameKana.
    rewrite captured_needs_label by exact Hn. reflexivity.
  - rewrite (birthDate_spec _ _ H), (age_spec _ _ H). unfold re_birthDate.
    rewrite captured_needs_label by exact Hn. split; reflexivity.
  - rewrite (gender_spec _ _ H). unfold re_gender.
    rewrite captured_needs_label by exact Hn. reflexivity.
  - rewrite (address_spec _ _ H), (postalCode_spec _ _ H). unfold re_address.
    rewrite captured_needs_label by exact Hn. split; reflexivity.
  - rewrite (phoneNumber_spec _ _ H). unfold re_phone.
    rewrite captured_needs_label by exact Hn. reflexivity.
  - rewrite (email_spec _ _ H).
    destruct (captured allText re_email) as [g|] eqn:E; [|reflexivity].
    apply captured_sound in E as (m & pre & _ & _ & _ & Ht & M).
    apply email_groups in M as (o & cs & ws & a & b & Hw & _).
    exfalso. apply (Hn (length (pre ++ u8"E" ++ o))).
    rewrite Ht, Hw, <- !(assoc_L (++)).
    rewrite !(assoc_L (++) pre). rewrite (assoc_L (++) (pre ++ u8"E")).
    apply occurs_in_middle.
  - apply (section_needs_header _ _ _ (educationHistory_spec _ _ H)).
    unfold re_educationSection. apply captured_needs_label, Hn.
  - apply (section_needs_header _ _ _ (workHistory_spec _ _ H)).
    unfold re_workSection. apply captured_needs_label, Hn.
  - apply (section_needs_header _ _ _ (licenses_spec _ _ H)).
    unfold re_licenseSection. apply captured_needs_label, Hn.
  - rewrite (healthCondition_spec _ _ H). unfold re_health.
    rewrite captured_needs_label by exact Hn. reflexivity.
  - rewrite (hobbies_spec _ _ H). unfold re_hobbies.
    rewrite captured_needs_label by exact Hn. reflexivity.
  - rewrite (nearestStation_spec _ _ H). unfold re_station.
    rewrite captured_needs_label by exact Hn. reflexivity.
  - rewrite (dependents_spec _ _ H). unfold re_dependents.
    rewrite captured_needs_label by exact Hn. reflexivity.
  - rewrite (hasSpouse_spec _ _ H). unfold re_spouse.
    rewrite captured_needs_label by exact Hn. reflexivity.
  - rewrite (supportingSpouse_spec _ _ H). unfold re_supportingSpouse.
    rewrite captured_needs_label by exact Hn. reflexivity.
Qed.

(** A field is absent from the record whenever its label occurs nowhere
    in the text: no field is filled from anything but the text after its
    own label (age with birthDate after 生年月日, postalCode with
    address after 現住所). *)
Theorem field_absent_without_label (ps : list OCRPage)
    (d : ExtractedResumeData) :
  extractResumeData (Some {| pages := Some ps |}) = Ok d →
  let t := allText_of ps in
  (nowhere u8"氏名" t → name d = None)
  ∧ (nowhere u8"ふりがな" t → nameKana d = None)
  ∧ (nowhere u8"生年月日" t → birthDate d = None ∧ age d = None)
  ∧ (nowhere u8"性別" t → gender d = None)
  ∧ (nowhere u8"現住所" t → address d = None ∧ postalCode d = None)
  ∧ (nowhere u8"電話番号" t → phoneNumber d = None)
  ∧ (nowhere u8"mail" t → email d = None)
  ∧ (nowhere u8"学歴" t → educationHistory d = None)
  ∧ (nowhere u8"職歴" t → workHistory d = None)
  ∧ (nowhere u8"免許・資格" t → licenses d = None)
  ∧ (nowhere u8"健康状態" t → healthCondition d = None)
  ∧ (nowhere u8"趣味・特技" t → hobbies d = None)
  ∧ (nowhere u8"最寄り駅" t → nearestStation d = None)
  ∧ (nowhere u8"扶養家族数" t → dependents d = None)
  ∧ (nowhere u8"配偶者の有無" t → hasSpouse d = None)
  ∧ (nowhere u8"配偶者の扶養義務" t → supportingSpouse d = None).
Proof.
  intros (r & p & ps' & [= <-] & [= ->] & H)%extractResumeData_inv t.
  apply fields_need_labels, H.
Qed.

(** Decides [nowhere] on given texts. *)
Lemma nowhere_intro (l t : text) :
  l ≠ [] → no_occurrence_before l t (S (length t)) = true → nowhere l t.
Proof.
  intros Hl H j Hocc.
  destruct (Nat.lt_ge_cases j (S (length t))) as [Hj|Hj].
  - apply (no_occurrence_before_spec [l] t (S (length t))
             ltac:(cbn [forallb]; rewrite H; reflexivity) l j ltac:(left) Hj Hocc).
  - destruct Hocc as [post Hp]. rewrite drop_ge in Hp by lia.
    destruct l; [contradiction|discriminate].
Qed.

Lemma field_absent_without_label_witness :
  let ps := [{| index := 0; markdown := Some u8"氏名：山田太郎" |}] in
  let d := result_of (extractResumeData (Some {| pages := Some ps |})) in
  nameKana d = None ∧ phoneNumber d = None.
Proof.
  intros ps d.
  assert (extractResumeData (Some {| pages := Some ps |}) = Ok d) as E
    by (vm_compute; reflexivity).
  pose proof (field_absent_without_label ps d E)
    as (_ & H2 & _ & _ & _ & H6 & _).
  split; [apply H2|apply H6];
    (apply nowhere_intro; [discriminate|vm_compute; reflexivity]).
Defined.

(** A label that starts with a unit that is no white space occurs nowhere
    in a text of white space. *)
Lemma nowhere_in_blank (l t : text) :
  all_spaces t → match l with x :: _ => is_space x = false | [] => False end →
  nowhere l t.
Proof.
  intros Ht Hl j [post Hp]. destruct l as [|x l]; [contradiction|].
  assert (x ∈ t) as Hx.
  { rewrite <- (take_drop j t), Hp. apply elem_of_app. right. left. }
  unfold all_spaces in Ht. rewrite Forall_forall in Ht.
  specialize (Ht x Hx). congruence.
Qed.

Lemma join_blank (l : list text) :
  Forall all_spaces l → all_spaces (join [LF; LF] l).
Proof.
  induction 1 as [|x l Hx Hl IH]; [constructor|].
  destruct l as [|y l]; [exact Hx|].
  change (join [LF; LF] (x :: y :: l)) with (x ++ [LF; LF] ++ join [LF; LF] (y :: l)).
  apply Forall_app. split; [exact Hx|]. apply Forall_app. split; [|exact IH].
  repeat constructor.
Qed.

(** Pages without text do not make the extraction fail: when every page
    of a non-empty page list has no text, an empty text or white space
    only, the result is the empty record, every field absent. *)
Theorem blank_pages_give_empty_record (ps : list OCRPage) :
  ps ≠ [] → Forall blank_page ps →
  extractResumeData (Some {| pages := Some ps |}) = Ok empty_data.
Proof.
  intros Hne Hb. unfold extractResumeData. cbn [pages].
  destruct ps as [|p ps]; [contradiction|].
  set (t := allText_of (p :: ps)).
  assert (all_spaces t) as Ht.
  { apply join_blank. apply Forall_fmap. exact Hb. }
  destruct (extractFields_total t) as [d Hd]. rewrite Hd. f_equal.
  pose proof (fields_need_labels t d Hd) as HL.
  assert (∀ l, match l with x :: _ => is_space x = false | [] => False end →
               nowhere l t) as Hn by (intros l; apply nowhere_in_blank, Ht).
  destruct HL as (H1 & H2 & H3 & H4 & H5 & H6 & H7 & H8 & H9 & H10 & H11
                  & H12 & H13 & H14 & H15 & H16).
  repeat match goal with
  | H : nowhere ?l t → _ |- _ => specialize (H (Hn l eq_refl))
  end.
  destruct H3 as [H3a H3b]. destruct H5 as [H5a H5b].
  pose proof (addressKana_spec _ _ Hd) as Hk.
  assert (alternativeAddress d = None) as Ha1
    by (pose proof Hd as H'; absent_field alternativeAddress H').
  assert (alternativeAddressKana d = None) as Ha2
    by (pose proof Hd as H'; absent_field alternativeAddressKana H').
  assert (alternativePhoneNumber d = None) as Ha3
    by (pose proof Hd as H'; absent_field alternativePhoneNumber H').
  clear Hd Hn. destruct d. simpl in *. subst. reflexivity.
Qed.

Lemma blank_pages_give_empty_record_witness :
  extractResumeData
    (Some {| pages := Some [ {| index := 0; markdown := None |};
                             {| index := 1; markdown := Some u8"  " |} ] |})
  = Ok empty_data.
Proof.
  apply blank_pages_give_empty_record; [discriminate|].
  repeat constructor.
Defined.

(** ** The template filler, cell by cell *)

Lemma fill_sheet_steps (r : ExtractedResumeData) (ws : worksheet) :
  fill_sheet r ws
  = foldl (λ ws f, scalar_step r f ws)
      (fill_licenses r (fill_workHistory r (fill_educationHistory r
         (foldl (λ ws f, scalar_step r f ws) ws early_fields))))
      late_fields.
Proof. reflexivity. Qed.

Lemma scalar_step_frame (r : ExtractedResumeData) (f : scalar_field)
    (ws : worksheet) (a : text) :
  a ≠ cell_of f → scalar_step r f ws !! a = ws !! a.
Proof.
  intros Hne.
  destruct f; cbn [scalar_step cell_of] in *;
    unfold fill_name, fill_nameKana, fill_birthDate, fill_gender,
      fill_addressKana, fill_postalCode, fill_address, fill_phoneNumber,
      fill_email, fill_healthCondition, fill_hobbies, fill_nearestStation,
      fill_dependents, fill_hasSpouse, fill_supportingSpouse;
    first [apply when_text_frame | apply when_defined_frame];
    intros v _; cbv beta; try (destruct (js_match v re_birthDateParts));
    apply lookup_insert_ne; congruence.
Qed.

Lemma scalar_step_own (r : ExtractedResumeData) (f : scalar_field)
    (ws : worksheet) (v : CellValue) :
  written_value f r = Some v → scalar_step r f ws !! cell_of f = Some v.
Proof.
  destruct f; cbn [scalar_step cell_of written_value];
    unfold fill_name, fill_nameKana, fill_birthDate, fill_gender,
      fill_addressKana, fill_postalCode, fill_address, fill_phoneNumber,
      fill_email, fill_healthCondition, fill_hobbies, fill_nearestStation,
      fill_dependents, fill_hasSpouse, fill_supportingSpouse,
      when_text, when_defined, birthDate_cell;
    intros Hv;
    match type of Hv with
    | _ <$> ?o = Some _ => destruct o as [x|]; [|discriminate Hv]
    end;
    injection Hv as <-; cbv beta;
    try (destruct (js_match x re_birthDateParts));
    apply lookup_insert_eq.
Qed.

Lemma foldl_scalar_frame (r : ExtractedResumeData) (fs : list scalar_field)
    (ws : worksheet) (a : text) :
  (∀ f, f ∈ fs → a ≠ cell_of f) →
  foldl (λ ws f, scalar_step r f ws) ws fs !! a = ws !! a.
Proof.
  revert ws. induction fs as [|f fs IH]; intros ws H; [reflexivity|].
  simpl. rewrite IH by (intros g Hg; apply H; right; exact Hg).
  apply scalar_step_frame, H. left.
Qed.

Lemma foldl_scalar_own (r : ExtractedResumeData) (fs : list scalar_field)
    (ws : worksheet) (f : scalar_field) (v : CellValue) :
  NoDup fs → f ∈ fs → written_value f r = Some v →
  foldl (λ ws f, scalar_step r f ws) ws fs !! cell_of f = Some v.
Proof.
  revert ws. induction fs as [|g fs IH]; intros ws Hnd Hin Hv;
    [apply elem_of_nil in Hin as []|].
  apply NoDup_cons in Hnd as [Hg Hnd]. simpl.
  apply elem_of_cons in Hin as [->|Hin]; [|apply IH; assumption].
  rewrite foldl_scalar_frame.
  - apply scalar_step_own, Hv.
  - intros f Hf E. apply cell_of_inj in E as ->. contradiction.
Qed.

Ltac distinct_fields :=
  repeat (apply NoDup_cons; split;
          [let H := fresh in
           intros H;
           repeat (apply elem_of_cons in H as [H|H]; [discriminate H|]);
           apply elem_of_nil in H as []|]);
  apply NoDup_nil; exact I.

Lemma early_NoDup : NoDup early_fields.
Proof. unfold early_fields. distinct_fields. Qed.

Lemma late_NoDup : NoDup late_fields.
Proof. unfold late_fields. distinct_fields. Qed.

Lemma early_late (f : scalar_field) : f ∈ early_fields ∨ f ∈ late_fields.
Proof.
  destruct f;
    first [left; solve [repeat constructor] | right; solve [repeat constructor]].
Qed.

Lemma early_rows (f : scalar_field) : f ∈ early_fields → row_of f < 14.
Proof.
  unfold early_fields. intros H.
  repeat (apply elem_of_cons in H as [->|H]; [reflexivity|]).
  apply elem_of_nil in H as [].
Qed.

Lemma late_cols (f : scalar_field) : f ∈ late_fields → col_of f = 0x49 ∨ col_of f = 0x4C.
Proof.
  unfold late_fields. intros H.
  repeat (apply elem_of_cons in H as [->|H]; [auto|]).
  apply elem_of_nil in H as [].
Qed.

(** A cell above the start row lies in no region that starts there. *)
Lemma above_region (c c1 c2 c3 : N) (n start : N) (o : option (list Entry)) :
  n < start → cell [c] n ∉ region [c1] [c2] [c3] start o.
Proof.
  intros Hlt. destruct o as [l|]; [|intros []%elem_of_nil].
  intros (i & _ & [E|[E|E]])%region_spec; apply cell_inj in E as [_ E]; lia.
Qed.

(** A cell of another column lies in no region of these columns. *)
Lemma beside_region (c c1 c2 c3 : N) (n start : N) (o : option (list Entry)) :
  c ≠ c1 → c ≠ c2 → c ≠ c3 → cell [c] n ∉ region [c1] [c2] [c3] start o.
Proof.
  intros H1 H2 H3. destruct o as [l|]; [|intros []%elem_of_nil].
  intros (i & _ & [E|[E|E]])%region_spec; apply cell_inj in E as [E _];
    congruence.
Qed.

(** Later steps do not write to the cell of a given field. *)
Lemma scalar_cells (r : ExtractedResumeData) (ws : worksheet)
    (f : scalar_field) (v : CellValue) :
  written_value f r = Some v → fill_sheet r ws !! cell_of f = Some v.
Proof.
  intros Hv. rewrite fill_sheet_steps.
  destruct (early_late f) as [He|Hl].
  - rewrite foldl_scalar_frame.
    + unfold fill_licenses, fill_workHistory, fill_educationHistory.
      rewrite cell_of_eq.
      change (u8"A") with [0x41]. change (u8"B") with [0x42].
      change (u8"C") with [0x43]. change (u8"I") with [0x49].
      change (u8"J") with [0x4A]. change (u8"K") with [0x4B].
      pose proof (early_rows f He) as Hrow.
      rewrite !write_rows_frame by (apply above_region; lia).
      rewrite <- cell_of_eq.
      apply foldl_scalar_own; [apply early_NoDup|exact He|exact Hv].
    + intros g Hg E. apply cell_of_inj in E as ->.
      clear -He Hg. unfold early_fields, late_fields in *.
      repeat (apply elem_of_cons in He as [->|He];
              [repeat (apply elem_of_cons in Hg as [Hg|Hg]; [discriminate|]);
               apply elem_of_nil in Hg as []|]).
      apply elem_of_nil in He as [].
  - apply foldl_scalar_own; [apply late_NoDup|exact Hl|exact Hv].
Qed.

(** Every single-cell field the record gives is found in its cell of the
    filled sheet with the value written for it: the strings verbatim
    (the postal code after the mark, the address and the birth date
    in their cell formats), the number of dependents as a number also
    when it is 0 or NaN, the booleans as あり or なし.  No later write
    overwrites it: the license rows are written before the cells I17,
    I18 and I19 of healthCondition, hobbies and nearestStation. *)
Theorem given_fields_are_read_back (r : ExtractedResumeData) (ws : worksheet)
    (f : scalar_field) (v : CellValue) :
  written_value f r = Some v → fill_sheet r ws !! cell_of f = Some v.
Proof. apply scalar_cells. Qed.

Lemma given_fields_are_read_back_witness :
  fill_sheet (set_healthCondition u8"良好" four_licenses) template_I17 !! u8"I17"
  = Some (VString u8"良好").
Proof.
  apply (given_fields_are_read_back (set_healthCondition u8"良好" four_licenses)
           template_I17 F_healthCondition).
  reflexivity.
Defined.

(** *** The repeated rows *)

Lemma foldl_write_entry_rows (c1 c2 c3 : N) :
  c1 ≠ c2 → c1 ≠ c3 → c2 ≠ c3 →
  ∀ (l : list Entry) (start : N) (ws : worksheet) (i : nat) (e : Entry),
    l !! i = Some e →
    row_holds (foldl (write_entry [c1] [c2] [c3]) (start, ws) l).2
      [c1] [c2] [c3] (start + N.of_nat i) e.
Proof.
  intros H12 H13 H23. induction l as [|e0 l IH]; intros start ws i e Hi;
    [discriminate|].
  destruct i as [|i]; simpl in Hi.
  - injection Hi as ->. simpl. rewrite N.add_0_r. unfold row_holds.
    rewrite !foldl_write_entry_frame
      by (intros j _; repeat split; intros [_ Hr]%cell_inj; lia).
    split; [|split].
    + rewrite !lookup_insert_ne by (intros [? _]%cell_inj; congruence).
      apply lookup_insert_eq.
    + rewrite lookup_insert_ne by (intros [? _]%cell_inj; congruence).
      apply lookup_insert_eq.
    + apply lookup_insert_eq.
  - simpl. replace (start + N.of_nat (S i)) with (start + 1 + N.of_nat i) by lia.
    apply IH. exact Hi.
Qed.

Lemma write_rows_holds (c1 c2 c3 : N) (start : N) (l : list Entry)
    (ws : worksheet) (i : nat) (e : Entry) :
  c1 ≠ c2 → c1 ≠ c3 → c2 ≠ c3 → l !! i = Some e →
  row_holds (write_rows [c1] [c2] [c3] start (Some l) ws) [c1] [c2] [c3]
    (start + N.of_nat i) e.
Proof.
  intros H12 H13 H23 Hi. unfold write_rows.
  destruct l as [|e0 l]; [discriminate|].
  apply foldl_write_entry_rows; assumption.
Qed.

Lemma scalar_step_absent (r : ExtractedResumeData) (f : scalar_field)
    (ws : worksheet) :
  present f r = false → scalar_step r f ws = ws.
Proof.
  destruct f; cbn [scalar_step present];
    unfold fill_name, fill_nameKana, fill_birthDate, fill_gender,
      fill_addressKana, fill_postalCode, fill_address, fill_phoneNumber,
      fill_email, fill_healthCondition, fill_hobbies, fill_nearestStation,
      fill_dependents, fill_hasSpouse, fill_supportingSpouse,
      when_text, when_defined;
    intros Hp;
    match type of Hp with
    | is_some ?o = false => destruct o; [discriminate Hp|reflexivity]
    end.
Qed.

Lemma foldl_scalar_frame_present (r : ExtractedResumeData)
    (fs : list scalar_field) (ws : worksheet) (a : text) :
  (∀ f, f ∈ fs → present f r = true → a ≠ cell_of f) →
  foldl (λ ws f, scalar_step r f ws) ws fs !! a = ws !! a.
Proof.
  revert ws. induction fs as [|f fs IH]; intros ws H; [reflexivity|].
  simpl. rewrite IH by (intros g Hg; apply H; right; exact Hg).
  destruct (present f r) eqn:Hp.
  - apply scalar_step_frame, H; [left|exact Hp].
  - rewrite scalar_step_absent by exact Hp. reflexivity.
Qed.

(** The rows of a sheet that agree on the three cells of a row. *)
Lemma row_holds_frame (ws ws' : worksheet) (c1 c2 c3 : text) (n : N) (e : Entry) :
  ws' !! cell c1 n = ws !! cell c1 n → ws' !! cell c2 n = ws !! cell c2 n →
  ws' !! cell c3 n = ws !! cell c3 n →
  row_holds ws c1 c2 c3 n e → row_holds ws' c1 c2 c3 n e.
Proof. unfold row_holds. intros -> -> ->. auto. Qed.

Lemma late_not_col (c : N) (n : N) (f : scalar_field) :
  c ≠ 0x49 → c ≠ 0x4C → f ∈ late_fields → cell [c] n ≠ cell_of f.
Proof.
  intros H1 H2 Hf E. rewrite cell_of_eq in E. apply cell_inj in E as [E _].
  destruct (late_cols f Hf); congruence.
Qed.

Lemma work_rows (r : ExtractedResumeData) (ws : worksheet)
    (l : list Entry) (i : nat) (e : Entry) :
  workHistory r = Some l → l !! i = Some e →
  row_holds (fill_sheet r ws) u8"A" u8"B" u8"C" (20 + N.of_nat i) e.
Proof.
  intros Hl Hi. rewrite fill_sheet_steps.
  change (u8"A") with [0x41]. change (u8"B") with [0x42].
  change (u8"C") with [0x43].
  set (ws1 := fill_educationHistory r _).
  assert (row_holds (fill_workHistory r ws1) [0x41] [0x42] [0x43]
            (20 + N.of_nat i) e) as H.
  { unfold fill_workHistory. rewrite Hl.
    apply (write_rows_holds 0x41 0x42 0x43); [discriminate..|exact Hi]. }
  revert H. apply row_holds_frame;
    (rewrite foldl_scalar_frame
       by (intros f Hf; apply late_not_col; [discriminate..|exact Hf]);
     unfold fill_licenses;
     change (u8"I") with [0x49]; change (u8"J") with [0x4A];
     change (u8"K") with [0x4B];
     apply write_rows_frame, beside_region; discriminate).
Qed.

(** Every work-history entry is found in the filled sheet: the entry of
    index i in the cells A, B and C of row 20 + i, whatever else the
    record holds and however long the list is. *)
Theorem workHistory_rows_are_read_back (r : ExtractedResumeData)
    (ws : worksheet) (l : list Entry) (i : nat) (e : Entry) :
  workHistory r = Some l → l !! i = Some e →
  row_holds (fill_sheet r ws) u8"A" u8"B" u8"C" (20 + N.of_nat i) e.
Proof. apply work_rows. Qed.

Lemma workHistory_rows_are_read_back_witness :
  let e := {| year := u8"2014"; month := u8"4"; description := u8"B社 入社" |} in
  row_holds (fill_sheet (set_workHistory [e] empty_data) ∅) u8"A" u8"B" u8"C" 20 e.
Proof.
  intros e.
  exact (workHistory_rows_are_read_back (set_workHistory [e] empty_data) ∅ [e]
           0 e eq_refl eq_refl).
Defined.

(** The education rows start at row 14 and the work-history rows, written
    after them, at row 20.  An education entry of index i is found in
    the cells A, B and C of row 14 + i as long as no work-history row
    reaches that row: for i < 6, or when the work history has at most
    i - 6 entries.  From the seventh education entry on, the rows
    coincide, and the work-history entry is what the sheet holds. *)
Theorem educationHistory_rows_until_workHistory (r : ExtractedResumeData)
    (ws : worksheet) (l : list Entry) (i : nat) (e : Entry) :
  educationHistory r = Some l → l !! i = Some e →
  ((∀ lw, workHistory r = Some lw → (i < 6 ∨ 6 + length lw ≤ i)%nat) →
   row_holds (fill_sheet r ws) u8"A" u8"B" u8"C" (14 + N.of_nat i) e)
  ∧ (∀ lw e', workHistory r = Some lw → (6 ≤ i)%nat →
       lw !! (i - 6)%nat = Some e' →
       row_holds (fill_sheet r ws) u8"A" u8"B" u8"C" (14 + N.of_nat i) e').
Proof.
  intros Hl Hi. split.
  - intros Hw. rewrite fill_sheet_steps.
    change (u8"A") with [0x41]. change (u8"B") with [0x42].
    change (u8"C") with [0x43].
    set (ws1 := foldl _ ws early_fields).
    assert (row_holds (fill_educationHistory r ws1) [0x41] [0x42] [0x43]
              (14 + N.of_nat i) e) as H.
    { unfold fill_educationHistory. rewrite Hl.
      apply (write_rows_holds 0x41 0x42 0x43); [discriminate..|exact Hi]. }
    assert (∀ c, cell [c] (14 + N.of_nat i)
                 ∉ region [0x41] [0x42] [0x43] 20 (workHistory r)) as Hout.
    { intros c. destruct (workHistory r) as [lw|]; [|intros []%elem_of_nil].
      specialize (Hw lw eq_refl).
      intros (j & Hj & [E|[E|E]])%region_spec;
        apply cell_inj in E as [_ E]; lia. }
    revert H. apply row_holds_frame;
      (rewrite foldl_scalar_frame
         by (intros f Hf; apply late_not_col; [discriminate..|exact Hf]);
       unfold fill_licenses, fill_workHistory;
       change (u8"A") with [0x41]; change (u8"B") with [0x42];
       change (u8"C") with [0x43];
       change (u8"I") with [0x49]; change (u8"J") with [0x4A];
       change (u8"K") with [0x4B];
       rewrite write_rows_frame by (apply beside_region; discriminate);
       apply write_rows_frame, Hout).
  - intros lw e' Hw H6 He'.
    replace (14 + N.of_nat i) with (20 + N.of_nat (i - 6)) by lia.
    eapply work_rows; eassumption.
Qed.

Lemma educationHistory_rows_until_workHistory_witness :
  let e := {| year := u8"2010"; month := u8"4"; description := u8"A高校 入学" |} in
  row_holds (fill_sheet (set_educationHistory [e] empty_data) ∅)
    u8"A" u8"B" u8"C" 14 e.
Proof.
  intros e.
  apply (proj1 (educationHistory_rows_until_workHistory
                  (set_educationHistory [e] empty_data) ∅ [e] 0 e
                  eq_refl eq_refl)).
  intros lw [=].
Defined.

(** Every license entry of index i is found in row 14 + i of the filled
    sheet: month and description in the cells J and K, and the year in
    the cell I unless that cell is the cell of a field the record gives
    (I17, I18, I19 for the entries of index 3, 4 and 5), which is written
    later. *)
Theorem license_rows_are_read_back (r : ExtractedResumeData) (ws : worksheet)
    (l : list Entry) (i : nat) (e : Entry) :
  licenses r = Some l → l !! i = Some e →
  fill_sheet r ws !! cell u8"J" (14 + N.of_nat i) = Some (VString (month e))
  ∧ fill_sheet r ws !! cell u8"K" (14 + N.of_nat i)
    = Some (VString (description e))
  ∧ ((∀ f, present f r = true → cell_of f ≠ cell u8"I" (14 + N.of_nat i)) →
     fill_sheet r ws !! cell u8"I" (14 + N.of_nat i) = Some (VString (year e)))
  ∧ (∀ f v, written_value f r = Some v →
       cell_of f = cell u8"I" (14 + N.of_nat i) →
       fill_sheet r ws !! cell u8"I" (14 + N.of_nat i) = Some v).
Proof.
  intros Hl Hi.
  change (u8"I") with [0x49]. change (u8"J") with [0x4A].
  change (u8"K") with [0x4B].
  assert (∀ ws1, row_holds (fill_licenses r ws1) [0x49] [0x4A] [0x4B]
                   (14 + N.of_nat i) e) as H.
  { intros ws1. unfold fill_licenses. rewrite Hl.
    change (u8"I") with [0x49]. change (u8"J") with [0x4A].
    change (u8"K") with [0x4B].
    apply (write_rows_holds 0x49 0x4A 0x4B); [discriminate..|exact Hi]. }
  split; [|split; [|split]].
  - rewrite fill_sheet_steps, foldl_scalar_frame
      by (intros f Hf; apply late_not_col; [discriminate..|exact Hf]).
    apply H.
  - rewrite fill_sheet_steps, foldl_scalar_frame
      by (intros f Hf; apply late_not_col; [discriminate..|exact Hf]).
    apply H.
  - intros Hfree. rewrite fill_sheet_steps, foldl_scalar_frame_present.
    + apply H.
    + intros f _ Hp E. apply (Hfree f Hp). symmetry. exact E.
  - intros f v Hv E. rewrite <- E, fill_sheet_steps.
    destruct (early_late f) as [He|Hlate];
      [|apply foldl_scalar_own; [apply late_NoDup|exact Hlate|exact Hv]].
    exfalso. pose proof (early_rows f He) as Hrow.
    rewrite cell_of_eq in E. apply cell_inj in E as [_ E]. lia.
Qed.

Lemma license_rows_are_read_back_witness :
  fill_sheet four_licenses template_I17 !! cell u8"I" (14 + N.of_nat 3)
  = Some (VString u8"2018").
Proof.
  apply (proj1 (proj2 (proj2 (license_rows_are_read_back four_licenses
                                template_I17 _ 3 _ eq_refl eq_refl)))).
  intros f Hp. destruct f; discriminate Hp.
Defined.

(** *** The cells of birth date and address *)

(** Exactly [n] units of a class. *)
Lemma run_times {A} (n : nat) cl (w s : text) c (k : text → captures → option A) :
  Forall (λ x, in_class cl x = true) w → length w = n →
  run (times n cl) (w ++ s) c k = k s c.
Proof.
  intros Hw <-. unfold times. cbn [run]. unfold rep.
  rewrite rep_exact_app by exact Hw.
  cbv zeta. cbn [fmap option_fmap option_map]. rewrite Nat.sub_diag.
  destruct s as [|x s]; [reflexivity|]. cbn [rep_greedy may_repeat].
  rewrite andb_false_r. reflexivity.
Qed.

Lemma js_match_needs_label l r (t : text) :
  nowhere l t → js_match t (RChars l ∙ r) = None.
Proof.
  intros Hn. destruct (js_match t _) as [m|] eqn:E; [|reflexivity].
  apply js_match_sound in E as (pre & Ht & _ & M).
  assert (∃ w2, m_whole m = l ++ w2) as [w2 Hw].
  { inversion M as [| | |? ? w1 w2 ? ? ? ? M1 M2| | | | |].
    inversion M1. subst. eauto. }
  exfalso. apply (Hn (length pre)).
  rewrite Ht, Hw, <- (assoc_L (++)). apply occurs_in_middle.
Qed.

(** The expression of the address cell, run where a postal code stands,
    takes the mark, the code and the white space around it. *)
Lemma postalPrefix_eval (sp d3 d4 sp2 rest : text) :
  all_spaces sp → length d3 = 3%nat → all_digits d3 →
  length d4 = 4%nat → all_digits d4 → all_spaces sp2 → stops is_space rest →
  match_here re_postalPrefix
    (u8"〒" ++ sp ++ d3 ++ u8"-" ++ d4 ++ sp2 ++ rest)
  = Some (rest, ∅).
Proof.
  intros Hsp H3 Hd3 H4 Hd4 Hsp2 Hrest.
  unfold match_here, re_postalPrefix. cbn [run].
  rewrite strip_prefix_app.
  destruct d3 as [|x d3]; [discriminate|].
  pose proof (Forall_inv Hd3) as Hx. simpl in Hx.
  apply run_star_max; [apply all_spaces_class, Hsp| |].
  { simpl. rewrite orb_false_r. apply digit_not_space, Hx. }
  rewrite (run_times 3 digits (x :: d3))
    by (apply all_digits_class, Hd3 || exact H3).
  rewrite strip_prefix_app.
  rewrite (run_times 4 digits d4) by (apply all_digits_class, Hd4 || exact H4).
  apply run_star_max; [apply all_spaces_class, Hsp2| |reflexivity].
  destruct rest as [|y rest]; [exact I|]. simpl in Hrest |- *.
  rewrite orb_false_r. exact Hrest.
Qed.

(** The address cell A7 holds the address without its first postal code:
    the mark 〒, the code NNN-NNNN and the white space before and after
    the code are removed, what stands before the mark and after that
    white space is kept.  An address without the mark is written as it
    is. *)
Theorem address_cell_drops_postal_code (r : ExtractedResumeData)
    (ws : worksheet) (a : text) :
  address r = Some a → a ≠ [] →
  (nowhere u8"〒" a → fill_sheet r ws !! u8"A7" = Some (VString a))
  ∧ (∀ pre sp d3 d4 sp2 rest,
       a = pre ++ u8"〒" ++ sp ++ d3 ++ u8"-" ++ d4 ++ sp2 ++ rest →
       nowhere u8"〒" pre → all_spaces sp →
       length d3 = 3%nat → all_digits d3 → length d4 = 4%nat → all_digits d4 →
       all_spaces sp2 → stops is_space rest →
       fill_sheet r ws !! u8"A7" = Some (VString (pre ++ rest))).
Proof.
  intros Ha Hne.
  assert (fill_sheet r ws !! u8"A7"
          = Some (VString (js_replace a re_postalPrefix []))) as ->.
  { apply (scalar_cells r ws F_address). simpl. rewrite Ha.
    destruct a; [contradiction|reflexivity]. }
  split.
  - intros Hn. unfold js_replace, re_postalPrefix.
    rewrite js_match_needs_label by exact Hn. reflexivity.
  - intros pre sp d3 d4 sp2 rest -> Hpre Hsp H3 Hd3 H4 Hd4 Hsp2 Hrest.
    unfold js_replace.
    pose proof (postalPrefix_eval sp d3 d4 sp2 rest Hsp H3 Hd3 H4 Hd4 Hsp2 Hrest)
      as Hm.
    unfold re_postalPrefix in Hm |- *.
    assert (free_before [u8"〒"]
              (pre ++ u8"〒" ++ sp ++ d3 ++ u8"-" ++ d4 ++ sp2 ++ rest)
              (length pre)) as Hfree.
    { intros h j ->%list_elem_of_singleton Hj [post Hp].
      apply (Hpre j). rewrite drop_app_le in Hp by lia.
      change (u8"〒") with [0x3012] in Hp |- *.
      destruct (drop j pre) as [|x q] eqn:Ed.
      { apply (f_equal length) in Ed. rewrite length_drop in Ed.
        simpl in Ed. lia. }
      simpl in Hp. injection Hp as -> _. exists q. rewrite Ed. reflexivity. }
    rewrite (js_match_first _ _ pre _ _ _ Hfree Hm).
    cbn [m_index m_rest]. rewrite take_app_length. reflexivity.
Qed.

Lemma address_cell_drops_postal_code_witness :
  fill_sheet (set_address u8"〒123-4567 東京都新宿区" empty_data) ∅ !! u8"A7"
  = Some (VString u8"東京都新宿区").
Proof.
  apply (proj2 (address_cell_drops_postal_code
                  (set_address u8"〒123-4567 東京都新宿区" empty_data) ∅
                  u8"〒123-4567 東京都新宿区" eq_refl ltac:(discriminate))
           [] [] u8"123" u8"4567" u8" " u8"東京都新宿区").
  - reflexivity.
  - intros j [post Hp]. rewrite drop_nil in Hp. discriminate Hp.
  - constructor.
  - reflexivity.
  - apply Forall_forallb. vm_compute. reflexivity.
  - reflexivity.
  - apply Forall_forallb. vm_compute. reflexivity.
  - apply Forall_forallb. vm_compute. reflexivity.
  - reflexivity.
Defined.

Lemma birthDateParts_eval (y s1 s2 m s3 s4 dd s5 rest : text) :
  y ≠ [] → all_digits y → m ≠ [] → all_digits m → dd ≠ [] → all_digits dd →
  all_spaces s1 → all_spaces s2 → all_spaces s3 → all_spaces s4 → all_spaces s5 →
  match_here re_birthDateParts
    (y ++ s1 ++ u8"年" ++ s2 ++ m ++ s3 ++ u8"月" ++ s4 ++ dd ++ s5 ++ u8"日"
     ++ rest)
  = Some (rest, <[3%nat := dd]> (<[2%nat := m]> (<[1%nat := y]> ∅))).
Proof.
  intros Hy Hyd Hm Hmd Hd Hdd H1 H2 H3 H4 H5.
  destruct y as [|y0 y]; [contradiction|]. destruct m as [|m0 m]; [contradiction|].
  destruct dd as [|d0 dd]; [contradiction|].
  pose proof (Forall_inv Hmd) as Hm0. pose proof (Forall_inv Hdd) as Hd0.
  simpl in Hm0, Hd0.
  unfold match_here, re_birthDateParts. cbn [run].
  change ((y0 :: y) ++ ?t) with (y0 :: y ++ t).
  apply run_plus_max; [apply all_digits_class, Hyd| |].
  { apply stops_app; [apply spaces_not_digits, H1|reflexivity]. }
  match goal with
  | |- context [consumed (y0 :: y ++ ?t) ?t] =>
      change (consumed (y0 :: y ++ t) t) with (consumed ((y0 :: y) ++ t) t)
  end.
  rewrite (consumed_app (y0 :: y)).
  apply run_star_max; [apply all_spaces_class, H1|reflexivity|].
  rewrite strip_prefix_app.
  apply run_star_max; [apply all_spaces_class, H2| |].
  { simpl. rewrite orb_false_r. apply digit_not_space, Hm0. }
  change ((m0 :: m) ++ ?t) with (m0 :: m ++ t).
  apply run_plus_max; [apply all_digits_class, Hmd| |].
  { apply stops_app; [apply spaces_not_digits, H3|reflexivity]. }
  match goal with
  | |- context [consumed (m0 :: m ++ ?t) ?t] =>
      change (consumed (m0 :: m ++ t) t) with (consumed ((m0 :: m) ++ t) t)
  end.
  rewrite (consumed_app (m0 :: m)).
  apply run_star_max; [apply all_spaces_class, H3|reflexivity|].
  rewrite strip_prefix_app.
  apply run_star_max; [apply all_spaces_class, H4| |].
  { simpl. rewrite orb_false_r. apply digit_not_space, Hd0. }
  change ((d0 :: dd) ++ ?t) with (d0 :: dd ++ t).
  apply run_plus_max; [apply all_digits_class, Hdd| |].
  { apply stops_app; [apply spaces_not_digits, H5|reflexivity]. }
  match goal with
  | |- context [consumed (d0 :: dd ++ ?t) ?t] =>
      change (consumed (d0 :: dd ++ t) t) with (consumed ((d0 :: dd) ++ t) t)
  end.
  rewrite (consumed_app (d0 :: dd)).
  apply run_star_max; [apply all_spaces_class, H5|reflexivity|].
  rewrite strip_prefix_app. reflexivity.
Qed.

Lemma birthDateParts_needs_year (v : text) :
  nowhere u8"年" v → js_match v re_birthDateParts = None.
Proof.
  intros Hn. destruct (js_match v _) as [m|] eqn:E; [|reflexivity].
  apply js_match_sound in E as (pre & Ht & _ & M).
  assert (∃ a b, m_whole m = a ++ u8"年" ++ b) as (a & b & Hw).
  { revert M. unfold re_birthDateParts, plus, star. intros M. invert_matches.
    match goal with
    | |- ∃ a b, ?y ++ ?s ++ _ ++ ?t = _ => exists (y ++ s), t
    end.
    rewrite <- (assoc_L (++)). reflexivity. }
  exfalso. apply (Hn (length (pre ++ a))).
  rewrite Ht, Hw, <- !(assoc_L (++)). rewrite (assoc_L (++) pre a).
  apply occurs_in_middle.
Qed.

(** The birth-date cell A5.  A birth date of the form Y年M月D日 (digits,
    white space allowed around 年 and 月 and before 日) is written as
    "Y年 M月 D日生 （ 満 N歳 ）", where N is what the template literal
    prints for [age || '']: nothing when the age is absent, NaN, 0 or
    -0; all the digits of an age from 1 to 2^53 - 1; Infinity for an
    infinite age; and for every other age the text of the number, which
    for an integer beyond 2^53 has zeros for its last digits or an
    exponent.  A birth date in which 年 does not occur is written as it
    is. *)
Theorem birthDate_cell_format (r : ExtractedResumeData) (ws : worksheet)
    (v : text) :
  birthDate r = Some v → v ≠ [] →
  (nowhere u8"年" v → fill_sheet r ws !! u8"A5" = Some (VString v))
  ∧ (∀ y s1 s2 m s3 s4 dd s5 rest,
       v = y ++ s1 ++ u8"年" ++ s2 ++ m ++ s3 ++ u8"月" ++ s4 ++ dd ++ s5
           ++ u8"日" ++ rest →
       y ≠ [] → all_digits y → m ≠ [] → all_digits m →
       dd ≠ [] → all_digits dd →
       all_spaces s1 → all_spaces s2 → all_spaces s3 → all_spaces s4 →
       all_spaces s5 →
       ∃ n, fill_sheet r ws !! u8"A5"
            = Some (VString (y ++ u8"年 " ++ m ++ u8"月 " ++ dd
                             ++ u8"日生 （ 満 " ++ n ++ u8"歳 ）"))
            ∧ (age r = None ∨ age r = Some NaN ∨ age r = Some (Num 0)
               ∨ age r = Some NegZero → n = [])
            ∧ (∀ z, age r = Some (Num z) → (0 < z < 2 ^ 53)%Z →
                    n = N_text (Z.to_N z))
            ∧ (age r = Some (Infinity false) → n = u8"Infinity")
            ∧ (∀ x, age r = Some x → x ≠ NaN → x ≠ Num 0 → x ≠ NegZero →
                    n = number_text x)).
Proof.
  intros Hv Hne.
  assert (fill_sheet r ws !! u8"A5"
          = Some (VString (birthDate_cell v (age r)))) as ->.
  { apply (scalar_cells r ws F_birthDate). simpl. rewrite Hv.
    destruct v; [contradiction|reflexivity]. }
  unfold birthDate_cell. split.
  - intros Hn. rewrite birthDateParts_needs_year by exact Hn. reflexivity.
  - intros y s1 s2 m s3 s4 dd s5 rest -> Hy Hyd Hm Hmd Hd Hdd H1 H2 H3 H4 H5.
    unfold js_match.
    rewrite (search_from_here _ _ _ _ _
               (birthDateParts_eval y s1 s2 m s3 s4 dd s5 rest
                  Hy Hyd Hm Hmd Hd Hdd H1 H2 H3 H4 H5)).
    unfold group_text, group. cbn [m_groups].
    rewrite lookup_insert_ne by discriminate.
    rewrite lookup_insert_ne by discriminate.
    rewrite lookup_insert_eq.
    rewrite (lookup_insert_ne _ 3%nat 2%nat) by discriminate.
    rewrite lookup_insert_eq. rewrite lookup_insert_eq. cbn [default].
    exists (age_or_empty (age r)). split; [reflexivity|].
    split; [|split; [|split]].
    + intros [->|[->|[->| ->]]]; reflexivity.
    + intros z -> Hz. unfold age_or_empty.
      destruct (Z.eqb_spec z 0); [lia|]. apply number_text_small. lia.
    + intros ->. reflexivity.
    + intros x -> Hx1 Hx2 Hx3. destruct x as [|z| | |]; try contradiction;
        try reflexivity.
      unfold age_or_empty. destruct (Z.eqb_spec z 0); [|reflexivity].
      subst z. contradiction.
Qed.

Lemma birthDate_cell_format_witness :
  ∃ n, fill_sheet (set_age (Num 34) (set_birthDate u8"1990年5月3日" empty_data)) ∅
         !! u8"A5"
       = Some (VString (u8"1990" ++ u8"年 " ++ u8"5" ++ u8"月 " ++ u8"3"
                        ++ u8"日生 （ 満 " ++ n ++ u8"歳 ）"))
       ∧ n = N_text 34.
Proof.
  destruct (proj2 (birthDate_cell_format
                     (set_age (Num 34) (set_birthDate u8"1990年5月3日" empty_data))
                     ∅ u8"1990年5月3日" eq_refl ltac:(discriminate))
              u8"1990" [] [] u8"5" [] [] u8"3" [] []
              eq_refl ltac:(discriminate)
              ltac:(apply Forall_forallb; vm_compute; reflexivity)
              ltac:(discriminate)
              ltac:(apply Forall_forallb; vm_compute; reflexivity)
              ltac:(discriminate)
              ltac:(apply Forall_forallb; vm_compute; reflexivity)
              ltac:(constructor) ltac:(constructor) ltac:(constructor)
              ltac:(constructor) ltac:(constructor))
    as (n & Hn & _ & Hz & _).
  exists n. split; [exact Hn|].
  apply (Hz 34%Z eq_refl). split; reflexivity.
Defined.

(** ** From the OCR result to the sheet *)






(** *** The export button *)

(** handleExportToExcel.  Without an OCR result nothing happens.  For a
    result without pages the error of the extractor is shown and neither
    the template is read nor anything published.  For a result with
    pages, a template with Sheet1 and a successful upload, no error is
    shown and the link is the URL of the sheet that the filler made of
    the extracted record; with a template without Sheet1 the error of
    the filler is shown.  Whenever the handler ran, isExporting is false
    at the end, and a link is produced exactly when no error is shown. *)
Theorem handleExportToExcel_outcomes (files : ExportOptions.Files)
    (st : ExportOptions.ExportState) :
  ExportOptions.handleExportToExcel files None st = (st, None)
  ∧ (∀ r, pages r = None ∨ pages r = Some [] →
          ExportOptions.handleExportToExcel files (Some r) st
          = ({| ExportOptions.isExporting := false;
                ExportOptions.exportError := Some u8"有効なOCR結果がありません" |},
             None))
  ∧ (∀ r p ps, pages r = Some (p :: ps) →
       ∃ d, extractResumeData (Some r) = Ok d
            ∧ (∀ ws url,
                 ExportOptions.template files = Ok (Some ws) →
                 ExportOptions.publish files (fill_sheet d ws) = Ok url →
                 ExportOptions.handleExportToExcel files (Some r) st
                 = ({| ExportOptions.isExporting := false;
                       ExportOptions.exportError := None |}, Some url))
            ∧ (ExportOptions.template files = Ok None →
               ExportOptions.handleExportToExcel files (Some r) st
               = ({| ExportOptions.isExporting := false;
                     ExportOptions.exportError
                       := Some u8"テンプレートにSheet1が見つかりません" |},
                  None)))
  ∧ (∀ r, let '(st', link) :=
            ExportOptions.handleExportToExcel files (Some r) st in
          ExportOptions.isExporting st' = false
          ∧ (is_Some link ↔ ExportOptions.exportError st' = None)).
Proof.
  split; [reflexivity|]. split; [|split].
  - intros r Hp. unfold ExportOptions.handleExportToExcel, extractResumeData.
    destruct Hp as [-> | ->]; reflexivity.
  - intros r p ps Hp.
    destruct (extractFields_total (allText_of (p :: ps))) as [d Hd].
    assert (extractResumeData (Some r) = Ok d) as E
      by (unfold extractResumeData; rewrite Hp; exact Hd).
    exists d. split; [exact E|]. split.
    + intros ws url Ht Hu. unfold ExportOptions.handleExportToExcel.
      rewrite E. cbn [mbind outcome_bind].
      unfold ExportOptions.generateResumeExcel_url. rewrite Ht.
      cbn [mbind outcome_bind generateResumeExcel]. rewrite Hu. reflexivity.
    + intros Ht. unfold ExportOptions.handleExportToExcel.
      rewrite E. cbn [mbind outcome_bind].
      unfold ExportOptions.generateResumeExcel_url. rewrite Ht. reflexivity.
  - intros r. unfold ExportOptions.handleExportToExcel.
    destruct (_ ≫= _) as [url|msg]; cbn.
    + split; [reflexivity|]. split; eauto.
    + split; [reflexivity|]. split; [intros [? [=]]|discriminate].
Qed.

(** *** The transfer form *)

(** handleAutoExtract.  Without an OCR result nothing happens; for a
    result without pages the fields are kept as they are and one line is
    logged.  For a result with pages the nine fields are replaced, each
    by the extracted value or by the empty text, whatever they held
    before; addressKana is always replaced by the empty text. *)
Theorem handleAutoExtract_fields (transferFields : gmap text text) :
  DataTransfer.handleAutoExtract None transferFields = (transferFields, [])
  ∧ (∀ r, pages r = None ∨ pages r = Some [] →
          DataTransfer.handleAutoExtract (Some r) transferFields
          = (transferFields, [u8"自動抽出エラー:"]))
  ∧ (∀ r p ps, pages r = Some (p :: ps) →
       ∃ d fields,
         extractResumeData (Some r) = Ok d
         ∧ DataTransfer.handleAutoExtract (Some r) transferFields = (fields, [])
         ∧ DataTransfer.handleAutoExtract (Some r) ∅ = (fields, [])
         ∧ fields !! u8"name" = Some (default [] (name d))
         ∧ fields !! u8"nameKana" = Some (default [] (nameKana d))
         ∧ fields !! u8"birthDate" = Some (default [] (birthDate d))
         ∧ fields !! u8"gender" = Some (default [] (gender d))
         ∧ fields !! u8"address" = Some (default [] (address d))
         ∧ fields !! u8"addressKana" = Some []
         ∧ fields !! u8"postalCode" = Some (default [] (postalCode d))
         ∧ fields !! u8"phoneNumber" = Some (default [] (phoneNumber d))
         ∧ fields !! u8"email" = Some (default [] (email d))
         ∧ size fields = 9%nat).
Proof.
  split; [reflexivity|]. split.
  - intros r Hp. unfold DataTransfer.handleAutoExtract, extractResumeData.
    destruct Hp as [-> | ->]; reflexivity.
  - intros r p ps Hp.
    destruct (extractFields_total (allText_of (p :: ps))) as [d Hd].
    assert (extractResumeData (Some r) = Ok d) as E
      by (unfold extractResumeData; rewrite Hp; exact Hd).
    pose proof (addressKana_spec _ _ Hd) as Hk.
    unfold DataTransfer.handleAutoExtract. rewrite E.
    eexists d, _. split; [reflexivity|]. split; [reflexivity|].
    split; [reflexivity|]. unfold DataTransfer.or_empty. rewrite Hk.
    cbn [list_to_map foldr uncurry fst snd].
    repeat (split;
            [repeat (first [apply lookup_insert_eq
                           | rewrite lookup_insert_ne
                               by (let E := fresh in
                                   intros E; vm_compute in E; discriminate E)])|]).
    rewrite !map_size_insert_None; [rewrite map_size_empty; reflexivity|..];
      repeat (first [apply lookup_empty
                    | rewrite lookup_insert_ne
                        by (let E := fresh in
                            intros E; vm_compute in E; discriminate E)]).
Qed.

(** ** The list fields of the extractor *)

Lemma in_order_skip x (s : text) (ws : list text) :
  in_order s ws → in_order (x :: s) ws.
Proof.
  destruct 1 as [s|pre w s ws H]; [constructor|].
  apply (in_order_cons (x :: pre)). exact H.
Qed.

(** The matches of a global match stand in the text in the order of the
    list, without overlap. *)
Lemma scan_all_in_order r : ∀ (s : text) (skip : nat),
  (skip ≤ length s)%nat → in_order (drop skip s) (scan_all r skip s).
Proof.
  induction s as [|x t IH]; intros skip Hskip.
  - destruct skip; [|simpl in Hskip; lia]. simpl.
    destruct (match_here r []) as [[s' c]|] eqn:E; [|constructor].
    apply match_here_sound in E as [Hs _].
    destruct (consumed [] s') as [|y w] eqn:Ew; [|discriminate].
    destruct s'; [|discriminate].
    apply (in_order_cons [] [] []). constructor.
  - destruct skip as [|n].
    + rewrite drop_0. cbn [scan_all].
      destruct (match_here r (x :: t)) as [[s' c]|] eqn:E.
      * apply match_here_sound in E as [Hs _].
        destruct (consumed (x :: t) s') as [|y w] eqn:Ew.
        -- simpl in Hs. subst s'. simpl.
           apply (in_order_cons [] [] (x :: t)). apply in_order_skip.
           specialize (IH 0%nat ltac:(lia)). rewrite drop_0 in IH. exact IH.
        -- simpl in Hs. injection Hs as -> ->. simpl.
           apply (in_order_cons [] (y :: w) s').
           specialize (IH (length w) ltac:(rewrite length_app; lia)).
           rewrite drop_app_length in IH. exact IH.
      * apply in_order_skip. specialize (IH 0%nat ltac:(lia)).
        rewrite drop_0 in IH. exact IH.
    + simpl. apply IH. simpl in Hskip. lia.
Qed.

Lemma scan_all_none r : ∀ (s : text) i,
  scan_all r 0 s = [] ↔ search_from r i s = None.
Proof.
  induction s as [|x t IH]; intros i; simpl.
  - destruct (match_here r []) as [[s' c]|]; split; try discriminate; auto.
  - destruct (match_here r (x :: t)) as [[s' c]|];
      [split; discriminate|apply IH].
Qed.

Lemma js_match_all_Some (s : text) r (l : list text) :
  js_match_all s r = Some l → l = scan_all r 0 s ∧ l ≠ [].
Proof.
  unfold js_match_all. destruct (scan_all r 0 s) as [|w l']; [discriminate|].
  intros [= <-]. split; [reflexivity|discriminate].
Qed.

Lemma js_match_all_holds (s : text) r :
  is_Some (js_match_all s r)
  ↔ ∃ pre w rest c, s = pre ++ w ++ rest ∧ Matches r w rest ∅ c.
Proof.
  unfold js_match_all. split.
  - destruct (scan_all r 0 s) as [|w l] eqn:E; [intros [? [=]]|]. intros _.
    assert (w ∈ scan_all r 0 s) as Hin by (rewrite E; left).
    apply scan_all_sound in Hin as (pre & rest & c & Hs & M).
    exists pre, w, rest, c. split; assumption.
  - intros (pre & w & rest & c & -> & M).
    destruct (js_match_complete r pre w rest _ _ M) as [m Hm].
    destruct (scan_all r 0 _) as [|w' l] eqn:E; [|eauto].
    apply (scan_all_none r _ 0%nat) in E. unfold js_match in Hm. congruence.
Qed.

Lemma list_value_spec (f : list_field) (allText : text)
    (d : ExtractedResumeData) :
  extractFields allText = Ok d →
  entries_of (section_entries allText (list_section f)) (list_value f d).
Proof.
  destruct f; simpl;
    [apply educationHistory_spec|apply workHistory_spec|apply licenses_spec].
Qed.

(** educationHistory, workHistory and licenses.  A list is set exactly
    when the text of its section holds a dated line; it is then never
    empty, and its entries are, in this order, the decompositions of
    texts that stand in the section one after the other without overlap,
    each of them matched by the pattern of a dated line. *)
Theorem list_fields_follow_the_text (ps : list OCRPage)
    (d : ExtractedResumeData) (f : list_field) :
  extractResumeData (Some {| pages := Some ps |}) = Ok d →
  let t := allText_of ps in
  (is_Some (list_value f d)
   ↔ ∃ sec, captured t (list_section f) = Some sec ∧ holds_entry sec)
  ∧ (∀ l, list_value f d = Some l →
       l ≠ []
       ∧ ∃ sec raws,
           captured t (list_section f) = Some sec
           ∧ in_order sec raws
           ∧ Forall2 (λ raw e, parse_entry raw = Ok e) raws l
           ∧ Forall (λ raw, ∃ rest c, Matches re_entries raw rest ∅ c) raws).
Proof.
  intros (r & p & ps' & [= <-] & [= ->] & H)%extractResumeData_inv t.
  fold t in H. pose proof (list_value_spec f t d H) as HE.
  unfold entries_of, section_entries in HE.
  destruct (captured t (list_section f)) as [sec|] eqn:Ec; simpl in HE.
  - destruct (js_match_all sec re_entries) as [raws|] eqn:Ea.
    + destruct HE as (l & -> & HF).
      apply js_match_all_Some in Ea as Ha. destruct Ha as [-> Hne]. split.
      * split; [intros _|eauto]. exists sec. split; [reflexivity|].
        apply js_match_all_holds. rewrite Ea. eauto.
      * intros l' [= <-]. split.
        { intros ->. apply Forall2_nil_inv_r in HF. contradiction. }
        exists sec, (scan_all re_entries 0 sec). split; [reflexivity|].
        split; [|split; [exact HF|]].
        -- pose proof (scan_all_in_order re_entries sec 0 ltac:(lia)) as HO.
           rewrite drop_0 in HO. exact HO.
        -- apply Forall_forall. intros raw Hin.
           apply scan_all_sound in Hin as (_ & rest & c & _ & M). eauto.
    + rewrite HE. split; [|intros l [=]]. split; [intros [? [=]]|].
      intros (sec' & [= <-] & Hh). apply js_match_all_holds in Hh.
      rewrite Ea in Hh. destruct Hh as [? [=]].
  - rewrite HE. split; [|intros l [=]]. split; [intros [? [=]]|].
    intros (sec' & [=] & _).
Qed.

Lemma list_fields_follow_the_text_witness :
  let ps := [{| index := 0; markdown := Some two_line_education |}] in
  let d := result_of (extractResumeData (Some {| pages := Some ps |})) in
  let l := [ line_entry u8"2010" u8"4" u8"A高校 入学";
             line_entry u8"2013" u8"3" u8"A高校 卒業" ] in
  ∃ sec raws,
    captured (allText_of ps) re_educationSection = Some sec
    ∧ in_order sec raws
    ∧ Forall2 (λ raw e, parse_entry raw = Ok e) raws l
    ∧ Forall (λ raw, ∃ rest c, Matches re_entries raw rest ∅ c) raws.
Proof.
  intros ps d l.
  assert (extractResumeData (Some {| pages := Some ps |}) = Ok d) as E
    by (vm_compute; reflexivity).
  assert (list_value LF_educationHistory d = Some l) as Hl
    by (vm_compute; reflexivity).
  exact (proj2 (proj2 (list_fields_follow_the_text ps d LF_educationHistory E)
                  l Hl)).
Defined.

(** *** The address *)

Lemma not_eol_cases x : in_class not_eol x = false → x = LF ∨ x = CR.
Proof.
  change (in_class not_eol x) with (negb ((x =? LF) || ((x =? CR) || false))).
  rewrite negb_false_iff, orb_false_r, orb_true_iff, !N.eqb_eq. auto.
Qed.

(** The end of the address expression, [(?:\n|\r|$)], succeeds exactly
    where the line ends. *)
Lemma line_end_run (s : text) c (a : text * captures) :
  run (RAlt (RChars [LF]) (RAlt (RChars [CR]) REnd)) s c final = Some a →
  stops (in_class not_eol) s ∧ a.2 = c.
Proof.
  cbn [run]. destruct s as [|x s]; cbn [strip_prefix].
  - intros [= <-]. split; [exact I|reflexivity].
  - destruct (N.eqb_spec LF x) as [<-|H1].
    + intros [= <-]. split; reflexivity.
    + destruct (N.eqb_spec CR x) as [<-|H2]; [|discriminate].
      intros [= <-]. split; reflexivity.
Qed.

Lemma line_end_total (s : text) c :
  stops (in_class not_eol) s →
  ∃ rest, run (RAlt (RChars [LF]) (RAlt (RChars [CR]) REnd)) s c final
          = Some (rest, c).
Proof.
  intros Hs. cbn [run]. destruct s as [|x s]; cbn [strip_prefix]; [eauto|].
  simpl in Hs. apply not_eol_cases in Hs as [-> | ->]; simpl; eauto.
Qed.

Lemma address_match_here (s rest : text) c :
  match_here re_address s = Some (rest, c) →
  ∃ cs ws g tail,
    s = u8"現住所" ++ cs ++ ws ++ g ++ tail
    ∧ c = <[1%nat := g]> ∅
    ∧ all_colons cs ∧ all_spaces ws
    ∧ g ≠ [] ∧ Forall (λ x, in_class not_eol x = true) g
    ∧ stops (in_class not_eol) tail.
Proof.
  unfold match_here, re_address. cbn [run].
  destruct (strip_prefix u8"現住所" s) as [s1|] eqn:E1; [|discriminate].
  apply strip_prefix_spec in E1 as ->.
  intros (cs & s2 & -> & Hcs & _ & _ & E)%rep_sound.
  apply rep_sound in E as (ws & s3 & -> & Hws & _ & _ & E).
  apply rep_sound in E as (g & tail & -> & Hg & Hmin & _ & E).
  rewrite consumed_app in E.
  pose proof (line_end_run tail (<[1%nat := g]> ∅) (rest, c)) as HL.
  cbn [run] in HL. destruct (HL E) as [Hstop Hc]. simpl in Hc.
  exists cs, ws, g, tail. split; [reflexivity|]. split; [exact Hc|].
  split; [exact Hcs|]. split; [apply Forall_spaces, Hws|].
  split; [apply nonempty_length, Hmin|]. split; [exact Hg|exact Hstop].
Qed.

Lemma captured_address_sound (t g : text) :
  captured t re_address = Some g →
  ∃ pre rest, labelled_text u8"現住所" not_eol t pre g rest
              ∧ stops (in_class not_eol) rest.
Proof.
  unfold captured, truthy_group.
  destruct (js_match t re_address) as [m|] eqn:E; [|discriminate].
  destruct (group m 1) as [[|x g']|] eqn:G; try discriminate. intros [= <-].
  apply search_from_run in E as (pre & s & -> & _ & E & _).
  apply address_match_here in E
    as (cs & ws & g & tail & -> & Hc & ? & ? & ? & ? & ?).
  simpl in G. rewrite Hc, lookup_insert_eq in G. injection G as ->.
  exists pre, tail. split; [|assumption]. exists cs, ws. auto.
Qed.

Lemma address_eval (cs ws g rest : text) :
  all_colons cs → all_spaces ws → Forall (λ x, in_class not_eol x = true) g →
  plain_start g → stops (in_class not_eol) rest →
  ∃ rest', match_here re_address (u8"現住所" ++ cs ++ ws ++ g ++ rest)
           = Some (rest', <[1%nat := g]> ∅).
Proof.
  intros Hcs Hws Hg Hstart Hrest.
  destruct g as [|x g]; [contradiction|]. destruct Hstart as [Hxc Hxs].
  destruct (line_end_total rest (<[1%nat := x :: g]> ∅) Hrest) as [rest' Hend].
  exists rest'. unfold match_here, re_address. cbn [run].
  rewrite strip_prefix_app.
  apply run_star_max; [exact Hcs| |].
  { apply stops_app; [apply spaces_not_colons, Hws|]. exact Hxc. }
  apply run_star_max; [apply all_spaces_class, Hws| |].
  { simpl. rewrite orb_false_r. exact Hxs. }
  apply run_plus_max; [exact Hg|exact Hrest|].
  rewrite (consumed_app (x :: g)). cbn [run] in Hend. exact Hend.
Qed.

Lemma address_groups w rest c :
  Matches re_address w rest ∅ c → ∃ g, c !! 1%nat = Some g ∧ g ≠ [].
Proof.
  unfold re_address, plus, star. intros M. invert_matches;
    (eexists; split; [simplify_map_eq; reflexivity|];
     apply nonempty_length; assumption).
Qed.

Lemma captured_address_complete (t pre g rest : text) :
  labelled_text u8"現住所" not_eol t pre g rest →
  is_Some (captured t re_address).
Proof.
  intros (cs & ws & -> & Hcs & Hws & Hne & Hg).
  destruct (drop_while_spec (in_class not_eol) rest) as (w & Hr & Hw & Hstop).
  set (tail := drop_while (in_class not_eol) rest) in *.
  assert (∃ eol rest', tail = eol ++ rest'
            ∧ Matches (RAlt (RChars [LF]) (RAlt (RChars [CR]) REnd)) eol rest'
                (<[1%nat := g ++ w]> ∅) (<[1%nat := g ++ w]> ∅))
    as (eol & rest' & Ht & Mend).
  { destruct tail as [|x tail'].
    - exists [], []. split; [reflexivity|]. apply M_alt_r, M_alt_r. constructor.
    - apply not_eol_cases in Hstop as [-> | ->];
        [exists [LF], tail'|exists [CR], tail'];
        (split; [reflexivity|]); [apply M_alt_l|apply M_alt_r, M_alt_l];
        constructor. }
  assert (Matches re_address (u8"現住所" ++ cs ++ ws ++ (g ++ w) ++ eol) rest' ∅
            (<[1%nat := g ++ w]> ∅)) as M.
  { unfold re_address, star, plus.
    eapply M_seq; [constructor|].
    eapply M_seq; [constructor; [exact Hcs|lia|discriminate]|].
    eapply M_seq; [constructor; [apply all_spaces_class, Hws|lia|discriminate]|].
    eapply M_seq; [|exact Mend].
    constructor. constructor; [apply Forall_app; auto| |discriminate].
    rewrite length_app. destruct g; [contradiction|simpl; lia]. }
  pose proof (captured_is_Some
                (pre ++ (u8"現住所" ++ cs ++ ws ++ (g ++ w) ++ eol) ++ rest')
                _ pre _ rest' _ M address_groups) as H.
  rewrite <- !(assoc_L (++)) in H. rewrite Hr, Ht. exact H.
Qed.

(** address.  The field is set exactly when the label 現住所 occurs
    followed, after colons and white space, by a unit that is no line
    break; its value is then the rest of that line, trimmed.  Where the
    label first occurs and a value follows that starts with neither colon
    nor white space, the field is that value up to the end of the line,
    trimmed. *)
Theorem address_takes_rest_of_line (ps : list OCRPage)
    (d : ExtractedResumeData) :
  extractResumeData (Some {| pages := Some ps |}) = Ok d →
  let t := allText_of ps in
  ((∃ pre g rest, labelled_text u8"現住所" not_eol t pre g rest)
   ↔ is_Some (address d))
  ∧ (∀ v, address d = Some v →
       ∃ pre g rest, labelled_text u8"現住所" not_eol t pre g rest
                     ∧ stops (in_class not_eol) rest ∧ v = trim g)
  ∧ (∀ pre g rest,
       free_before [u8"現住所"] t (length pre) →
       labelled_text u8"現住所" not_eol t pre g rest → plain_start g →
       stops (in_class not_eol) rest → address d = Some (trim g)).
Proof.
  intros (r & p & ps' & [= <-] & [= ->] & H)%extractResumeData_inv t.
  fold t in H. pose proof (address_spec _ _ H) as E.
  split; [split|split].
  - intros (pre & g & rest & HL).
    destruct (captured_address_complete _ _ _ _ HL) as [g' Hg'].
    rewrite E, Hg'. eauto.
  - intros [v Hv]. rewrite E in Hv.
    destruct (captured t re_address) as [g|] eqn:Eg; [|discriminate].
    apply captured_address_sound in Eg as (pre & rest & HL & _). eauto.
  - intros v Hv. rewrite E in Hv.
    destruct (captured t re_address) as [g|] eqn:Eg; [|discriminate].
    injection Hv as <-.
    apply captured_address_sound in Eg as (pre & rest & HL & Hs). eauto 6.
  - intros pre g rest Hfree (cs & ws & Ht & Hcs & Hws & Hne & Hg) Hstart Hrest.
    destruct (address_eval cs ws g rest Hcs Hws Hg Hstart Hrest) as [rest' Hm].
    rewrite E, Ht. unfold re_address in Hm |- *.
    rewrite (captured_first _ _ pre _ _ g _
               ltac:(rewrite <- Ht; exact Hfree) Hm
               ltac:(apply lookup_insert_eq) Hne).
    reflexivity.
Qed.

Lemma address_takes_rest_of_line_witness :
  let ps := [{| index := 0;
                markdown := Some (u8"現住所：東京都新宿区1-2-3 " ++ [LF]
                                  ++ u8"電話番号：03-1234-5678") |}] in
  let d := result_of (extractResumeData (Some {| pages := Some ps |})) in
  address d = Some (trim u8"東京都新宿区1-2-3 ").
Proof.
  intros ps d.
  assert (extractResumeData (Some {| pages := Some ps |}) = Ok d) as E
    by (vm_compute; reflexivity).
  apply (proj2 (proj2 (address_takes_rest_of_line ps d E)) []
           u8"東京都新宿区1-2-3 " ([LF] ++ u8"電話番号：03-1234-5678")).
  - intros h j _ Hj. simpl in Hj. lia.
  - apply (labelled_text_intro _ _ _ _ u8"：" []); vm_compute; reflexivity.
  - vm_compute. split; reflexivity.
  - reflexivity.
Defined.

(** ** The name of the output file *)

(** Replacing every unit of a class by one unit is a map. *)
Lemma replace_all_class cl (y : N) (s : text) :
  OutputFile.replace_all (RSet cl) [y] 0 s
  = (λ x, if in_class cl x then y else x) <$> s.
Proof.
  induction s as [|x t IH]; [reflexivity|].
  cbn [OutputFile.replace_all fmap list_fmap]. unfold match_here. cbn [run].
  destruct (in_class cl x) eqn:Hx.
  - change (consumed (x :: t) t) with (consumed ([x] ++ t) t).
    rewrite consumed_app. cbn [length app]. rewrite IH. reflexivity.
  - rewrite IH. reflexivity.
Qed.

(** The name of the sheet that is written and uploaded is resume_, the
    ISO time with every colon and every dot replaced by a hyphen and all
    other characters kept in their places, and .xlsx: the time part has
    the length of the ISO time and holds neither colon nor dot. *)
Theorem outputName_has_no_colon (iso : text) :
  ∃ ts,
    OutputFile.outputName iso = u8"resume_" ++ ts ++ u8".xlsx"
    ∧ OutputFile.blobName iso = u8"resumes/" ++ u8"resume_" ++ ts ++ u8".xlsx"
    ∧ length ts = length iso
    ∧ (∀ i x, iso !! i = Some x →
              ts !! i = Some (if (x =? 0x3A) || (x =? 0x2E) then 0x2D else x))
    ∧ (0x3A ∉ ts) ∧ (0x2E ∉ ts).
Proof.
  exists (OutputFile.timestamp_of iso). split; [reflexivity|].
  split; [reflexivity|].
  unfold OutputFile.timestamp_of, OutputFile.js_replace_all,
    OutputFile.re_colon_or_dot.
  change (u8"-") with [0x2D]. rewrite replace_all_class.
  assert (∀ x, in_class (OneOf (chars u8":.")) x = (x =? 0x3A) || (x =? 0x2E))
    as Hc by (intros x; simpl; rewrite orb_false_r; reflexivity).
  split; [apply length_fmap|]. split.
  - intros i x Hi. rewrite list_lookup_fmap, Hi. cbn [fmap option_fmap option_map].
    rewrite Hc. reflexivity.
  - split; intros (x & Hx & _)%list_elem_of_fmap; rewrite Hc in Hx;
      destruct (N.eqb_spec x 0x3A); destruct (N.eqb_spec x 0x2E);
      simpl in Hx; subst; try discriminate; congruence.
Qed.

(** *** The postal code, from the text to the sheet *)

(** The search returns the leftmost match: the expression matches at no
    offset before the index of the result. *)
Lemma search_from_leftmost r : ∀ s i m,
  search_from r i s = Some m →
  ∀ j, (i + j < m_index m)%nat → match_here r (drop j s) = None.
Proof.
  induction s as [|x s IH]; intros i m H j Hj; simpl in H.
  - destruct (match_here r []) as [[s' c]|] eqn:E; [|discriminate].
    injection H as <-. simpl in Hj. lia.
  - destruct (match_here r (x :: s)) as [[s' c]|] eqn:E.
    + injection H as <-. simpl in Hj. lia.
    + destruct j as [|j]; [exact E|]. simpl. apply (IH (S i) m H). lia.
Qed.

(** Two ways to split a text, around a unit that the margin cannot hold. *)
Lemma app_split_left (P : N → Prop) (la X pre0 Y : text) x :
  la ++ X = pre0 ++ x :: Y → Forall P la → ¬ P x →
  ∃ pre, pre0 = la ++ pre ∧ X = pre ++ x :: Y.
Proof.
  revert pre0. induction la as [|s la IH]; intros pre0 E Hla Hx.
  - exists pre0. split; [reflexivity|exact E].
  - apply Forall_cons in Hla as [Hs Hla].
    destruct pre0 as [|y pre0]; simpl in E.
    + injection E as -> _. contradiction.
    + injection E as -> E. destruct (IH pre0 E Hla Hx) as (pre & -> & ->).
      exists pre. split; reflexivity.
Qed.

Lemma app_split_right (P : N → Prop) (a lb W Y : text) x :
  a ++ lb = W ++ x :: Y → Forall P lb → ¬ P x →
  ∃ r0, a = W ++ x :: r0 ∧ Y = r0 ++ lb.
Proof.
  revert a. induction W as [|w W IH]; intros a E Hlb Hx; simpl in E.
  - destruct a as [|y a]; simpl in E.
    + subst lb. apply Forall_cons in Hlb as [? _]. contradiction.
    + injection E as -> E. exists a. split; [reflexivity|symmetry; exact E].
  - destruct a as [|y a]; simpl in E.
    + subst lb. exfalso. apply Forall_cons in Hlb as [_ Hlb].
      apply Forall_app in Hlb as [_ Hlb].
      apply Forall_cons in Hlb as [? _]. contradiction.
    + injection E as -> E. destruct (IH a E Hlb Hx) as (r0 & -> & ->).
      exists r0. split; reflexivity.
Qed.

(** Where the expression of the address cell matches, the expression of
    the extractor matches as well, whatever follows. *)
Lemma postalPrefix_is_postalCode (w r tail : text) c c' :
  Matches re_postalPrefix w r c c' →
  is_Some (match_here re_postalCode (w ++ r ++ tail)).
Proof.
  unfold re_postalPrefix, star, times. intros M. invert_matches.
  match goal with
  | |- is_Some (match_here _
                  ((?m ++ ?sp ++ ?d3 ++ ?h ++ ?d4 ++ ?sp2) ++ _ ++ _)) =>
      assert (Matches re_postalCode (m ++ sp ++ d3 ++ h ++ d4)
                (sp2 ++ r ++ tail) ∅ (<[1%nat := d3 ++ h ++ d4]> ∅)) as M
  end.
  { unfold re_postalCode, star, times.
    eapply M_seq; [apply M_chars|].
    eapply M_seq; [apply M_rep; assumption|].
    apply M_group.
    eapply M_seq; [apply M_rep; assumption|].
    eapply M_seq; [apply M_chars|apply M_rep; assumption]. }
  apply (run_complete (A := text * captures)) with (c0 := ∅) (k := final) in M;
    [|intros; eexists; reflexivity].
  unfold match_here. repeat rewrite <- (assoc_L (++)) in M.
  repeat rewrite <- (assoc_L (++)). exact M.
Qed.

(** The postal code that the extractor takes from the captured address
    stands in the trimmed address, and the expression of the address
    cell removes it there, with the white space after it. *)
Lemma postal_code_in_trimmed (g p : text) :
  captured g re_postalCode = Some p →
  ∃ pre sp sp2 rest,
    trim g = pre ++ u8"〒" ++ sp ++ p ++ sp2 ++ rest
    ∧ all_spaces sp ∧ postal_code_shape p ∧ all_spaces sp2
    ∧ stops is_space rest
    ∧ js_replace (trim g) re_postalPrefix [] = pre ++ rest.
Proof.
  intros H. unfold captured in H.
  destruct (js_match g re_postalCode) as [m|] eqn:Em; [|discriminate].
  pose proof (search_from_leftmost _ _ _ _ Em) as Hleft.
  destruct (search_from_run _ _ _ _ Em) as (pre0 & s' & Hg & Hi & Hm & Hw).
  apply match_here_sound in Hm as [Hs' M]. rewrite <- Hw in Hs', M.
  destruct (postalCode_groups _ _ _ M) as (sp & p' & Hwhole & G & Hsp & Hshape).
  assert (p' = p) as ->.
  { simpl in H. rewrite G in H. destruct p'; [discriminate|].
    injection H as <-. reflexivity. }
  destruct Hshape as (d3 & d4 & -> & H3 & H4 & Hd3 & Hd4).
  destruct (trim_spec g) as (la & lb & Hla & Sa & Sb).
  remember (trim g) as a eqn:Ea. clear Ea. pose proof Hla as Hsplit.
  destruct d4 as [|a4 [|b4 [|c4 [|x4 [|]]]]]; try discriminate H4.
  assert (is_space x4 = false) as Hx4.
  { apply digit_not_space.
    apply Forall_cons in Hd4 as [_ Hd4]. apply Forall_cons in Hd4 as [_ Hd4].
    apply Forall_cons in Hd4 as [_ Hd4]. apply Forall_cons in Hd4 as [Hd4 _].
    exact Hd4. }
  rewrite Hg, Hs', Hwhole in Hla.
  change (u8"〒") with [0x3012] in Hla. change (u8"-") with [0x2D] in Hla.
  symmetry in Hla. rewrite <- !(assoc_L (++)) in Hla. simpl in Hla.
  destruct (app_split_left (λ x, is_space x = true) _ _ _ _ _ Hla Sa)
    as (pre & Hpre0 & Ha); [discriminate|].
  assert (a ++ lb = (pre ++ 0x3012 :: sp ++ d3 ++ [0x2D; a4; b4; c4])
                    ++ x4 :: m_rest m) as Ha'.
  { rewrite Ha. repeat first [progress simpl | rewrite <- (assoc_L (++))].
    reflexivity. }
  destruct (app_split_right (λ x, is_space x = true) _ _ _ _ _ Ha' Sb)
    as (r0 & Hr0 & Hrest); [rewrite Hx4; discriminate|].
  destruct (drop_while_spec is_space r0) as (sp2 & Hsp2 & Ssp2 & Hstop).
  set (rest := drop_while is_space r0) in *.
  assert (stops is_space rest) as Hstops by (destruct rest; [exact I|exact Hstop]).
  assert (a = pre ++ u8"〒" ++ sp ++ d3 ++ u8"-" ++ [a4; b4; c4; x4] ++ sp2 ++ rest)
    as Hshape.
  { rewrite Hr0, Hsp2. change (u8"〒") with [0x3012]. change (u8"-") with [0x2D].
    repeat first [progress simpl | rewrite <- (assoc_L (++))]. reflexivity. }
  exists pre, sp, sp2, rest.
  split; [rewrite Hshape, <- !(assoc_L (++)); reflexivity|].
  split; [exact Hsp|].
  split; [exists d3, [a4; b4; c4; x4]; repeat split; assumption|].
  split; [exact Ssp2|]. split; [exact Hstops|].
  pose proof (postalPrefix_eval sp d3 [a4; b4; c4; x4] sp2 rest
                Hsp H3 Hd3 H4 Hd4 Ssp2 Hstops) as Hev.
  unfold js_replace, js_match. rewrite Hshape at 1. rewrite search_from_skip.
  - rewrite (search_from_here _ _ _ _ _ Hev). cbn [m_index m_rest Nat.add].
    rewrite Hshape, take_app_length. reflexivity.
  - intros j Hj.
    destruct (match_here re_postalPrefix (drop j _)) as [[r' c']|] eqn:E;
      [|reflexivity].
    exfalso. apply match_here_sound in E as [Hd M'].
    destruct (postalPrefix_is_postalCode _ _ lb _ _ M') as [y Hy].
    rewrite (assoc_L (++)), <- Hd, <- Hshape in Hy.
    rewrite <- (drop_app_le a lb j) in Hy
      by (rewrite Hshape, length_app; lia).
    rewrite <- (drop_app_add la (a ++ lb) j), <- Hsplit in Hy.
    rewrite Hleft in Hy; [discriminate|].
    rewrite Hi, Hpre0, length_app. lia.
Qed.

(** The postal code on its way through the export, the filler run on the
    record of the extractor.  When the extractor sets postalCode, the
    address of the record holds the mark 〒, white space and that code;
    the cell B7 then shows the mark, a space and the code, and the cell
    A7 the address without the mark, the code and the white space around
    the code: the code moves from the address to its own cell, and
    nothing else of the address is lost. *)
Theorem export_moves_postal_code (ps : list OCRPage) (d : ExtractedResumeData)
    (ws : worksheet) (p : text) :
  extractResumeData (Some {| pages := Some ps |}) = Ok d →
  postalCode d = Some p →
  ∃ pre sp sp2 rest,
    address d = Some (pre ++ u8"〒" ++ sp ++ p ++ sp2 ++ rest)
    ∧ all_spaces sp ∧ postal_code_shape p ∧ all_spaces sp2
    ∧ stops is_space rest
    ∧ fill_sheet d ws !! u8"B7" = Some (VString (u8"〒 " ++ p))
    ∧ fill_sheet d ws !! u8"A7" = Some (VString (pre ++ rest)).
Proof.
  intros (r & p0 & ps' & [= <-] & [= ->] & H)%extractResumeData_inv Hp.
  pose proof (address_spec _ _ H) as Ha. pose proof Hp as Hcode.
  rewrite (postalCode_spec _ _ H) in Hp.
  destruct (captured _ re_address) as [g|]; [|discriminate]. simpl in Hp, Ha.
  destruct (postal_code_in_trimmed g p Hp)
    as (pre & sp & sp2 & rest & Ht & Hsp & Hshape & Hsp2 & Hrest & Hrep).
  exists pre, sp, sp2, rest.
  split; [rewrite Ha, Ht; reflexivity|].
  split; [exact Hsp|]. split; [exact Hshape|]. split; [exact Hsp2|].
  split; [exact Hrest|]. split.
  - apply (scalar_cells _ ws F_postalCode). cbn [written_value].
    rewrite Hcode.
    destruct Hshape as (d3 & d4 & -> & H3 & _).
    destruct d3; [discriminate|]. reflexivity.
  - rewrite <- Hrep. apply (scalar_cells _ ws F_address).
    cbn [written_value]. rewrite Ha, Ht. change (u8"〒") with [0x3012].
    destruct pre; reflexivity.
Qed.

Lemma export_moves_postal_code_witness :
  let ps := [{| index := 0;
                markdown := Some u8"現住所：〒160-0022 東京都新宿区1-2-3" |}] in
  let d := result_of (extractResumeData (Some {| pages := Some ps |})) in
  ∃ pre sp sp2 rest,
    address d = Some (pre ++ u8"〒" ++ sp ++ u8"160-0022" ++ sp2 ++ rest)
    ∧ all_spaces sp ∧ postal_code_shape u8"160-0022" ∧ all_spaces sp2
    ∧ stops is_space rest
    ∧ fill_sheet d ∅ !! u8"B7" = Some (VString (u8"〒 " ++ u8"160-0022"))
    ∧ fill_sheet d ∅ !! u8"A7" = Some (VString (pre ++ rest)).
Proof.
  intros ps d.
  assert (extractResumeData (Some {| pages := Some ps |}) = Ok d) as E
    by (vm_compute; reflexivity).
  assert (postalCode d = Some u8"160-0022") as Hp by (vm_compute; reflexivity).
  exact (export_moves_postal_code ps d ∅ u8"160-0022" E Hp).
Defined.
